(** * media-gnome-api: the control-plane core, embedded and verified

    A shallow embedding of the TypeScript sources of the API
    ([lib/docker.ts], [lib/files.ts], [lib/sse.ts], [routes/status.ts],
    [routes/logs.ts]) together with the properties its specification
    states about them.

    Conventions.
    - A JavaScript string is the list of its UTF-16 code units ([list N]).
    - A [Buffer] is a [list byte]; offsets and sizes are JavaScript numbers,
      here [Z] (every value that occurs is an integer far below 2^53).
    - What the runtime supplies and the repository does not define (the
      UTF-8 decoder behind [Buffer.toString], SHA-256, the wall clock) is a
      parameter of the definitions that use it.
    - Closure variables and object fields that the code mutates are explicit
      state, passed in and returned. *)

From Stdlib Require Import ZArith NArith List Bool Lia String Ascii.
From Stdlib.Strings Require Import Byte.
From stdpp Require Import gmap strings list.
Import ListNotations.

Local Open Scope Z_scope.

(** ** JavaScript strings *)

Module JS.

(** A string value: its UTF-16 code units. *)
Abbreviation jsstring := (list N) (only parsing).

(** An ASCII literal as a JavaScript string. *)
Definition js (s : string) : jsstring :=
  map N_of_ascii (list_ascii_of_string s).

Definition LF : N := 10%N.

(** [WhiteSpace] and [LineTerminator] of ECMA-262, the code units that
    [String.prototype.trim], [parseInt] and the regular-expression class
    [\s] all skip. *)
Definition isLineTerminator (c : N) : bool :=
  (c =? 10)%N || (c =? 13)%N || (c =? 8232)%N || (c =? 8233)%N.

Definition isWhiteSpace (c : N) : bool :=
  (c =? 9)%N || (c =? 11)%N || (c =? 12)%N || (c =? 32)%N || (c =? 160)%N
  || (c =? 5760)%N || ((8192 <=? c)%N && (c <=? 8202)%N)
  || (c =? 8239)%N || (c =? 8287)%N || (c =? 12288)%N || (c =? 65279)%N
  || isLineTerminator c.

Fixpoint trimStart (s : jsstring) : jsstring :=
  match s with
  | [] => []
  | c :: s' => if isWhiteSpace c then trimStart s' else s
  end.

Fixpoint trimEnd (s : jsstring) : jsstring :=
  match s with
  | [] => []
  | c :: s' =>
      match trimEnd s' with
      | [] => if isWhiteSpace c then [] else [c]
      | t => c :: t
      end
  end.

(** [s.trim()] *)
Definition trim (s : jsstring) : jsstring := trimEnd (trimStart s).

(** Truthiness of a string: the empty string is the only falsy one. *)
Definition truthy (s : jsstring) : bool :=
  match s with [] => false | _ => true end.

(** Truthiness of [string | undefined | null]. *)
Definition truthy_opt (o : option jsstring) : bool :=
  match o with Some s => truthy s | None => false end.

(** [s.split(sep)] for a one-code-unit separator: never the empty list,
    [''.split(sep)] is [['']]. *)
Fixpoint split (sep : N) (s : jsstring) : list jsstring :=
  match s with
  | [] => [[]]
  | c :: s' =>
      if (c =? sep)%N then [] :: split sep s'
      else match split sep s' with
           | [] => [[c]]
           | l :: ls => (c :: l) :: ls
           end
  end.

(** [parts.join(sep)] *)
Fixpoint join (sep : jsstring) (parts : list jsstring) : jsstring :=
  match parts with
  | [] => []
  | [p] => p
  | p :: ps => p ++ sep ++ join sep ps
  end.

(** [s.startsWith(p)] *)
Fixpoint startsWith (s p : jsstring) : bool :=
  match p, s with
  | [], _ => true
  | _ :: _, [] => false
  | a :: p', b :: s' => (a =? b)%N && startsWith s' p'
  end.

(** [s.endsWith(p)] *)
Definition endsWith (s p : jsstring) : bool :=
  startsWith (rev s) (rev p).

(** Strict equality of two strings. *)
Definition streq (a b : jsstring) : bool := bool_decide (a = b).

(** Surrogate code units, and [s.isWellFormed()]: no surrogate stands
    alone. These are the strings that survive being written as UTF-8 and
    read back: for a lone surrogate the encoder writes U+FFFD. *)
Definition isHighSurrogate (c : N) : bool :=
  (55296 <=? c)%N && (c <=? 56319)%N.

Definition isLowSurrogate (c : N) : bool :=
  (56320 <=? c)%N && (c <=? 57343)%N.

Fixpoint isWellFormed (s : jsstring) : bool :=
  match s with
  | [] => true
  | c :: r =>
      if isHighSurrogate c then
        match r with
        | d :: r' => isLowSurrogate d && isWellFormed r'
        | [] => false
        end
      else negb (isLowSurrogate c) && isWellFormed r
  end.

(** *** parseInt *)

Definition isDigit (c : N) : bool := (48 <=? c)%N && (c <=? 57)%N.

(** Value of a code unit as a digit of the given radix (10 or 16). *)
Definition digitValue (radix : Z) (c : N) : option Z :=
  if isDigit c then Some (Z.of_N c - 48)
  else if (radix =? 16) && (97 <=? c)%N && (c <=? 102)%N
       then Some (Z.of_N c - 87)
  else if (radix =? 16) && (65 <=? c)%N && (c <=? 70)%N
       then Some (Z.of_N c - 55)
  else None.

(** The longest prefix of digits, read left to right; [None] when the
    first code unit is no digit. *)
Fixpoint scanDigits (radix : Z) (acc : option Z) (s : jsstring) : option Z :=
  match s with
  | [] => acc
  | c :: s' =>
      match digitValue radix c with
      | Some d =>
          scanDigits radix
            (Some (match acc with Some a => a * radix + d | None => d end)) s'
      | None => acc
      end
  end.

(** The Numbers [parseInt] returns besides [NaN]: an integer that a
    double holds, or an infinity. The program only prints the value, with
    [JSON.stringify], which prints [0] for both zeros and [null] for both
    infinities: [-0] is [Finite 0], and the two infinities are one. *)
Inductive Number :=
| Finite (z : Z)
| Infinite.

(** The double nearest to a natural number, ties to the even significand
    (the value may be 2^1024, which no double holds). Below 2^53 every
    integer is a double. *)
Definition roundToDouble (m : Z) : Z :=
  if m <? 2 ^ 53 then m
  else
    let e := Z.log2 m - 52 in
    let q := m / 2 ^ e in
    let r := m mod 2 ^ e in
    let half := 2 ^ (e - 1) in
    let q' :=
      if r <? half then q
      else if half <? r then q + 1
      else if Z.even q then q else q + 1 in
    q' * 2 ^ e.

(** The Number value of a mathematical integer. *)
Definition toNumber (v : Z) : Number :=
  let m := roundToDouble (Z.abs v) in
  if 2 ^ 1024 <=? m then Infinite else Finite (Z.sgn v * m).

(** [parseInt(s)] with no radix argument (ECMA-262, 19.2.5): leading
    white space is skipped, then an optional sign, then an optional [0x]
    or [0X] selecting radix 16, then the longest run of digits; whatever
    follows is ignored. [None] is [NaN]. The result is the Number value of
    the mathematical integer the digits denote: that integer when it is
    below 2^53 in absolute value, the nearest double beyond, an infinity
    from 2^1024 - 2^970 on (the runtime converts the digits with correct
    rounding). *)
Definition parseInt (s : jsstring) : option Number :=
  let s := trimStart s in
  let '(sign, s) :=
    match s with
    | c :: s' =>
        if (c =? 45)%N then (-1, s')
        else if (c =? 43)%N then (1, s')
        else (1, s)
    | [] => (1, s)
    end in
  let '(radix, s) :=
    match s with
    | c0 :: cx :: s' =>
        if (c0 =? 48)%N && ((cx =? 120)%N || (cx =? 88)%N) then (16, s')
        else (10, s)
    | _ => (10, s)
    end in
  match scanDigits radix None s with
  | Some v => Some (toNumber (sign * v))
  | None => None
  end.

(** *** The timestamp pattern

      The pattern both log framers apply to a line, anchored at both ends:
      group 1 is four digits, [-], two digits, [-], two digits, [T], two
      digits, [:], two digits, [:], two digits, [.], one or more digits
      and [Z]; then one or more white-space code units; group 2 is any run
      of code units other than line terminators, up to the end. The pattern
      is deterministic up to its two greedy runs: the fraction digits must
      take every digit (the next atom, [Z], is no digit), and the white
      space must take its whole run, after which group 2 succeeds exactly
      when no line terminator remains (giving white space back to group 2
      cannot remove one). *)

(** [n] digits at the head of [s]: the digits and the rest. *)
Fixpoint digits (n : nat) (s : jsstring) : option (jsstring * jsstring) :=
  match n with
  | O => Some ([], s)
  | S n' =>
      match s with
      | c :: s' =>
          if isDigit c then
            match digits n' s' with
            | Some (ds, r) => Some (c :: ds, r)
            | None => None
            end
          else None
      | [] => None
      end
  end.

(** One given code unit at the head of [s]. *)
Definition lit (c : N) (s : jsstring) : option jsstring :=
  match s with
  | c' :: s' => if (c' =? c)%N then Some s' else None
  | [] => None
  end.

(** The longest prefix whose code units satisfy [p], and the rest. *)
Fixpoint span (p : N -> bool) (s : jsstring) : jsstring * jsstring :=
  match s with
  | c :: s' =>
      if p c then let '(a, b) := span p s' in (c :: a, b) else ([], s)
  | [] => ([], [])
  end.

(** [line.match(pattern)]: the two capture groups, or [None] for [null]. *)
Definition matchTimestamp (line : jsstring) : option (jsstring * jsstring) :=
  d1 ← digits 4 line; r ← lit 45 d1.2;
  d2 ← digits 2 r; r ← lit 45 d2.2;
  d3 ← digits 2 r; r ← lit 84 d3.2;
  d4 ← digits 2 r; r ← lit 58 d4.2;
  d5 ← digits 2 r; r ← lit 58 d5.2;
  d6 ← digits 2 r; r ← lit 46 d6.2;
  let '(frac, r) := span isDigit r in
  if negb (truthy frac) then None else
  r ← lit 90 r;
  let '(ws, rest) := span isWhiteSpace r in
  if negb (truthy ws) then None else
  if existsb isLineTerminator rest then None else
  Some (d1.1 ++ [45%N] ++ d2.1 ++ [45%N] ++ d3.1 ++ [84%N] ++ d4.1 ++ [58%N]
          ++ d5.1 ++ [58%N] ++ d6.1 ++ [46%N] ++ frac ++ [90%N],
        rest).

End JS.

Import JS.

(** ** Buffers (Node's [Buffer], read-only use) *)

Module Buf.

(** [buffer.length] *)
Definition blen (b : list byte) : Z := Z.of_nat (length b).

(** [buffer[i]] for an index inside the buffer. *)
Definition byteAt (b : list byte) (i : Z) : Z :=
  Z.of_N (Byte.to_N (nth (Z.to_nat i) b x00)).

(** [buffer.readUInt32BE(offset)]. Node throws when [offset + 4] exceeds
    the length; both call sites first check that 8 bytes are available
    from the frame start, so the read is always inside the buffer. *)
Definition readUInt32BE (b : list byte) (offset : Z) : Z :=
  byteAt b offset * 2 ^ 24 + byteAt b (offset + 1) * 2 ^ 16
  + byteAt b (offset + 2) * 2 ^ 8 + byteAt b (offset + 3).

(** [buffer.subarray(start, end)] for [0 <= start <= end]. *)
Definition subarray (b : list byte) (start end_ : Z) : list byte :=
  take (Z.to_nat end_ - Z.to_nat start) (drop (Z.to_nat start) b).

(** [buffer.subarray(start)] *)
Definition subarrayFrom (b : list byte) (start : Z) : list byte :=
  drop (Z.to_nat start) b.

End Buf.

Import Buf.

(** ** The log framers: [processLogData] (routes/logs.ts) and
       [demuxLogs] (lib/docker.ts) *)

Module Logs.

Inductive Source := stdout | stderr.
Inductive Level := info | error.

(** [LogEntry] of lib/types.ts. *)
Record LogEntry := { ts : jsstring; line : jsstring; level : Level }.

(** The record [demuxLogs] pushes. *)
Record DemuxRecord :=
  { timestamp : jsstring; dline : jsstring; source : Source }.

Section Framer.

(** [Buffer.prototype.toString('utf8')], the runtime's decoder. *)
Variable utf8 : list byte -> jsstring.

Definition sourceOf (streamType : Z) : Source :=
  if streamType =? 1 then stdout else stderr.

Definition levelOf (src : Source) : Level :=
  match src with stderr => error | stdout => info end.

(** [logData.split('\n').filter(line => line.trim())] *)
Definition linesOf (logData : jsstring) : list jsstring :=
  List.filter (fun l => truthy (trim l)) (split LF logData).

(** The entry built for one line. [now] is what
    [new Date().toISOString()] returns when the line is processed. *)
Definition entryOf (now : jsstring) (lv : Level) (l : jsstring) : LogEntry :=
  match matchTimestamp l with
  | Some (t, rest) => {| ts := t; line := rest; level := lv |}
  | None => {| ts := now; line := l; level := lv |}
  end.

(** What one complete frame starting at [processed] sends. *)
Definition frameEntries (now : jsstring) (buffer : list byte)
    (processed size : Z) : list LogEntry :=
  let streamType := byteAt buffer processed in
  let logData := utf8 (subarray buffer (processed + 8) (processed + 8 + size)) in
  let level := levelOf (sourceOf streamType) in
  map (entryOf now level) (linesOf logData).

(** The [while (processed < buffer.length)] loop of [processLogData]:
    the final value of [processed] and the entries handed to
    [connection.sendData], in order. Every iteration that does not
    [break] advances [processed] by at least 8, so [length buffer]
    iterations always suffice ([whileG_fuel], [whileFrames_G]). The clock is read
    once per line; one call runs to completion without yielding, and the
    model gives it one reading, [now]. *)
Fixpoint whileFrames (fuel : nat) (now : jsstring) (buffer : list byte)
    (processed : Z) : Z * list LogEntry :=
  match fuel with
  | O => (processed, [])
  | S fuel' =>
      if processed <? blen buffer then
        if blen buffer - processed <? 8 then (processed, [])
        else
          let size := readUInt32BE buffer (processed + 4) in
          if blen buffer - processed <? 8 + size then (processed, [])
          else
            let sent := frameEntries now buffer processed size in
            let '(p, out) :=
              whileFrames fuel' now buffer (processed + (8 + size)) in
            (p, sent ++ out)
      else (processed, [])
  end.

(** [processLogData(chunk)]: the closure variable [buffer] before the
    call; the result is [buffer] after it and the entries sent. Nothing
    in the [try] block can throw (the reads are guarded and
    [sendData] catches its own failures), so the [catch] is dead. *)
Definition processLogData (now : jsstring) (buffer chunk : list byte)
    : list byte * list LogEntry :=
  let buffer := buffer ++ chunk in
  let '(processed, out) := whileFrames (length buffer) now buffer 0 in
  (if 0 <? processed then subarrayFrom buffer processed else buffer, out).

(** A run of calls, each with the clock reading it sees and the chunk
    it is given; the entries of all calls, in order. *)
Fixpoint feed (calls : list (jsstring * list byte)) (buffer : list byte)
    : list byte * list LogEntry :=
  match calls with
  | [] => (buffer, [])
  | (now, chunk) :: rest =>
      let '(buffer', out) := processLogData now buffer chunk in
      let '(buffer'', out') := feed rest buffer' in
      (buffer'', out ++ out')
  end.

(** [DockerService.demuxLogs(buffer)], the one-shot framer. *)
Definition demuxLine (now : jsstring) (src : Source) (l : jsstring)
    : DemuxRecord :=
  match matchTimestamp l with
  | Some (t, rest) => {| timestamp := t; dline := rest; source := src |}
  | None => {| timestamp := now; dline := l; source := src |}
  end.

Fixpoint demuxLoop (fuel : nat) (now : jsstring) (buffer : list byte)
    (offset : Z) : list DemuxRecord :=
  match fuel with
  | O => []
  | S fuel' =>
      if offset <? blen buffer then
        if blen buffer <? offset + 8 then []
        else
          let streamType := byteAt buffer offset in
          let size := readUInt32BE buffer (offset + 4) in
          if blen buffer <? offset + 8 + size then []
          else
            let logData :=
              utf8 (subarray buffer (offset + 8) (offset + 8 + size)) in
            map (demuxLine now (sourceOf streamType)) (linesOf logData)
            ++ demuxLoop fuel' now buffer (offset + (8 + size))
      else []
  end.

Definition demuxLogs (now : jsstring) (buffer : list byte)
    : list DemuxRecord :=
  demuxLoop (length buffer) now buffer 0.

End Framer.

(** *** Well-formed frames, for stating the properties *)

(** One frame of the engine's multiplexed stream: the stream tag, the
    three unused header bytes and the payload. *)
Record Frame :=
  { tag : byte; pad1 : byte; pad2 : byte; pad3 : byte; payload : list byte }.

Definition byteOfZ (z : Z) : byte :=
  match Byte.of_N (Z.to_N (z mod 256)) with Some b => b | None => x00 end.

(** Big-endian 32-bit encoding of a length. *)
Definition be32 (n : Z) : list byte :=
  [byteOfZ (n / 2 ^ 24); byteOfZ (n / 2 ^ 16); byteOfZ (n / 2 ^ 8); byteOfZ n].

Definition header (f : Frame) : list byte :=
  [tag f; pad1 f; pad2 f; pad3 f] ++ be32 (blen (payload f)).

Definition encode (f : Frame) : list byte := header f ++ payload f.

Definition encodeFrames (fs : list Frame) : list byte :=
  concat (map encode fs).

(** The length field has 32 bits. *)
Definition frameFits (f : Frame) : Prop := blen (payload f) < 2 ^ 32.

(** The entries one frame stands for, at a given clock reading. *)
Definition entriesOfFrame (utf8 : list byte -> jsstring) (now : jsstring)
    (f : Frame) : list LogEntry :=
  map (entryOf now (levelOf (sourceOf (Z.of_N (Byte.to_N (tag f))))))
      (linesOf (utf8 (payload f))).

(** Every line of the frame that yields an entry carries its own
    timestamp. *)
Definition stamped (utf8 : list byte -> jsstring) (f : Frame) : Prop :=
  Forall (fun l => is_Some (matchTimestamp l)) (linesOf (utf8 (payload f))).

(** Text and stream of an entry: what does not depend on the clock. *)
Definition textAndStream (e : LogEntry) : jsstring * Level :=
  (line e, level e).

(** The frames of a stream, each with the number of its last byte in the
    stream (the first byte of the stream is number 1). *)
Fixpoint withEnds (start : nat) (fs : list Frame) : list (Frame * nat) :=
  match fs with
  | [] => []
  | f :: rest =>
      let last := (start + length (encode f))%nat in
      (f, last) :: withEnds last rest
  end.

(** The clock reading of the call whose chunk brings byte number [n] of
    the stream: the call in which a frame whose last byte is number [n]
    completes. ([d] when the calls bring fewer than [n] bytes.) *)
Fixpoint clockAt (calls : list (jsstring * list byte)) (n : nat)
    (d : jsstring) : jsstring :=
  match calls with
  | [] => d
  | (now, chunk) :: rest =>
      if (n <=? length chunk)%nat then now
      else clockAt rest (n - length chunk) d
  end.

(** A decoder for examples: each byte is one code unit (UTF-8 on ASCII). *)
Definition latin1 (b : list byte) : jsstring := map Byte.to_N b.

End Logs.
Import Logs.

(** ** The link store: [FileService] (lib/files.ts) *)

Module Files.

(** [Link] of lib/types.ts. The third field, [addedAt], is the
    modification time of the artifact (or the current time), the same for
    every link of one read; no operation of the store reads it and it is
    left out. *)
Record Link := { id : jsstring; url : jsstring }.

(** The two files the service touches, [linksFilePath] and
    [linksFilePath + '.tmp'] ([None]: the file does not exist, which
    [fs.readFile] reports as [ENOENT]), and the log of the calls that
    change them. A file is held as the string that reading it as UTF-8
    gives, and [writeFile] holds the string it is given: the two agree for
    the strings that are well formed ([isWellFormed]); for a lone
    surrogate the runtime stores U+FFFD, which this disk does not do, so
    what is said of a string a caller supplies is said of well-formed
    strings. Other I/O failures (which every operation turns into an
    exception after removing the temporary file) are not modelled: on this
    disk [writeFile] and [rename] succeed. [ensureDirectoryExists] only
    creates the directory of the artifact and is left out. *)
Inductive FsCall :=
  | WriteFile (content : jsstring)   (* fs.writeFile(tempFile, content) *)
  | Rename.                          (* fs.rename(tempFile, linksFilePath) *)

Record Disk :=
  { links : option jsstring; tmp : option jsstring; fslog : list FsCall }.

Definition writeFile (content : jsstring) (d : Disk) : Disk :=
  {| links := links d; tmp := Some content;
     fslog := fslog d ++ [WriteFile content] |}.

Definition rename (d : Disk) : Disk :=
  {| links := tmp d; tmp := None; fslog := fslog d ++ [Rename] |}.

(** [s.length] *)
Definition strlen (s : jsstring) : Z := Z.of_nat (length s).

Section FileService.

(** [crypto.createHash('sha256').update(url).digest('hex')] *)
Variable sha256hex : jsstring -> jsstring.

Definition generateId (url : jsstring) : jsstring := sha256hex url.

Definition urlsOf (content : jsstring) : list jsstring :=
  List.filter (fun line => 0 <? strlen line)
    (map trim (split LF content)).

(** [readLinks()]: a missing file is the empty list. *)
Definition readLinks (d : Disk) : list Link :=
  match links d with
  | Some content =>
      map (fun u => {| id := generateId u; url := u |}) (urlsOf content)
  | None => []
  end.

(** The content read back before appending: [''] when the file is
    missing. *)
Definition currentContent (d : Disk) : jsstring :=
  match links d with Some c => c | None => [] end.

(** [currentContent + (currentContent && !currentContent.endsWith('\n')
    ? '\n' : '') + added + '\n'] *)
Definition appended (cur added : jsstring) : jsstring :=
  cur ++ (if truthy cur && negb (endsWith cur [LF]) then [LF] else [])
      ++ added ++ [LF].

(** [addLink(url)]: the disk afterwards and [{ id, isNew }]. *)
Definition addLink (u : jsstring) (d : Disk) : Disk * (jsstring * bool) :=
  let id_ := generateId u in
  let existingLinks := readLinks d in
  match List.find (fun link => streq (url link) u) existingLinks with
  | Some existing => (d, (id existing, false))
  | None =>
      let newContent := appended (currentContent d) u in
      (rename (writeFile newContent d), (id_, true))
  end.

(** [addBulkLinks(urls)]: the disk afterwards and the count returned. *)
Definition addBulkLinks (urls : list jsstring) (d : Disk) : Disk * Z :=
  let existingLinks := readLinks d in
  let existingUrls : gset (list N) := list_to_set (map url existingLinks) in
  let newUrls :=
    List.filter (fun u => negb (bool_decide (u ∈ existingUrls))) urls in
  if Z.of_nat (length newUrls) =? 0 then (d, 0)
  else
    let newLines := join [LF] newUrls in
    let newContent := appended (currentContent d) newLines in
    (rename (writeFile newContent d), Z.of_nat (length newUrls)).

(** [removeLink(id)]: the disk afterwards and whether a link was
    removed. *)
Definition removeLink (id_ : jsstring) (d : Disk) : Disk * bool :=
  let links_ := readLinks d in
  match List.find (fun link => streq (id link) id_) links_ with
  | None => (d, false)
  | Some linkToRemove =>
      let remainingUrls :=
        map url (List.filter (fun link => negb (streq (id link) id_)) links_) in
      let newContent :=
        if 0 <? Z.of_nat (length remainingUrls)
        then join [LF] remainingUrls ++ [LF] else [] in
      (rename (writeFile newContent d), true)
  end.

(** The operations of the store, and a run of them. *)
Inductive Op :=
  | Add (u : jsstring)
  | AddBulk (urls : list jsstring)
  | Remove (id_ : jsstring).

Definition step (d : Disk) (op : Op) : Disk :=
  match op with
  | Add u => (addLink u d).1
  | AddBulk urls => (addBulkLinks urls d).1
  | Remove i => (removeLink i d).1
  end.

Definition run (ops : list Op) (d : Disk) : Disk := fold_left step ops d.

(** The lines of the artifact that hold a url, as [readLinks] sees
    them. *)
Definition storedUrls (d : Disk) : list jsstring := map url (readLinks d).

End FileService.

(** The store before anything was added: no artifact yet. *)
Definition fresh : Disk := {| links := None; tmp := None; fslog := [] |}.

End Files.

(** ** The container engine and [DockerService] (lib/docker.ts) *)

Module Docker.

(** [ContainerInfo] of lib/types.ts. *)
Inductive State := running | stopped | unknown.
Inductive Health := healthy | unhealthy | starting | none.

Record ContainerInfo :=
  { name : string; state : State; health : option Health;
    startedAt : option jsstring; finishedAt : option jsstring }.

(** What [container.inspect()] resolves to, as far as the code reads it:
    [State.Running], [State.Health?.Status], [State.StartedAt],
    [State.FinishedAt] and [Config.Env] ([None]: the field is missing,
    [null] or [undefined]). *)
Record InspectInfo :=
  { Running : bool; HealthStatus : option Health;
    StartedAt : option jsstring; FinishedAt : option jsstring;
    Env : option (list jsstring) }.

(** The commands the service sends to the engine, besides [inspect]. *)
Inductive EngineCmd :=
| CmdStart (container : string)        (* container.start() *)
| CmdStop (container : string) (t : Z). (* container.stop({ t }) *)

(** The engine: the containers it knows, by name, and the commands it has
    received. [inspect] of a name it does not know is rejected. A command
    on a known container succeeds and flips [Running]. *)
Record Engine :=
  { containers : gmap string InspectInfo; issued : list EngineCmd }.

Definition inspect (e : Engine) (n : string) : option InspectInfo :=
  containers e !! n.

Definition setRunning (r : bool) (i : InspectInfo) : InspectInfo :=
  {| Running := r; HealthStatus := HealthStatus i; StartedAt := StartedAt i;
     FinishedAt := FinishedAt i; Env := Env i |}.

Definition engineStart (n : string) (e : Engine) : Engine :=
  {| containers := alter (setRunning true) n (containers e);
     issued := issued e ++ [CmdStart n] |}.

Definition engineStop (n : string) (t : Z) (e : Engine) : Engine :=
  {| containers := alter (setRunning false) n (containers e);
     issued := issued e ++ [CmdStop n t] |}.

(** A promise of [void]: resolved, or rejected with the [Error] thrown. *)
Inductive Outcome := Resolved | Rejected.

(** [getContainerInfo(containerName)] *)
Definition getContainerInfo (e : Engine) (containerName : string)
    : ContainerInfo :=
  match inspect e containerName with
  | Some inspected =>
      {| name := containerName;
         state := if Running inspected then running else stopped;
         health := Some (match HealthStatus inspected with Some h => h | None => none end);
         startedAt := StartedAt inspected;
         finishedAt := FinishedAt inspected |}
  | None =>
      {| name := containerName; state := unknown; health := None;
         startedAt := None; finishedAt := None |}
  end.

(** [startContainer(containerName)] *)
Definition startContainer (containerName : string) (e : Engine)
    : Engine * Outcome :=
  match inspect e containerName with
  | Some inspected =>
      if negb (Running inspected) then (engineStart containerName e, Resolved)
      else (e, Resolved)
  | None => (e, Rejected)
  end.

(** [stopContainer(containerName)] *)
Definition stopContainer (containerName : string) (e : Engine)
    : Engine * Outcome :=
  match inspect e containerName with
  | Some inspected =>
      if Running inspected then (engineStop containerName 10 e, Resolved)
      else (e, Resolved)
  | None => (e, Rejected)
  end.

End Docker.

(** ** The status projection and the status stream (routes/status.ts) *)

Module StatusRoute.

Import Docker.

(** ["up" | "down" | "unknown"]; [unknown3] is ['unknown'], a name the
    container state already has. *)
Inductive Link3 := up | down | unknown3.

(** [Status] and the fields of [Config] the route reads (lib/types.ts). *)
Record Status :=
  { pipeline : State; containerName : string; vpn : Link3; tor : Link3;
    lastRunAt : option jsstring; cleanJobs : option Number; version : string }.

Record Config :=
  { pipelineContainer : string; gluetunContainer : string;
    torContainer : string; appVersion : string }.

(** The [for (const envVar of env)] loop: the first entry that starts with
    [CLEAN_JOBS=] decides, whatever follows it. *)
Fixpoint scanEnv (env : list jsstring) : option Number :=
  match env with
  | [] => None
  | envVar :: rest =>
      if startsWith envVar (js "CLEAN_JOBS=") then
        match nth_error (split 61%N envVar) 1 with
        | Some text => parseInt text
        | None => None
        end
      else scanEnv rest
  end.

(** [getCurrentStatus()], against one state of the engine. *)
Definition getCurrentStatus (config : Config) (e : Engine) : Status :=
  let pipelineInfo := getContainerInfo e (pipelineContainer config) in
  let vpnInfo := getContainerInfo e (gluetunContainer config) in
  let torInfo := getContainerInfo e (torContainer config) in
  let vpnStatus :=
    match state vpnInfo with
    | running =>
        match health vpnInfo with
        | Some healthy | Some none => up
        | _ => down
        end
    | stopped => down
    | unknown => unknown3
    end in
  let torStatus :=
    match state torInfo with
    | running => up
    | stopped => down
    | unknown => unknown3
    end in
  let lastRunAt :=
    if (match state pipelineInfo with running => true | _ => false end)
       && truthy_opt (startedAt pipelineInfo)
    then startedAt pipelineInfo
    else if truthy_opt (finishedAt pipelineInfo) then finishedAt pipelineInfo
    else None in
  let cleanJobs :=
    match inspect e (pipelineContainer config) with
    | Some inspectData =>
        scanEnv (match Env inspectData with Some env => env | None => [] end)
    | None => None
    end in
  {| pipeline := state pipelineInfo;
     containerName := pipelineContainer config;
     vpn := vpnStatus; tor := torStatus;
     lastRunAt := lastRunAt; cleanJobs := cleanJobs;
     version := appVersion config |}.

(** *** The stream handler's change detection

[lastStatus] is a variable of [createStatusRouter], one per router;
every stream request runs the handler against it. A connection is
named by a number; [pushed] holds what [sendData] wrote to each, oldest
first. *)
Record Router :=
  { lastStatus : option Status; pushed : gmap nat (list Status) }.

#[global] Instance State_eq_dec : EqDecision State.
Proof. solve_decision. Defined.
#[global] Instance Number_eq_dec : EqDecision Number.
Proof. solve_decision. Defined.
#[global] Instance Link3_eq_dec : EqDecision Link3.
Proof. solve_decision. Defined.
#[global] Instance Status_eq_dec : EqDecision Status.
Proof. solve_decision. Defined.

(** [JSON.stringify(a) !== JSON.stringify(b)]: the keys are written in one
    fixed order and absent fields are left out, so two statuses print alike
    exactly when they are equal. *)
Definition differs (a b : Status) : bool := negb (bool_decide (a = b)).

(** [connection.sendData(s)] on the open connection [c]. *)
Definition sendTo (c : nat) (s : Status) (r : Router) : Router :=
  {| lastStatus := lastStatus r;
     pushed := <[c := (match pushed r !! c with Some l => l | None => [] end) ++ [s]]>
                 (pushed r) |}.

Definition setLast (s : Status) (r : Router) : Router :=
  {| lastStatus := Some s; pushed := pushed r |}.

(** The start of a stream request: the initial status is sent and
    remembered. *)
Definition openStream (c : nat) (initialStatus : Status) (r : Router) : Router :=
  setLast initialStatus (sendTo c initialStatus r).

(** What both the engine-event handler and the 5-second interval of
    connection [c] do once [getCurrentStatus()] has resolved to
    [currentStatus]. *)
Definition recompute (c : nat) (currentStatus : Status) (r : Router) : Router :=
  match lastStatus r with
  | Some last =>
      if differs currentStatus last
      then setLast currentStatus (sendTo c currentStatus r)
      else r
  | None => setLast currentStatus (sendTo c currentStatus r)
  end.

Inductive StreamEvent :=
| Open (c : nat) (s : Status)
| Recompute (c : nat) (s : Status).

Definition streamStep (r : Router) (ev : StreamEvent) : Router :=
  match ev with
  | Open c s => openStream c s r
  | Recompute c s => recompute c s r
  end.

Definition streamRun (evs : list StreamEvent) (r : Router) : Router :=
  fold_left streamStep evs r.

Definition newRouter : Router := {| lastStatus := None; pushed := ∅ |}.

(** What connection [c] has received. *)
Definition received (c : nat) (r : Router) : list Status :=
  match pushed r !! c with Some l => l | None => [] end.

End StatusRoute.

(** ** Push connections: [SSEConnection] (lib/sse.ts) *)

Module Sse.

(** The response object, as far as the connection uses it: [destroyed],
    whether [end()] was called, whether [write] throws, and what was
    written. *)
Record Response :=
  { destroyed : bool; ended : bool; writeThrows : bool;
    written : list jsstring }.

(** The fields of an [SSEConnection], and around it the runtime's timers:
    the interval handles still scheduled and the handles passed to
    [clearInterval], in order. *)
Record Connection :=
  { res : Response; heartbeatInterval : option nat; isClosed : bool;
    scheduled : gset nat; cleared : list nat }.

Definition withRes (r : Response) (c : Connection) : Connection :=
  {| res := r; heartbeatInterval := heartbeatInterval c;
     isClosed := isClosed c; scheduled := scheduled c; cleared := cleared c |}.

(** [res.write(chunk)]: [None] when it throws. *)
Definition write (chunk : jsstring) (r : Response) : option Response :=
  if writeThrows r then None
  else Some {| destroyed := destroyed r; ended := ended r;
               writeThrows := writeThrows r;
               written := written r ++ [chunk] |}.

(** [res.end()] *)
Definition endRes (r : Response) : Response :=
  {| destroyed := destroyed r; ended := true; writeThrows := writeThrows r;
     written := written r |}.

(** [clearInterval(h)] *)
Definition clearInterval (h : nat) (c : Connection) : Connection :=
  {| res := res c; heartbeatInterval := heartbeatInterval c;
     isClosed := isClosed c; scheduled := scheduled c ∖ {[h]};
     cleared := cleared c ++ [h] |}.

(** [close()] *)
Definition close (c : Connection) : Connection :=
  if isClosed c then c
  else
    let c := {| res := res c; heartbeatInterval := heartbeatInterval c;
                isClosed := true; scheduled := scheduled c;
                cleared := cleared c |} in
    let c := match heartbeatInterval c with
             | Some h => clearInterval h c
             | None => c
             end in
    if negb (destroyed (res c)) then withRes (endRes (res c)) c else c.

(** [sendData(data)]; [json] is [JSON.stringify(data)]. *)
Definition sendData (json : jsstring) (c : Connection) : Connection :=
  if isClosed c then c
  else match write (js "data: " ++ json ++ [LF; LF]) (res c) with
       | Some r => withRes r c
       | None => close c
       end.

(** [sendEvent(event, data)] *)
Definition sendEvent (event json : jsstring) (c : Connection) : Connection :=
  if isClosed c then c
  else match write (js "event: " ++ event ++ [LF]) (res c) with
       | Some r =>
           match write (js "data: " ++ json ++ [LF; LF]) r with
           | Some r' => withRes r' c
           | None => close (withRes r c)
           end
       | None => close c
       end.

(** [sendError(message)]; [json] is [JSON.stringify({ message })]. *)
Definition sendError (json : jsstring) (c : Connection) : Connection :=
  sendEvent (js "error") json c.

(** The callback given to [setInterval] in [startHeartbeat]; [json] is
    [JSON.stringify({ timestamp: new Date().toISOString() })]. *)
Definition heartbeat (json : jsstring) (c : Connection) : Connection :=
  if negb (isClosed c) then sendEvent (js "ping") json c else c.

(** The runtime firing interval [h]: its callback runs when [h] is still
    scheduled. *)
Definition fire (h : nat) (json : jsstring) (c : Connection) : Connection :=
  if bool_decide (h ∈ scheduled c) && bool_decide (heartbeatInterval c = Some h)
  then heartbeat json c else c.

(** [isClosed_()] *)
Definition isClosed_ (c : Connection) : bool :=
  isClosed c || destroyed (res c).

(** [new SSEConnection(res, id)]: [setupConnection] writes the retry
    instruction, [startHeartbeat] schedules the interval, for which the
    runtime hands out the handle [h]. [None]: the write threw, and so did
    the constructor. (The [close] and [error] listeners registered on
    [res] call [close()]: they are the [Close] steps of a run.) *)
Definition construct (r : Response) (h : nat) (timers : gset nat)
    : option Connection :=
  match write (js "retry: 3000" ++ [LF; LF]) r with
  | Some r' =>
      Some {| res := r'; heartbeatInterval := Some h; isClosed := false;
              scheduled := timers ∪ {[h]}; cleared := [] |}
  | None => None
  end.

(** What can happen to a connection, and a run of such steps. *)
Inductive Step :=
| Close
| SendData (json : jsstring)
| SendEvent (event json : jsstring)
| SendError (json : jsstring)
| Heartbeat (json : jsstring)         (* the callback runs *)
| Fire (h : nat) (json : jsstring).   (* the runtime fires a handle *)

Definition step (c : Connection) (s : Step) : Connection :=
  match s with
  | Close => close c
  | SendData j => sendData j c
  | SendEvent e j => sendEvent e j c
  | SendError j => sendError j c
  | Heartbeat j => heartbeat j c
  | Fire h j => fire h j c
  end.

Definition run (steps : list Step) (c : Connection) : Connection :=
  fold_left step steps c.

End Sse.

(** * Facts about buffers *)

Section BufFacts.

Lemma blen_nonneg b : 0 <= blen b.
Proof. unfold blen. lia. Qed.

Lemma blen_app b c : blen (b ++ c) = blen b + blen c.
Proof. unfold blen. rewrite length_app. lia. Qed.

Lemma blen_drop b p : 0 <= p <= blen b -> blen (subarrayFrom b p) = blen b - p.
Proof. unfold blen, subarrayFrom. rewrite length_drop. lia. Qed.

Lemma byteAt_nonneg b i : 0 <= byteAt b i < 256.
Proof.
  unfold byteAt. pose proof (Byte.to_N_bounded (nth (Z.to_nat i) b x00)). lia.
Qed.

Lemma byteAt_app_l b c i : 0 <= i < blen b -> byteAt (b ++ c) i = byteAt b i.
Proof.
  unfold byteAt, blen. intros H. rewrite app_nth1 by lia. reflexivity.
Qed.

Lemma byteAt_drop b p i :
  0 <= p -> 0 <= i -> byteAt (subarrayFrom b p) i = byteAt b (p + i).
Proof.
  unfold byteAt, subarrayFrom. intros Hp Hi.
  rewrite nth_skipn. f_equal. f_equal. f_equal. lia.
Qed.

Lemma readUInt32BE_nonneg b off : 0 <= readUInt32BE b off.
Proof.
  unfold readUInt32BE.
  pose proof (byteAt_nonneg b off). pose proof (byteAt_nonneg b (off + 1)).
  pose proof (byteAt_nonneg b (off + 2)). pose proof (byteAt_nonneg b (off + 3)).
  lia.
Qed.

Lemma readUInt32BE_app_l b c off :
  0 <= off -> off + 4 <= blen b ->
  readUInt32BE (b ++ c) off = readUInt32BE b off.
Proof.
  intros H0 H4. unfold readUInt32BE.
  rewrite !byteAt_app_l by lia. reflexivity.
Qed.

Lemma readUInt32BE_drop b p off :
  0 <= p -> 0 <= off ->
  readUInt32BE (subarrayFrom b p) off = readUInt32BE b (p + off).
Proof.
  intros Hp Ho. unfold readUInt32BE.
  rewrite !byteAt_drop by lia. rewrite !Z.add_assoc. reflexivity.
Qed.

Lemma subarray_app_l b c s e :
  0 <= s -> e <= blen b -> subarray (b ++ c) s e = subarray b s e.
Proof.
  unfold subarray, blen. intros Hs He.
  destruct (decide (s <= e)) as [Hse|Hse].
  - rewrite drop_app_le by lia. rewrite take_app_le; [reflexivity|].
    rewrite length_drop. lia.
  - replace (Z.to_nat e - Z.to_nat s)%nat with 0%nat by lia. reflexivity.
Qed.

Lemma subarray_drop b p s e :
  0 <= p -> 0 <= s ->
  subarray (subarrayFrom b p) s e = subarray b (p + s) (p + e).
Proof.
  unfold subarray, subarrayFrom. intros Hp Hs.
  rewrite drop_drop. f_equal; [|f_equal]; lia.
Qed.

Lemma subarrayFrom_app_l b c p :
  0 <= p <= blen b -> subarrayFrom (b ++ c) p = subarrayFrom b p ++ c.
Proof.
  unfold subarrayFrom, blen. intros H. rewrite drop_app_le by lia. reflexivity.
Qed.

Lemma subarrayFrom_add b p q :
  0 <= p -> 0 <= q ->
  subarrayFrom (subarrayFrom b p) q = subarrayFrom b (p + q).
Proof.
  unfold subarrayFrom. intros Hp Hq. rewrite drop_drop. f_equal. lia.
Qed.

Lemma subarrayFrom_0 b : subarrayFrom b 0 = b.
Proof. reflexivity. Qed.

Lemma subarrayFrom_all b : subarrayFrom b (blen b) = [].
Proof. unfold subarrayFrom, blen. rewrite Nat2Z.id. apply drop_all. Qed.

End BufFacts.

(** * Facts about the log framer *)

(** The loop, one call and a run of calls with the entry constructor
    abstracted: [whileFrames], [processLogData] and [feed] are the instance
    [entryOf]; the instance that pairs a line with its level gives the
    lines an execution reads, whatever the clock. *)

Section Generic.

Variable utf8 : list byte -> jsstring.
Context {X : Type}.

Definition frameG (mk : Level -> jsstring -> X) (buffer : list byte)
    (processed size : Z) : list X :=
  map (mk (levelOf (sourceOf (byteAt buffer processed))))
      (linesOf (utf8 (subarray buffer (processed + 8) (processed + 8 + size)))).

Fixpoint whileG (mk : Level -> jsstring -> X) (fuel : nat)
    (buffer : list byte) (processed : Z) : Z * list X :=
  match fuel with
  | O => (processed, [])
  | S fuel' =>
      if processed <? blen buffer then
        if blen buffer - processed <? 8 then (processed, [])
        else
          let size := readUInt32BE buffer (processed + 4) in
          if blen buffer - processed <? 8 + size then (processed, [])
          else
            let sent := frameG mk buffer processed size in
            let '(p, out) := whileG mk fuel' buffer (processed + (8 + size)) in
            (p, sent ++ out)
      else (processed, [])
  end.

Definition processG (mk : Level -> jsstring -> X) (buffer chunk : list byte)
    : list byte * list X :=
  let buffer := buffer ++ chunk in
  let '(processed, out) := whileG mk (length buffer) buffer 0 in
  (if 0 <? processed then subarrayFrom buffer processed else buffer, out).

Fixpoint feedG (mk : jsstring -> Level -> jsstring -> X)
    (calls : list (jsstring * list byte)) (buffer : list byte)
    : list byte * list X :=
  match calls with
  | [] => (buffer, [])
  | (now, chunk) :: rest =>
      let '(buffer', out) := processG (mk now) buffer chunk in
      let '(buffer'', out') := feedG mk rest buffer' in
      (buffer'', out ++ out')
  end.

Variable mk : Level -> jsstring -> X.

Lemma frameG_app_l b c p size :
  0 <= p -> 0 <= size -> p + 8 + size <= blen b ->
  frameG mk (b ++ c) p size = frameG mk b p size.
Proof.
  intros Hp Hs Hl. unfold frameG.
  rewrite byteAt_app_l by lia. rewrite subarray_app_l by lia. reflexivity.
Qed.

Lemma frameG_drop b p q size :
  0 <= p -> 0 <= q ->
  frameG mk (subarrayFrom b p) q size
  = frameG mk b (p + q) size.
Proof.
  intros Hp Hq. unfold frameG.
  rewrite byteAt_drop by lia. rewrite subarray_drop by lia.
  rewrite !Z.add_assoc. reflexivity.
Qed.

(** The loop never moves [processed] backwards, nor past the end of a
    buffer it started inside. *)
Lemma whileG_range fuel b p :
  0 <= p <= blen b ->
  p <= (whileG mk fuel b p).1 <= blen b.
Proof.
  revert p. induction fuel as [|fuel IH]; intros p Hp; simpl; [lia|].
  destruct (p <? blen b) eqn:E1; simpl; [|lia].
  destruct (blen b - p <? 8) eqn:E2; simpl; [lia|].
  pose proof (readUInt32BE_nonneg b (p + 4)) as Hsz.
  destruct (blen b - p <? 8 + readUInt32BE b (p + 4)) eqn:E3; simpl; [lia|].
  specialize (IH (p + (8 + readUInt32BE b (p + 4)))).
  destruct (whileG mk fuel b (p + (8 + readUInt32BE b (p + 4))))
    as [q out]. simpl in *. lia.
Qed.

(** Fuel: once it covers the bytes left, more changes nothing. *)
Lemma whileG_fuel f1 f2 b p :
  0 <= p ->
  blen b - p <= Z.of_nat f1 -> blen b - p <= Z.of_nat f2 ->
  whileG mk f1 b p = whileG mk f2 b p.
Proof.
  revert f2 p. induction f1 as [|f1 IH]; intros f2 p Hp H1 H2.
  - destruct f2 as [|f2]; [reflexivity|]. simpl.
    destruct (p <? blen b) eqn:E; [lia|reflexivity].
  - destruct f2 as [|f2].
    + simpl. destruct (p <? blen b) eqn:E; [lia|reflexivity].
    + simpl. destruct (p <? blen b) eqn:E1; [|reflexivity].
      destruct (blen b - p <? 8) eqn:E2; [reflexivity|].
      pose proof (readUInt32BE_nonneg b (p + 4)) as Hsz.
      destruct (blen b - p <? 8 + readUInt32BE b (p + 4)) eqn:E3;
        [reflexivity|].
      rewrite (IH f2) by lia. reflexivity.
Qed.

(** The loop started at [p] is the loop started at 0 on the bytes from
    [p] on. *)
Lemma whileG_shift fuel b p :
  0 <= p ->
  whileG mk fuel b p
  = let '(q, out) := whileG mk fuel (subarrayFrom b p) 0 in
    (p + q, out).
Proof.
  revert b p. induction fuel as [|fuel IH]; intros b p Hp; simpl.
  - f_equal. lia.
  - destruct (decide (p <= blen b)) as [Hle|Hgt].
    + rewrite blen_drop by lia.
      replace (0 <? blen b - p) with (p <? blen b) by lia.
      destruct (p <? blen b) eqn:E1; [|f_equal; lia].
      replace (blen b - p - 0) with (blen b - p) by lia.
      destruct (blen b - p <? 8) eqn:E2; [f_equal; lia|].
      rewrite readUInt32BE_drop by lia.
      replace (0 + 4) with 4 by lia.
      pose proof (readUInt32BE_nonneg b (p + 4)) as Hsz.
      destruct (blen b - p <? 8 + readUInt32BE b (p + 4)) eqn:E3;
        [f_equal; lia|].
      rewrite frameG_drop by lia.
      replace (p + 0) with p by lia.
      rewrite (IH b (p + (8 + readUInt32BE b (p + 4)))) by lia.
      rewrite (IH (subarrayFrom b p) (0 + (8 + readUInt32BE b (p + 4)))) by lia.
      rewrite subarrayFrom_add by lia.
      replace (p + (0 + (8 + readUInt32BE b (p + 4))))
        with (p + (8 + readUInt32BE b (p + 4))) by lia.
      destruct (whileG mk fuel
                  (subarrayFrom b (p + (8 + readUInt32BE b (p + 4)))) 0)
        as [q out].
      f_equal. lia.
    + replace (p <? blen b) with false by lia.
      assert (Hnil : subarrayFrom b p = []).
      { unfold subarrayFrom, blen in *. apply drop_ge. lia. }
      rewrite Hnil. simpl. f_equal. lia.
Qed.

(** Bytes appended to the buffer do not change what the loop does up to
    the point where it stopped without them; it goes on from there. *)
Lemma whileG_app f F b c p q out :
  0 <= p <= blen b ->
  blen b - p <= Z.of_nat f -> blen (b ++ c) - p <= Z.of_nat F ->
  whileG mk f b p = (q, out) ->
  whileG mk F (b ++ c) p
  = let '(q', out') := whileG mk F (b ++ c) q in
    (q', out ++ out').
Proof.
  revert F p q out. induction f as [|f IH]; intros F p q out Hp Hf HF Hrun.
  - cbn [whileG] in Hrun. inversion Hrun; subst.
    destruct (whileG _ _ _ _); reflexivity.
  - pose proof (blen_nonneg c) as Hc. rewrite blen_app in HF.
    cbn [whileG] in Hrun.
    destruct (p <? blen b) eqn:E1; cycle 1.
    { inversion Hrun; subst. destruct (whileG _ _ _ _); reflexivity. }
    destruct (blen b - p <? 8) eqn:E2.
    { inversion Hrun; subst. destruct (whileG _ _ _ _); reflexivity. }
    pose proof (readUInt32BE_nonneg b (p + 4)) as Hsz.
    set (size := readUInt32BE b (p + 4)) in *.
    destruct (blen b - p <? 8 + size) eqn:E3.
    { inversion Hrun; subst. destruct (whileG _ _ _ _); reflexivity. }
    pose proof (whileG_range f b (p + (8 + size))) as Hr.
    destruct (whileG mk f b (p + (8 + size))) as [q0 out0] eqn:Erec.
    inversion Hrun; subst q out. simpl in Hr.
    destruct F as [|F]; [lia|].
    rewrite (whileG_fuel (S F) F (b ++ c) q0)
      by (rewrite ?blen_app; lia).
    cbn [whileG]. rewrite blen_app.
    replace (p <? blen b + blen c) with true by lia.
    replace (blen b + blen c - p <? 8) with false by lia.
    rewrite (readUInt32BE_app_l b c (p + 4)) by lia. fold size.
    replace (blen b + blen c - p <? 8 + size) with false by lia.
    rewrite frameG_app_l by lia.
    rewrite (IH F (p + (8 + size)) q0 out0 ltac:(lia) ltac:(lia)
               ltac:(rewrite blen_app; lia) Erec).
    destruct (whileG mk F (b ++ c) q0) as [q' out'].
    rewrite app_assoc. reflexivity.
Qed.

Lemma whileG_end fuel b p : blen b <= p -> whileG mk fuel b p = (p, []).
Proof.
  intros H. destruct fuel; [reflexivity|]. simpl.
  replace (p <? blen b) with false by lia. reflexivity.
Qed.

(** One call depends on the old buffer and the chunk only through their
    concatenation. *)
Lemma processG_whole b c : processG mk b c = processG mk [] (b ++ c).
Proof. reflexivity. Qed.

Lemma processG_eq b q out :
  whileG mk (length b) b 0 = (q, out) ->
  processG mk [] b = (subarrayFrom b q, out).
Proof.
  intros E. unfold processG. rewrite app_nil_l, E.
  pose proof (whileG_range (length b) b 0) as Hr. rewrite E in Hr.
  pose proof (blen_nonneg b). simpl in Hr.
  destruct (0 <? q) eqn:Eq; [reflexivity|].
  replace q with 0 by lia. reflexivity.
Qed.

(** Feeding [b ++ c] at once is feeding [b], then [c] to what was left. *)
Lemma processG_app b c :
  processG mk [] (b ++ c)
  = let '(r, o) := processG mk [] b in
    let '(r', o') := processG mk r c in
    (r', o ++ o').
Proof.
  destruct (whileG mk (length b) b 0) as [q out] eqn:E1.
  pose proof (whileG_range (length b) b 0) as Hr. rewrite E1 in Hr.
  pose proof (blen_nonneg b) as Hb. pose proof (blen_nonneg c) as Hc.
  simpl in Hr. specialize (Hr ltac:(lia)).
  rewrite (processG_eq b q out E1).
  rewrite (processG_whole (subarrayFrom b q) c).
  set (r := subarrayFrom b q).
  destruct (whileG mk (length (r ++ c)) (r ++ c) 0) as [q2 out2] eqn:E2.
  pose proof (whileG_range (length (r ++ c)) (r ++ c) 0) as Hr2.
  rewrite E2 in Hr2. simpl in Hr2.
  specialize (Hr2 ltac:(pose proof (blen_nonneg (r ++ c)); lia)).
  rewrite (processG_eq (r ++ c) q2 out2 E2).
  assert (Hrc : subarrayFrom (b ++ c) q = r ++ c)
    by (apply subarrayFrom_app_l; lia).
  assert (Hlen : blen (r ++ c) = blen b + blen c - q).
  { rewrite blen_app. unfold r. rewrite blen_drop by lia. lia. }
  rewrite (processG_eq (b ++ c) (q + q2) (out ++ out2)).
  - rewrite <- subarrayFrom_add by lia. rewrite Hrc. reflexivity.
  - rewrite (whileG_app (length b) (length (b ++ c)) b c 0 q out)
      by (unfold blen in *; rewrite ?length_app in *; lia || assumption).
    rewrite (whileG_shift (length (b ++ c)) (b ++ c) q) by lia.
    rewrite Hrc.
    rewrite (whileG_fuel (length (b ++ c)) (length (r ++ c)) (r ++ c) 0);
      [|lia| |].
    + rewrite E2. reflexivity.
    + rewrite Hlen. unfold blen. rewrite length_app. lia.
    + unfold blen. lia.
Qed.

(** A run of calls that all build entries the same way amounts to one
    call on the concatenation of the chunks. *)
Lemma feedG_whole calls x :
  processG mk [] (x ++ concat (map snd calls))
  = let '(r, o) := processG mk [] x in
    let '(r', o') := feedG (fun _ => mk) calls r in
    (r', o ++ o').
Proof.
  revert x. induction calls as [|[now c] calls IH]; intros x.
  - simpl. rewrite app_nil_r. destruct (processG mk [] x) as [r o].
    rewrite app_nil_r. reflexivity.
  - cbn [map snd concat feedG]. rewrite app_assoc, IH.
    rewrite (processG_app x c).
    destruct (processG mk [] x) as [r o].
    destruct (processG mk r c) as [r1 o1].
    destruct (feedG (fun _ => mk) calls r1) as [r2 o2].
    rewrite app_assoc. reflexivity.
Qed.

End Generic.

(** *** Encoded frames *)

Lemma byteOfZ_val z : Z.of_N (Byte.to_N (byteOfZ z)) = z mod 256.
Proof.
  unfold byteOfZ. pose proof (Z.mod_pos_bound z 256 ltac:(lia)) as Hm.
  destruct (Byte.of_N (Z.to_N (z mod 256))) as [b|] eqn:E.
  - apply Byte.to_of_N in E. rewrite E. lia.
  - apply Byte.of_N_None_iff in E. lia.
Qed.

Lemma be32_read n :
  0 <= n < 2 ^ 32 ->
  (n / 2 ^ 24 mod 256) * 2 ^ 24 + (n / 2 ^ 16 mod 256) * 2 ^ 16
  + (n / 2 ^ 8 mod 256) * 2 ^ 8 + n mod 256 = n.
Proof.
  intros H. change (2 ^ 24) with 16777216. change (2 ^ 16) with 65536.
  change (2 ^ 8) with 256. change (2 ^ 32) with 4294967296 in H.
  Z.div_mod_to_equations. lia.
Qed.

Lemma readUInt32BE_encode f :
  frameFits f -> readUInt32BE (encode f) 4 = blen (payload f).
Proof.
  intros Hfit. unfold frameFits in Hfit.
  unfold readUInt32BE, encode, header, be32.
  change (byteAt ?l 4) with (Z.of_N (Byte.to_N (byteOfZ (blen (payload f) / 2 ^ 24)))).
  change (byteAt ?l (4 + 1)) with (Z.of_N (Byte.to_N (byteOfZ (blen (payload f) / 2 ^ 16)))).
  change (byteAt ?l (4 + 2)) with (Z.of_N (Byte.to_N (byteOfZ (blen (payload f) / 2 ^ 8)))).
  change (byteAt ?l (4 + 3)) with (Z.of_N (Byte.to_N (byteOfZ (blen (payload f))))).
  rewrite !byteOfZ_val. apply be32_read.
  pose proof (blen_nonneg (payload f)). lia.
Qed.

Lemma blen_encode f : blen (encode f) = 8 + blen (payload f).
Proof. unfold encode, header, be32. rewrite blen_app. reflexivity. Qed.

Lemma subarray_encode f :
  subarray (encode f) 8 (8 + blen (payload f)) = payload f.
Proof.
  unfold subarray.
  replace (Z.to_nat (8 + blen (payload f)) - Z.to_nat 8)%nat
    with (length (payload f)) by (unfold blen; lia).
  change (drop (Z.to_nat 8) (encode f)) with (payload f).
  apply take_ge. lia.
Qed.

Section Frames.

Variable utf8 : list byte -> jsstring.
Context {X : Type}.
Variable mk : Level -> jsstring -> X.

(** What one frame contributes, for an arbitrary entry constructor. *)
Definition ofFrameG (f : Frame) : list X :=
  map (mk (levelOf (sourceOf (Z.of_N (Byte.to_N (tag f))))))
      (linesOf (utf8 (payload f))).

Lemma processG_encode f :
  frameFits f -> processG utf8 mk [] (encode f) = ([], ofFrameG f).
Proof.
  intros Hfit. pose proof (blen_nonneg (payload f)) as Hp.
  pose proof (blen_encode f) as Hlen.
  rewrite (processG_eq utf8 mk (encode f) (blen (encode f)) (ofFrameG f)).
  - rewrite subarrayFrom_all. reflexivity.
  - destruct (length (encode f)) as [|n] eqn:En;
      [unfold blen in Hlen; lia|].
    cbn [whileG].
    replace (0 <? blen (encode f)) with true by lia.
    replace (blen (encode f) - 0 <? 8) with false by lia.
    change (0 + 4) with 4. rewrite (readUInt32BE_encode f Hfit).
    replace (blen (encode f) - 0 <? 8 + blen (payload f)) with false by lia.
    rewrite whileG_end by lia. rewrite app_nil_r. f_equal; [lia|].
    unfold frameG, ofFrameG. change (0 + 8) with 8.
    rewrite subarray_encode. reflexivity.
Qed.

Lemma processG_encodeFrames fs :
  Forall frameFits fs ->
  processG utf8 mk [] (encodeFrames fs) = ([], concat (map ofFrameG fs)).
Proof.
  induction 1 as [|f fs Hf Hfs IH]; [reflexivity|].
  unfold encodeFrames in *. cbn [map concat].
  rewrite processG_app, (processG_encode f Hf), IH. reflexivity.
Qed.

End Frames.

(** *** The framer of routes/logs.ts as an instance *)

Section FramerFacts.

Variable utf8 : list byte -> jsstring.

Lemma whileFrames_G fuel now b p :
  whileFrames utf8 fuel now b p = whileG utf8 (entryOf now) fuel b p.
Proof.
  revert p. induction fuel as [|fuel IH]; intros p; [reflexivity|].
  cbn [whileFrames whileG]. rewrite IH. reflexivity.
Qed.

(** The fuel [processLogData] gives the loop is enough: more changes
    nothing. *)
Lemma whileFrames_fuel_enough now b k :
  whileFrames utf8 (length b + k) now b 0 = whileFrames utf8 (length b) now b 0.
Proof.
  rewrite !whileFrames_G. apply whileG_fuel; unfold blen; lia.
Qed.

Lemma processLogData_G now b c :
  processLogData utf8 now b c = processG utf8 (entryOf now) b c.
Proof. unfold processLogData, processG. rewrite whileFrames_G. reflexivity. Qed.

Lemma feed_G calls b : feed utf8 calls b = feedG utf8 entryOf calls b.
Proof.
  revert b. induction calls as [|[now c] calls IH]; intros b; [reflexivity|].
  cbn [feed feedG]. rewrite processLogData_G.
  destruct (processG utf8 (entryOf now) b c) as [b' out]. rewrite IH.
  reflexivity.
Qed.

(** Building entries and mapping [g] over them is building with [g]
    composed on the constructor. *)
Lemma whileG_map {X Y} (g : X -> Y) (mk : Level -> jsstring -> X) fuel b p :
  whileG utf8 (fun lv l => g (mk lv l)) fuel b p
  = ((whileG utf8 mk fuel b p).1, map g (whileG utf8 mk fuel b p).2).
Proof.
  revert p. induction fuel as [|fuel IH]; intros p; [reflexivity|].
  cbn [whileG].
  destruct (p <? blen b); [|reflexivity].
  destruct (blen b - p <? 8); [reflexivity|].
  destruct (blen b - p <? 8 + readUInt32BE b (p + 4)); [reflexivity|].
  rewrite IH.
  destruct (whileG utf8 mk fuel b (p + (8 + readUInt32BE b (p + 4)))) as [q out].
  cbn [fst snd]. unfold frameG. rewrite map_app, map_map. reflexivity.
Qed.

Lemma processG_map {X Y} (g : X -> Y) (mk : Level -> jsstring -> X) b c :
  processG utf8 (fun lv l => g (mk lv l)) b c
  = ((processG utf8 mk b c).1, map g (processG utf8 mk b c).2).
Proof.
  unfold processG. rewrite whileG_map.
  destruct (whileG utf8 mk (length (b ++ c)) (b ++ c) 0) as [q out].
  reflexivity.
Qed.

Lemma feedG_map {X Y} (g : X -> Y) (mk : jsstring -> Level -> jsstring -> X)
    calls b :
  feedG utf8 (fun n lv l => g (mk n lv l)) calls b
  = ((feedG utf8 mk calls b).1, map g (feedG utf8 mk calls b).2).
Proof.
  revert b. induction calls as [|[now c] calls IH]; intros b; [reflexivity|].
  cbn [feedG]. rewrite (processG_map g (mk now)).
  destruct (processG utf8 (mk now) b c) as [b' out]. cbn [fst snd].
  rewrite IH. destruct (feedG utf8 mk calls b') as [b'' out'].
  cbn [fst snd]. rewrite map_app. reflexivity.
Qed.

(** The lines a run of calls reads, each with the clock reading of the
    call that read it. *)
Definition trace (calls : list (jsstring * list byte)) (b : list byte)
    : list byte * list (jsstring * (Level * jsstring)) :=
  feedG utf8 (fun n lv l => (n, (lv, l))) calls b.

Lemma trace_clocks calls b :
  Forall (fun t => In t.1 (map fst calls)) (trace calls b).2.
Proof.
  unfold trace. revert b.
  induction calls as [|[now c] calls IH]; intros b; [constructor|].
  cbn [feedG].
  rewrite (processG_map (fun x => (now, x)) (fun lv l => (lv, l))).
  destruct (processG utf8 (fun lv l => (lv, l)) b c) as [b' out].
  cbn [fst snd]. specialize (IH b').
  destruct (feedG utf8 _ calls b') as [b'' out']. cbn [fst snd] in *.
  apply Forall_app. split.
  - apply List.Forall_forall. intros t Ht. apply in_map_iff in Ht.
    destruct Ht as (x & <- & _). left. reflexivity.
  - eapply Forall_impl; [exact IH|]. intros t Ht. right. exact Ht.
Qed.

(** The entries of a run, and of the one-chunk run at any clock reading,
    are both read off the trace. *)
Lemma feed_trace calls :
  feed utf8 calls []
  = ((trace calls []).1,
     map (fun t => entryOf t.1 t.2.1 t.2.2) (trace calls []).2).
Proof.
  rewrite feed_G. unfold trace.
  exact (feedG_map (fun t => entryOf t.1 t.2.1 t.2.2)
           (fun n lv l => (n, (lv, l))) calls []).
Qed.

Lemma whole_trace {X} (mk : Level -> jsstring -> X) calls :
  processG utf8 mk [] (concat (map snd calls))
  = ((trace calls []).1, map (fun t => mk t.2.1 t.2.2) (trace calls []).2).
Proof.
  pose proof (feedG_whole utf8 mk calls []) as H.
  rewrite app_nil_l in H. rewrite H. clear H.
  change (processG utf8 mk [] []) with (@nil byte, @nil X).
  cbn iota beta. unfold trace.
  assert (H : feedG utf8 (fun _ => mk) calls []
              = ((trace calls []).1,
                 map (fun t => mk t.2.1 t.2.2) (trace calls []).2))
    by exact (feedG_map
                (fun t : jsstring * (Level * jsstring) => mk t.2.1 t.2.2)
                (fun n lv l => (n, (lv, l))) calls []).
  rewrite H. reflexivity.
Qed.

End FramerFacts.

(** *** The one-shot framer of lib/docker.ts *)

(** A record of [demuxLogs] as the entry [processLogData] sends for the
    same line. *)
Definition asEntry (r : DemuxRecord) : LogEntry :=
  {| ts := timestamp r; line := dline r; level := levelOf (source r) |}.

Lemma ltb_shift a p k : (a <? p + k) = (a - p <? k).
Proof. destruct (Z.ltb_spec a (p + k)), (Z.ltb_spec (a - p) k); lia. Qed.

Lemma asEntry_demuxLine now src l :
  asEntry (demuxLine now src l) = entryOf now (levelOf src) l.
Proof.
  unfold demuxLine, entryOf. destruct (matchTimestamp l) as [[t r]|]; reflexivity.
Qed.

Lemma demuxLoop_whileFrames utf8 fuel now b p :
  map asEntry (demuxLoop utf8 fuel now b p) = (whileFrames utf8 fuel now b p).2.
Proof.
  revert p. induction fuel as [|fuel IH]; intros p; [reflexivity|].
  cbn [demuxLoop whileFrames].
  destruct (p <? blen b); [|reflexivity].
  rewrite ltb_shift. destruct (blen b - p <? 8); [reflexivity|].
  rewrite <- Z.add_assoc, ltb_shift.
  destruct (blen b - p <? 8 + readUInt32BE b (p + 4)); [reflexivity|].
  rewrite map_app, IH, map_map.
  destruct (whileFrames utf8 fuel now b (p + (8 + readUInt32BE b (p + 4))))
    as [q out]. cbn [snd]. f_equal. unfold frameEntries.
  rewrite <- Z.add_assoc. apply map_ext. intros l. apply asEntry_demuxLine.
Qed.

(** X3. The two demultiplexers agree: [demuxLogs] on a buffer gives the
    records [processLogData], started on an empty buffer, sends for it as
    one chunk, the same lines in the same order with the same timestamps,
    [stdout] read as level [info] and [stderr] as [error]. *)
Lemma demuxLogs_processLogData utf8 now b :
  map asEntry (demuxLogs utf8 now b) = (processLogData utf8 now [] b).2.
Proof.
  unfold demuxLogs, processLogData. rewrite app_nil_l, demuxLoop_whileFrames.
  destruct (whileFrames utf8 (length b) now b 0). reflexivity.
Qed.

(** * The log framer: chunk boundaries *)

Lemma textAndStream_clock now now' lv l :
  textAndStream (entryOf now lv l) = textAndStream (entryOf now' lv l).
Proof. unfold entryOf. destruct (matchTimestamp l) as [[t r]|]; reflexivity. Qed.

Lemma entryOf_stamped now now' lv l :
  is_Some (matchTimestamp l) -> entryOf now lv l = entryOf now' lv l.
Proof.
  intros [tr E]. unfold entryOf. rewrite E. destruct tr. reflexivity.
Qed.

(** A line yields an entry exactly when some code unit of it is not white
    space. *)
Lemma trimStart_nil l : trimStart l = [] <-> forallb isWhiteSpace l = true.
Proof.
  induction l as [|c l IH]; simpl; [tauto|].
  destruct (isWhiteSpace c); simpl; [exact IH|]. split; discriminate.
Qed.

Lemma trimEnd_nil l : trimEnd l = [] <-> forallb isWhiteSpace l = true.
Proof.
  induction l as [|c l IH]; simpl; [tauto|].
  destruct (trimEnd l) as [|d t] eqn:E.
  - destruct (isWhiteSpace c); simpl; [tauto|]. split; discriminate.
  - split; [discriminate|]. intros H. apply andb_true_iff in H.
    destruct H as [_ H]. apply IH in H. discriminate.
Qed.

Lemma trimStart_forallb l :
  forallb isWhiteSpace (trimStart l) = forallb isWhiteSpace l.
Proof.
  induction l as [|c l IH]; simpl; [reflexivity|].
  destruct (isWhiteSpace c) eqn:E; simpl; [exact IH|]. rewrite E. reflexivity.
Qed.

Lemma truthy_trim l : truthy (trim l) = negb (forallb isWhiteSpace l).
Proof.
  unfold trim. rewrite <- trimStart_forallb.
  destruct (trimEnd (trimStart l)) as [|c t] eqn:E; simpl.
  - apply trimEnd_nil in E. rewrite E. reflexivity.
  - destruct (forallb isWhiteSpace (trimStart l)) eqn:F; [|reflexivity].
    apply trimEnd_nil in F. congruence.
Qed.

Lemma header_length f : length (header f) = 8%nat.
Proof. reflexivity. Qed.

(** A frame cut short sends nothing and is retained whole. *)
Lemma processG_prefix (utf8 : list byte -> jsstring) {X}
    (mk : Level -> jsstring -> X) f k :
  frameFits f -> (k < length (encode f))%nat ->
  processG utf8 mk [] (take k (encode f)) = (take k (encode f), []).
Proof.
  intros Hfit Hk. set (b := take k (encode f)).
  assert (Hb : blen b = Z.of_nat k)
    by (unfold blen, b; rewrite length_take; lia).
  pose proof (blen_encode f) as He. pose proof (blen_nonneg (payload f)) as Hp.
  assert (Hkz : Z.of_nat k < 8 + blen (payload f)) by (unfold blen in *; lia).
  rewrite (processG_eq utf8 mk b 0 []); [reflexivity|].
  destruct (length b) as [|n] eqn:En; [reflexivity|].
  cbn [whileG].
  destruct (0 <? blen b); [|reflexivity].
  destruct (blen b - 0 <? 8) eqn:E8; [reflexivity|].
  assert (Hread : readUInt32BE b (0 + 4) = blen (payload f)).
  { rewrite <- (readUInt32BE_encode f Hfit).
    rewrite <- (take_drop k (encode f)) at 1. fold b. symmetry.
    apply readUInt32BE_app_l; lia. }
  rewrite Hread.
  replace (blen b - 0 <? 8 + blen (payload f)) with true by lia.
  reflexivity.
Qed.

(** *** Which call completes a frame *)

Section Completion.

Variable utf8 : list byte -> jsstring.
Context {X : Type}.

Lemma encodeFrames_cons f fs : encodeFrames (f :: fs) = encode f ++ encodeFrames fs.
Proof. reflexivity. Qed.

Lemma encodeFrames_app a b :
  encodeFrames (a ++ b) = encodeFrames a ++ encodeFrames b.
Proof. unfold encodeFrames. rewrite map_app, concat_app. reflexivity. Qed.

Lemma length_encode f : length (encode f) = (8 + length (payload f))%nat.
Proof. unfold encode. rewrite length_app, header_length. reflexivity. Qed.

(** The frames complete within the first [n] bytes of their stream, and
    the others. *)
Fixpoint completeBy (n : nat) (fs : list Frame) : list Frame * list Frame :=
  match fs with
  | [] => ([], [])
  | f :: rest =>
      if (length (encode f) <=? n)%nat then
        let '(done, pending) := completeBy (n - length (encode f)) rest in
        (f :: done, pending)
      else ([], fs)
  end.

Lemma withEnds_shift s fs :
  withEnds s fs = map (fun fe => (fe.1, (s + fe.2)%nat)) (withEnds 0 fs).
Proof.
  revert s. induction fs as [|f fs IH]; intros s; [reflexivity|].
  cbn [withEnds map fst snd]. rewrite (IH (s + _)%nat), (IH (0 + _)%nat).
  rewrite map_map. cbn [fst snd].
  apply f_equal2; [apply f_equal; lia|].
  apply map_ext. intros fe. apply f_equal. lia.
Qed.

Lemma withEnds_fst s fs : map fst (withEnds s fs) = fs.
Proof.
  revert s. induction fs as [|f fs IH]; intros s; [reflexivity|].
  cbn [withEnds map fst]. rewrite IH. reflexivity.
Qed.

Lemma withEnds_app s a b :
  withEnds s (a ++ b)
  = withEnds s a ++ withEnds (s + length (encodeFrames a)) b.
Proof.
  revert s. induction a as [|f a IH]; intros s.
  - cbn. rewrite Nat.add_0_r. reflexivity.
  - cbn [app withEnds]. rewrite IH, encodeFrames_cons, length_app.
    rewrite Nat.add_assoc. reflexivity.
Qed.

Lemma withEnds_range s fs :
  Forall (fun fe => (s < fe.2 <= s + length (encodeFrames fs))%nat)
         (withEnds s fs).
Proof.
  revert s. induction fs as [|f fs IH]; intros s; [constructor|].
  cbn [withEnds]. rewrite encodeFrames_cons, length_app.
  pose proof (length_encode f) as Hf. constructor.
  - cbn [snd]. lia.
  - eapply Forall_impl; [apply IH|]. intros fe H. cbn beta in *. lia.
Qed.

Lemma withEnds_first s f fs :
  Forall (fun fe => (s + length (encode f) <= fe.2)%nat) (withEnds s (f :: fs)).
Proof.
  cbn [withEnds]. constructor; [cbn [snd]; lia|].
  eapply Forall_impl; [apply withEnds_range|]. intros fe H. cbn beta in *. lia.
Qed.

Lemma completeBy_spec n fs :
  (n <= length (encodeFrames fs))%nat ->
  let done := (completeBy n fs).1 in
  let pending := (completeBy n fs).2 in
  fs = done ++ pending
  /\ (length (encodeFrames done) <= n)%nat
  /\ Forall (fun fe => (fe.2 <= n)%nat) (withEnds 0 done)
  /\ match pending with
     | [] => (n - length (encodeFrames done) = 0)%nat
     | f :: _ => (n - length (encodeFrames done) < length (encode f))%nat
     end.
Proof.
  revert n. induction fs as [|f fs IH]; intros n Hn.
  - cbn in *. split; [reflexivity|]. split; [lia|]. split; [constructor|lia].
  - cbn [completeBy]. rewrite encodeFrames_cons, length_app in Hn.
    destruct (length (encode f) <=? n)%nat eqn:E.
    + apply Nat.leb_le in E.
      specialize (IH (n - length (encode f))%nat ltac:(lia)).
      destruct (completeBy (n - length (encode f)) fs) as [done pending].
      cbn [fst snd] in *. destruct IH as (Hfs & Hlen & Hends & Hpend).
      rewrite encodeFrames_cons, length_app.
      split; [rewrite Hfs at 1; reflexivity|]. split; [lia|]. split.
      * cbn [withEnds]. constructor; [cbn [snd]; lia|].
        rewrite withEnds_shift. apply Forall_map.
        eapply Forall_impl; [exact Hends|]. intros fe H.
        cbn beta in *. cbn [snd]. lia.
      * destruct pending; lia.
    + apply Nat.leb_gt in E. cbn [fst snd].
      split; [reflexivity|]. split; [cbn; lia|]. split; [constructor|].
      change (encodeFrames []) with (@nil byte). cbn [length]. lia.
Qed.

Lemma completeBy_fits n fs :
  Forall frameFits fs ->
  Forall frameFits (completeBy n fs).1 /\ Forall frameFits (completeBy n fs).2.
Proof.
  intros H. revert n. induction H as [|f fs Hf Hfs IH]; intros n.
  - split; constructor.
  - cbn [completeBy]. destruct (length (encode f) <=? n)%nat.
    + specialize (IH (n - length (encode f))%nat).
      destruct (completeBy (n - length (encode f)) fs) as [done pending].
      cbn [fst snd] in *. destruct IH. split; [constructor|]; assumption.
    + cbn [fst snd]. split; constructor; assumption.
Qed.

(** One call on the first [n] bytes of a stream of frames sends the
    frames complete by then and retains the bytes of the next one. *)
Lemma processG_take (mk : Level -> jsstring -> X) n fs :
  Forall frameFits fs -> (n <= length (encodeFrames fs))%nat ->
  processG utf8 mk [] (take n (encodeFrames fs))
  = (take (n - length (encodeFrames (completeBy n fs).1))
          (encodeFrames (completeBy n fs).2),
     concat (map (ofFrameG utf8 mk) (completeBy n fs).1)).
Proof.
  intros Hfit. revert n. induction Hfit as [|f fs Hf Hfs IH]; intros n Hn.
  - cbn [completeBy fst snd]. change (encodeFrames []) with (@nil byte).
    rewrite !take_nil. reflexivity.
  - cbn [completeBy]. rewrite encodeFrames_cons in *.
    rewrite length_app in Hn.
    destruct (length (encode f) <=? n)%nat eqn:E.
    + apply Nat.leb_le in E. rewrite take_app_ge by exact E.
      rewrite processG_app, (processG_encode utf8 mk f Hf).
      rewrite (IH (n - length (encode f))%nat) by lia.
      destruct (completeBy (n - length (encode f)) fs) as [done pending].
      cbn [fst snd map concat]. rewrite encodeFrames_cons, length_app.
      f_equal. f_equal. lia.
    + apply Nat.leb_gt in E. cbn [fst snd].
      rewrite take_app_le by lia.
      rewrite (processG_prefix utf8 mk f n Hf E).
      cbn [encodeFrames map concat length]. rewrite Nat.sub_0_r.
      fold (encodeFrames fs). rewrite <- encodeFrames_cons.
      rewrite encodeFrames_cons, take_app_le by lia. reflexivity.
Qed.

Variable mk : jsstring -> Level -> jsstring -> X.

(** A run of calls on a stream of frames, started with the first [h]
    bytes retained: every frame is sent by the call that brings its last
    byte. *)
Lemma feedG_frames calls fs h d :
  Forall frameFits fs ->
  concat (map snd calls) = drop h (encodeFrames fs) ->
  match fs with
  | [] => h = 0%nat
  | f :: _ => (h < length (encode f))%nat
  end ->
  feedG utf8 mk calls (take h (encodeFrames fs))
  = ([], concat (map (fun fe => ofFrameG utf8 (mk (clockAt calls (fe.2 - h) d)) fe.1)
                     (withEnds 0 fs))).
Proof.
  revert fs h. induction calls as [|[now c] calls IH]; intros fs h Hfit Hcat Hh.
  - cbn in Hcat. cbn [feedG].
    destruct fs as [|f fs].
    + subst h. reflexivity.
    + exfalso. apply (f_equal (@length _)) in Hcat.
      rewrite length_drop, encodeFrames_cons, length_app in Hcat.
      cbn [length] in Hcat. lia.
  - cbn [map snd concat] in Hcat. cbn [feedG].
    set (E := encodeFrames fs) in *. set (n := (h + length c)%nat).
    assert (HE : E = (take h E ++ c) ++ concat (map snd calls)).
    { rewrite <- app_assoc, Hcat. symmetry. apply take_drop. }
    assert (Hhle : (h <= length E)%nat).
    { destruct fs as [|f fs]; [lia|]. unfold E.
      rewrite encodeFrames_cons, length_app. lia. }
    assert (Hlen : length (take h E ++ c) = n)
      by (rewrite length_app, length_take; lia).
    assert (Hn : (n <= length E)%nat).
    { rewrite HE at 1. rewrite length_app. lia. }
    assert (Htake : take h E ++ c = take n E).
    { rewrite HE at 2. rewrite <- Hlen. symmetry. apply take_app_length. }
    assert (Hdrop : concat (map snd calls) = drop n E).
    { rewrite HE at 1. rewrite <- Hlen. symmetry. apply drop_app_length. }
    rewrite processG_whole, Htake. unfold E.
    rewrite (processG_take (mk now) n fs Hfit Hn).
    destruct (completeBy_spec n fs Hn) as (Hfs & HL & Hends & Hpend).
    destruct (completeBy_fits n fs Hfit) as [_ Hpfit].
    destruct (completeBy n fs) as [done pending]. cbn [fst snd] in *.
    set (L := length (encodeFrames done)) in *.
    assert (Hcat' : concat (map snd calls)
                    = drop (n - L) (encodeFrames pending)).
    { rewrite Hdrop. unfold E. rewrite Hfs at 1.
      rewrite encodeFrames_app. apply drop_app_ge. exact HL. }
    rewrite (IH pending (n - L)%nat Hpfit Hcat' Hpend).
    rewrite Hfs. rewrite withEnds_app, map_app, concat_app.
    cbn [Nat.add]. fold L. apply f_equal. apply f_equal2.
    + apply f_equal. rewrite <- (withEnds_fst 0 done) at 1. rewrite map_map.
      apply map_ext_in. intros fe Hfe.
      rewrite List.Forall_forall in Hends. specialize (Hends fe Hfe).
      cbn [clockAt].
      replace (fe.2 - h <=? length c)%nat with true
        by (symmetry; apply Nat.leb_le; lia).
      reflexivity.
    + rewrite (withEnds_shift L), map_map. apply f_equal. apply map_ext_in.
      intros fe Hfe. cbn [fst snd clockAt].
      assert (Hlow : (n - L < fe.2)%nat).
      { destruct pending as [|f pending]; [destruct Hfe|].
        pose proof (withEnds_first 0 f pending) as Hf.
        rewrite List.Forall_forall in Hf. specialize (Hf fe Hfe).
        cbn beta in Hf. lia. }
      replace (L + fe.2 - h <=? length c)%nat with false
        by (symmetry; apply Nat.leb_gt; lia).
      replace (L + fe.2 - h - length c)%nat with (fe.2 - (n - L))%nat
        by (unfold n in *; lia).
      reflexivity.
Qed.

Lemma clockAt_In calls n d :
  (0 < n <= length (concat (map snd calls)))%nat ->
  In (clockAt calls n d) (map fst calls).
Proof.
  revert n. induction calls as [|[now c] calls IH]; intros n Hn.
  - cbn in Hn. lia.
  - cbn [map snd concat] in Hn. rewrite length_app in Hn.
    cbn [clockAt map fst].
    destruct (n <=? length c)%nat eqn:E; [left; reflexivity|].
    apply Nat.leb_gt in E. right. apply IH. lia.
Qed.

End Completion.

(** C1, as amended. For every byte sequence made of well-formed frames and
    every way of cutting it into chunks, each chunk processed at its own
    clock reading: the framer ends with an empty buffer, sends the same
    lines with the same streams, in the same order, as one call on the
    whole sequence, and sends the very same records (timestamps included)
    when every call reads the same clock or when every line carries its
    own timestamp. One call on the whole sequence sends the records of the
    frames, frame by frame. In every case the chunked run sends, frame by
    frame, the records of each frame as built at the clock reading of the
    call that brings the frame's last byte, which is one of the calls (a
    call runs to completion and is given one reading); and the timestamp
    of a record is the one its line carries when the pattern matches the
    line, whatever the clock, and that clock reading when it does not. *)
Theorem logs_boundary_independence
    (utf8 : list byte -> jsstring) (fs : list Frame)
    (calls : list (jsstring * list byte)) (now : jsstring) :
  Forall frameFits fs ->
  concat (map snd calls) = encodeFrames fs ->
  let chunked := feed utf8 calls [] in
  let whole := feed utf8 [(now, encodeFrames fs)] [] in
  let completes (fe : Frame * nat) := clockAt calls fe.2 now in
  whole = ([], concat (map (entriesOfFrame utf8 now) fs))
  /\ chunked.1 = []
  /\ map textAndStream chunked.2 = map textAndStream whole.2
  /\ (Forall (fun c => c.1 = now) calls \/ Forall (stamped utf8) fs ->
      chunked.2 = whole.2)
  /\ chunked.2
     = concat (map (fun fe => entriesOfFrame utf8 (completes fe) fe.1)
                   (withEnds 0 fs))
  /\ Forall (fun fe => In (completes fe) (map fst calls)) (withEnds 0 fs)
  /\ (forall clock f,
        map ts (entriesOfFrame utf8 clock f)
        = map (fun l => match matchTimestamp l with
                        | Some (t, _) => t
                        | None => clock
                        end)
              (linesOf (utf8 (payload f)))).
Proof.
  intros Hfit Hcat chunked whole completes.
  assert (Hper : chunked.2
            = concat (map (fun fe => entriesOfFrame utf8 (completes fe) fe.1)
                          (withEnds 0 fs))).
  { unfold chunked. rewrite feed_G.
    pose proof (feedG_frames utf8 entryOf calls fs 0 now Hfit) as H.
    rewrite take_0, drop_0 in H. rewrite H.
    - cbn [snd]. apply f_equal. apply map_ext. intros fe.
      rewrite Nat.sub_0_r. reflexivity.
    - exact Hcat.
    - destruct fs as [|f fs]; [reflexivity|]. rewrite length_encode. lia. }
  assert (Hcalls : Forall (fun fe => In (completes fe) (map fst calls))
                          (withEnds 0 fs)).
  { eapply Forall_impl; [apply (withEnds_range 0 fs)|]. intros fe Hfe.
    cbn beta in Hfe. apply clockAt_In. rewrite Hcat. lia. }
  assert (Hts : forall clock f,
            map ts (entriesOfFrame utf8 clock f)
            = map (fun l => match matchTimestamp l with
                            | Some (t, _) => t
                            | None => clock
                            end)
                  (linesOf (utf8 (payload f)))).
  { intros clock f. unfold entriesOfFrame. rewrite map_map.
    apply map_ext. intros l. unfold entryOf.
    destruct (matchTimestamp l) as [[t r]|]; reflexivity. }
  cut (whole = ([], concat (map (entriesOfFrame utf8 now) fs))
       /\ chunked.1 = []
       /\ map textAndStream chunked.2 = map textAndStream whole.2
       /\ (Forall (fun c => c.1 = now) calls \/ Forall (stamped utf8) fs ->
           chunked.2 = whole.2)).
  { intros (H1 & H2 & H3 & H4). repeat (split; [assumption|]). exact Hts. }
  clear Hper Hcalls Hts completes.
  assert (Hwhole : whole = ([], concat (map (entriesOfFrame utf8 now) fs))).
  { unfold whole. cbn [feed]. rewrite processLogData_G.
    rewrite (processG_encodeFrames utf8 (entryOf now) fs Hfit).
    rewrite app_nil_r. reflexivity. }
  pose proof (whole_trace utf8 (entryOf now) calls) as Hnow.
  rewrite Hcat, (processG_encodeFrames utf8 (entryOf now) fs Hfit) in Hnow.
  pose proof (whole_trace utf8 (fun lv l => (lv, l)) calls) as Hlines.
  rewrite Hcat, (processG_encodeFrames utf8 _ fs Hfit) in Hlines.
  pose proof (trace_clocks utf8 calls []) as Hclk.
  unfold chunked. rewrite feed_trace, Hwhole. cbn [fst snd].
  destruct (trace utf8 calls []) as [r T]. cbn [fst snd] in *.
  injection Hnow as Hr HT. injection Hlines as _ HL.
  split; [reflexivity|]. split; [congruence|]. split.
  - change (concat (map (entriesOfFrame utf8 now) fs))
      with (concat (map (ofFrameG utf8 (entryOf now)) fs)).
    rewrite HT, !map_map. apply map_ext. intros t. apply textAndStream_clock.
  - change (concat (map (entriesOfFrame utf8 now) fs))
      with (concat (map (ofFrameG utf8 (entryOf now)) fs)).
    rewrite HT. intros [Hsame|Hst].
    + apply map_ext_in. intros t Ht.
      rewrite List.Forall_forall in Hclk. specialize (Hclk t Ht).
      apply in_map_iff in Hclk. destruct Hclk as (c & Hc & Hin).
      rewrite List.Forall_forall in Hsame. rewrite <- Hc, (Hsame c Hin).
      reflexivity.
    + apply map_ext_in. intros t Ht. apply entryOf_stamped.
      assert (Hin : In (t.2.1, t.2.2) (concat (map (ofFrameG utf8 (fun lv l => (lv, l))) fs))).
      { rewrite HL. apply in_map_iff. exists t. split; [reflexivity|exact Ht]. }
      apply in_concat in Hin. destruct Hin as (ls & Hls & Hin).
      apply in_map_iff in Hls. destruct Hls as (f & <- & Hf).
      unfold ofFrameG in Hin. apply in_map_iff in Hin.
      destruct Hin as (l & Hl & Hin). injection Hl as _ Hl. subst l.
      rewrite List.Forall_forall in Hst. specialize (Hst f Hf).
      unfold stamped in Hst. rewrite List.Forall_forall in Hst.
      apply Hst. exact Hin.
Qed.

(** C6, as amended. Fewer than 8 bytes send nothing and are kept. A
    header followed by only part of its payload sends nothing and is kept
    whole; the rest of the payload then sends the records of that frame,
    one per line that has a code unit other than white space, and leaves
    the buffer empty. *)
Theorem logs_partial_frame_retention
    (utf8 : list byte -> jsstring) (now1 now2 : jsstring) (f : Frame)
    (p1 p2 : list byte) :
  frameFits f -> payload f = p1 ++ p2 -> p2 <> [] ->
  (forall k, (k < 8)%nat ->
     processLogData utf8 now1 [] (take k (encode f)) = (take k (encode f), []))
  /\ processLogData utf8 now1 [] (header f ++ p1) = (header f ++ p1, [])
  /\ processLogData utf8 now2 (header f ++ p1) p2
     = ([], entriesOfFrame utf8 now2 f)
  /\ length (entriesOfFrame utf8 now2 f)
     = length (List.filter (fun l => negb (forallb isWhiteSpace l))
                 (split LF (utf8 (payload f)))).
Proof.
  intros Hfit Hpay Hp2. split; [|split; [|split]].
  - intros k Hk. unfold processLogData. rewrite app_nil_l.
    set (b := take k (encode f)).
    assert (Hb : blen b < 8) by (unfold blen, b; rewrite length_take; lia).
    destruct (length b) as [|n] eqn:En; [reflexivity|].
    cbn [whileFrames].
    replace (0 <? blen b) with true by (unfold blen; lia).
    replace (blen b - 0 <? 8) with true by lia. reflexivity.
  - unfold processLogData. rewrite app_nil_l.
    assert (Hlen : blen (header f ++ p1) = 8 + blen p1)
      by (rewrite blen_app; reflexivity).
    assert (Hsz : readUInt32BE (header f ++ p1) 4 = blen (payload f)).
    { rewrite <- (readUInt32BE_encode f Hfit). unfold encode.
      rewrite !readUInt32BE_app_l; try reflexivity; try lia;
        unfold blen; rewrite header_length; lia. }
    assert (Hlt : blen p1 < blen (payload f)).
    { rewrite Hpay, blen_app. destruct p2; [congruence|].
      unfold blen; simpl; lia. }
    pose proof (blen_nonneg p1).
    destruct (length (header f ++ p1)) as [|n] eqn:En;
      [unfold blen in Hlen; lia|].
    cbn [whileFrames].
    replace (0 <? blen (header f ++ p1)) with true by lia.
    replace (blen (header f ++ p1) - 0 <? 8) with false by lia.
    change (0 + 4) with 4. rewrite Hsz.
    replace (blen (header f ++ p1) - 0 <? 8 + blen (payload f)) with true by lia.
    reflexivity.
  - rewrite processLogData_G, processG_whole, <- app_assoc, <- Hpay.
    exact (processG_encode utf8 (entryOf now2) f Hfit).
  - unfold entriesOfFrame, linesOf. rewrite length_map. f_equal.
    apply filter_ext. intros l. apply truthy_trim.
Qed.

(** *** Concrete frames *)

Definition bytesOf (s : string) : list byte :=
  map byte_of_ascii (list_ascii_of_string s).

Definition frameOut (text : string) : Frame :=
  {| tag := x01; pad1 := x00; pad2 := x00; pad3 := x00; payload := bytesOf text |}.

Definition frameErr (text : string) : Frame :=
  {| tag := x02; pad1 := x00; pad2 := x00; pad3 := x00; payload := bytesOf text |}.

Definition clockA : jsstring := js "2025-01-01T00:00:00.000Z".
Definition clockB : jsstring := js "2025-01-01T00:00:05.000Z".

Example feed_two_frames_cut_inside_header :
  feed latin1
    [(clockA, encode (frameOut "2024-12-31T23:59:59.123456789Z started") ++ [x02; x00]);
     (clockB, drop 2 (encode (frameErr "oops")))] []
  = ([],
     [ {| ts := js "2024-12-31T23:59:59.123456789Z"; line := js "started"; level := info |};
       {| ts := clockB; line := js "oops"; level := error |} ]).
Proof. vm_compute. reflexivity. Qed.

Lemma logs_boundary_independence_witness :
  let fs := [frameOut "first";
             frameOut "2024-12-31T23:59:59.123456789Z started";
             frameErr "oops"] in
  let calls := [(clockA, take 16 (encodeFrames fs)); (clockB, drop 16 (encodeFrames fs))] in
  Forall frameFits fs
  /\ concat (map snd calls) = encodeFrames fs
  /\ (feed latin1 [(clockA, encodeFrames fs)] []
      = ([], concat (map (entriesOfFrame latin1 clockA) fs))
      /\ (feed latin1 calls []).1 = []
      /\ map textAndStream (feed latin1 calls []).2
         = map textAndStream (feed latin1 [(clockA, encodeFrames fs)] []).2)
  /\ (feed latin1 calls []).2
     = [ {| ts := clockA; line := js "first"; level := info |};
         {| ts := js "2024-12-31T23:59:59.123456789Z"; line := js "started";
            level := info |};
         {| ts := clockB; line := js "oops"; level := error |} ].
Proof.
  intros fs calls.
  assert (Hfit : Forall frameFits fs) by (repeat constructor).
  assert (Hcat : concat (map snd calls) = encodeFrames fs) by reflexivity.
  pose proof (logs_boundary_independence latin1 fs calls clockA Hfit Hcat)
    as (H1 & H2 & H3 & _ & H5 & _).
  split; [exact Hfit|]. split; [exact Hcat|].
  split; [split; [exact H1|split; [exact H2|exact H3]]|].
  rewrite H5. vm_compute. reflexivity.
Defined.

(** C1 as stated fails: a line without a timestamp of its own is stamped
    with the clock of the call that completes its frame, so two frames
    completed by two calls at two clock readings carry two timestamps, and
    no single call on the whole sequence, at whatever reading, sends the
    same records. *)
Lemma logs_fallback_timestamp_follows_the_call :
  let fs := [frameOut "first"; frameOut "second"] in
  let calls :=
    [(clockA, take 16 (encodeFrames fs)); (clockB, drop 16 (encodeFrames fs))] in
  Forall frameFits fs
  /\ concat (map snd calls) = encodeFrames fs
  /\ (feed latin1 calls []).2
     = [ {| ts := clockA; line := js "first"; level := info |};
         {| ts := clockB; line := js "second"; level := info |} ]
  /\ forall now,
       (feed latin1 [(now, encodeFrames fs)] []).2
       = [ {| ts := now; line := js "first"; level := info |};
           {| ts := now; line := js "second"; level := info |} ]
       /\ (feed latin1 calls []).2 <> (feed latin1 [(now, encodeFrames fs)] []).2.
Proof.
  intros fs calls.
  split; [repeat constructor|]. split; [reflexivity|].
  split; [vm_compute; reflexivity|].
  intros now.
  assert (Hw : (feed latin1 [(now, encodeFrames fs)] []).2
               = [ {| ts := now; line := js "first"; level := info |};
                   {| ts := now; line := js "second"; level := info |} ])
    by (vm_compute; reflexivity).
  split; [exact Hw|]. rewrite Hw.
  replace (feed latin1 calls []).2
    with [ {| ts := clockA; line := js "first"; level := info |};
           {| ts := clockB; line := js "second"; level := info |} ]
    by (vm_compute; reflexivity).
  intros H. injection H as H1 H2. subst now. vm_compute in H2. discriminate H2.
Qed.

Lemma logs_partial_frame_retention_witness :
  let f := frameErr "2025-03-04T05:06:07.5Z disk full" in
  frameFits f /\ payload f = take 10 (payload f) ++ drop 10 (payload f)
  /\ drop 10 (payload f) <> []
  /\ ((forall k, (k < 8)%nat ->
         processLogData latin1 clockA [] (take k (encode f))
         = (take k (encode f), []))
      /\ processLogData latin1 clockA [] (header f ++ take 10 (payload f))
      = (header f ++ take 10 (payload f), [])
      /\ processLogData latin1 clockB (header f ++ take 10 (payload f))
           (drop 10 (payload f))
         = ([], entriesOfFrame latin1 clockB f)
      /\ length (entriesOfFrame latin1 clockB f)
         = length (List.filter (fun l => negb (forallb isWhiteSpace l))
                     (split LF (latin1 (payload f))))).
Proof.
  intros f.
  assert (Hfit : frameFits f) by reflexivity.
  assert (Hcut : payload f = take 10 (payload f) ++ drop 10 (payload f))
    by reflexivity.
  assert (Hne : drop 10 (payload f) <> []) by (vm_compute; discriminate).
  split; [exact Hfit|]. split; [exact Hcut|]. split; [exact Hne|].
  exact (logs_partial_frame_retention latin1 clockA clockB f
           (take 10 (payload f)) (drop 10 (payload f)) Hfit Hcut Hne).
Defined.

(** C6 as stated fails on a line that is not empty but blank: the payload
    below is one line of two spaces, a non-empty line, yet its frame, once
    complete, sends no record. *)
Lemma logs_blank_line_sends_nothing :
  let f := frameOut "  " in
  frameFits f
  /\ List.filter truthy (split LF (latin1 (payload f))) = [js "  "]
  /\ processLogData latin1 clockA [] (header f ++ take 1 (payload f))
     = (header f ++ take 1 (payload f), [])
  /\ processLogData latin1 clockB (header f ++ take 1 (payload f))
       (drop 1 (payload f))
     = ([], []).
Proof.
  intros f. split; [reflexivity|]. split; [reflexivity|].
  split; vm_compute; reflexivity.
Qed.

(** * The link store *)

(** *** Lines of text: [split], [join] and [trim] *)

Section Lines.

Lemma trimEnd_idem s : trimEnd (trimEnd s) = trimEnd s.
Proof.
  induction s as [|c s IH]; [reflexivity|]. cbn [trimEnd].
  destruct (trimEnd s) as [|d t] eqn:E.
  - destruct (isWhiteSpace c) eqn:W; [reflexivity|]. simpl. rewrite W.
    reflexivity.
  - cbn [trimEnd]. cbn [trimEnd] in IH.
    destruct (trimEnd t) as [|e t'] eqn:E'.
    + destruct (isWhiteSpace d); [discriminate IH|]. rewrite IH. reflexivity.
    + rewrite IH. reflexivity.
Qed.

Lemma trimEnd_head c s :
  isWhiteSpace c = false -> exists t, trimEnd (c :: s) = c :: t.
Proof.
  intros W. cbn [trimEnd]. destruct (trimEnd s) as [|d t].
  - rewrite W. eauto.
  - eauto.
Qed.

Lemma trimStart_head s :
  trimStart s = [] \/ exists c t, trimStart s = c :: t /\ isWhiteSpace c = false.
Proof.
  induction s as [|c s IH]; [left; reflexivity|]. simpl.
  destruct (isWhiteSpace c) eqn:W; [exact IH|]. right. eauto.
Qed.

Lemma trim_idem s : trim (trim s) = trim s.
Proof.
  unfold trim. destruct (trimStart_head s) as [E|(c & t & E & W)].
  - rewrite E. reflexivity.
  - rewrite E. destruct (trimEnd_head c t W) as [t' E'].
    assert (Hs : trimStart (trimEnd (c :: t)) = trimEnd (c :: t))
      by (rewrite E'; simpl; rewrite W; reflexivity).
    rewrite Hs. apply trimEnd_idem.
Qed.

Lemma In_trimStart x s : In x (trimStart s) -> In x s.
Proof.
  induction s as [|c s IH]; simpl; [tauto|].
  destruct (isWhiteSpace c); simpl; tauto.
Qed.

Lemma In_trimEnd x s : In x (trimEnd s) -> In x s.
Proof.
  induction s as [|c s IH]; cbn [trimEnd]; [tauto|].
  destruct (trimEnd s) as [|d t].
  - destruct (isWhiteSpace c); simpl; tauto.
  - intros [H|H]; [left; exact H|right; apply IH; exact H].
Qed.

Lemma In_trim x s : In x (trim s) -> In x s.
Proof. unfold trim. intros H. apply In_trimStart, In_trimEnd, H. Qed.

Lemma split_nonempty sep s : split sep s <> [].
Proof.
  destruct s as [|c s]; simpl; [discriminate|].
  destruct (c =? sep)%N; [discriminate|].
  destruct (split sep s); discriminate.
Qed.

Lemma split_no_sep sep s l : In l (split sep s) -> ~ In sep l.
Proof.
  revert l. induction s as [|c s IH]; intros l; simpl.
  - intros [<-|[]]. tauto.
  - destruct (c =? sep)%N eqn:E.
    + intros [<-|H]; [tauto|apply IH, H].
    + destruct (split sep s) as [|l0 ls] eqn:Es.
      * intros [<-|[]]. apply N.eqb_neq in E. simpl. intuition congruence.
      * intros [<-|H].
        -- apply N.eqb_neq in E. pose proof (IH l0 (or_introl eq_refl)).
           simpl. intuition congruence.
        -- apply IH. right. exact H.
Qed.

Lemma split_app_sep sep a r :
  ~ In sep a -> split sep (a ++ sep :: r) = a :: split sep r.
Proof.
  induction a as [|c a IH]; intros H; simpl.
  - rewrite N.eqb_refl. reflexivity.
  - destruct (c =? sep)%N eqn:E.
    + apply N.eqb_eq in E. subst. simpl in H. tauto.
    + rewrite IH by (simpl in H; tauto). reflexivity.
Qed.

Lemma split_app sep a b :
  split sep (a ++ sep :: b) = split sep a ++ split sep b.
Proof.
  induction a as [|c a IH]; simpl.
  - rewrite N.eqb_refl. reflexivity.
  - destruct (c =? sep)%N; rewrite IH; [reflexivity|].
    pose proof (split_nonempty sep a).
    destruct (split sep a); [congruence|reflexivity].
Qed.

Lemma split_single sep s : ~ In sep s -> split sep s = [s].
Proof.
  induction s as [|c s IH]; intros H; [reflexivity|]. cbn [split].
  destruct (c =? sep)%N eqn:E.
  - apply N.eqb_eq in E. subst. simpl in H. tauto.
  - rewrite IH by (simpl in H; tauto). reflexivity.
Qed.

Lemma endsWith_LF s : endsWith s [LF] = true -> exists s', s = s' ++ [LF].
Proof.
  unfold endsWith. cbn [rev app]. intros H.
  destruct (rev s) as [|c r] eqn:E; [discriminate H|].
  cbn [startsWith] in H. apply andb_true_iff in H. destruct H as [H _].
  apply N.eqb_eq in H. subst c. exists (rev r).
  rewrite <- (rev_involutive s), E. reflexivity.
Qed.

Lemma split_join_lines (us : list (list N)) :
  us <> [] -> Forall (fun u => ~ In LF u) us ->
  split LF (join [LF] us ++ [LF]) = us ++ [[]].
Proof.
  intros Hne Hall. induction Hall as [|u us Hu Hus IH]; [congruence|].
  destruct us as [|u' us].
  - simpl. rewrite split_app_sep by exact Hu. reflexivity.
  - change (join [LF] (u :: u' :: us)) with (u ++ [LF] ++ join [LF] (u' :: us)).
    rewrite <- !app_assoc. cbn [app].
    rewrite split_app_sep by exact Hu.
    rewrite IH by discriminate. reflexivity.
Qed.

End Lines.

Module LinkStore.

Import Files.

(** A url as [readLinks] returns it: trimmed, not empty, on one line. *)
Definition clean (u : list N) : Prop :=
  trim u = u /\ u <> [] /\ ~ In LF u.

(** The content [removeLink] writes for the urls that remain. *)
Definition render (us : list (list N)) : list N :=
  if 0 <? Z.of_nat (length us) then join [LF] us ++ [LF] else [].

Lemma strlen_pos u : (0 <? strlen u) = true <-> u <> [].
Proof.
  unfold strlen. destruct u as [|c u]; split; intros H.
  - discriminate H.
  - congruence.
  - discriminate.
  - apply Z.ltb_lt. rewrite length_cons. lia.
Qed.

Lemma urlsOf_clean content : Forall clean (urlsOf content).
Proof.
  unfold urlsOf. apply List.Forall_forall. intros u Hu.
  apply filter_In in Hu. destruct Hu as [Hin Hlen].
  apply in_map_iff in Hin. destruct Hin as (l & <- & Hl).
  split; [apply trim_idem|]. split; [apply strlen_pos, Hlen|].
  intros H. apply In_trim in H. exact (split_no_sep LF content l Hl H).
Qed.

Lemma filter_clean (us : list (list N)) :
  Forall clean us ->
  List.filter (fun line => 0 <? strlen line) (map trim us) = us.
Proof.
  induction 1 as [|u us (Ht & Hne & _) _ IH]; [reflexivity|].
  cbn [map List.filter]. rewrite Ht.
  apply strlen_pos in Hne. rewrite Hne, IH. reflexivity.
Qed.

(** Reading back what [removeLink] writes gives the urls written. *)
Lemma urlsOf_render us : Forall clean us -> urlsOf (render us) = us.
Proof.
  intros Hc. unfold render, urlsOf. destruct us as [|u us]; [reflexivity|].
  replace (0 <? Z.of_nat (length (u :: us))) with true
    by (symmetry; apply Z.ltb_lt; rewrite length_cons; lia).
  rewrite split_join_lines.
  - rewrite map_app, List.filter_app, (filter_clean _ Hc). apply app_nil_r.
  - discriminate.
  - eapply Forall_impl; [exact Hc|]. intros x (_ & _ & H). exact H.
Qed.

Section Facts.

Variable sha256hex : list N -> list N.

Local Abbreviation readLinks := (readLinks sha256hex).
Local Abbreviation removeLink := (removeLink sha256hex).
Local Abbreviation storedUrls := (storedUrls sha256hex).
Local Abbreviation generateId := (generateId sha256hex).

Lemma storedUrls_urlsOf d :
  storedUrls d = match links d with Some c => urlsOf c | None => [] end.
Proof.
  unfold Files.storedUrls, Files.readLinks. destruct (links d); [|reflexivity].
  rewrite map_map. apply map_id.
Qed.

Lemma storedUrls_clean d : Forall clean (storedUrls d).
Proof.
  rewrite storedUrls_urlsOf. destruct (links d); [|constructor].
  apply urlsOf_clean.
Qed.

Lemma readLinks_id l d : In l (readLinks d) -> id l = generateId (url l).
Proof.
  unfold Files.readLinks. destruct (links d); [|intros []].
  intros H. apply in_map_iff in H. destruct H as (u & <- & _). reflexivity.
Qed.

(** The urls [removeLink] keeps. *)
Definition remaining (i : list N) (d : Disk) : list (list N) :=
  List.filter (fun u => negb (streq (generateId u) i)) (storedUrls d).

Lemma remaining_eq i d :
  map url (List.filter (fun link => negb (streq (id link) i)) (readLinks d))
  = remaining i d.
Proof.
  unfold remaining, Files.storedUrls, Files.readLinks.
  destruct (links d); [|reflexivity].
  induction (urlsOf l) as [|u us IH]; [reflexivity|].
  cbn [map List.filter id url].
  destruct (negb (streq (generateId u) i)); cbn [map url]; rewrite IH;
    reflexivity.
Qed.

Lemma remaining_clean i d : Forall clean (remaining i d).
Proof.
  unfold remaining. apply List.Forall_forall. intros u Hu.
  apply filter_In in Hu. destruct Hu as [Hu _].
  pose proof (storedUrls_clean d) as Hc.
  rewrite List.Forall_forall in Hc. exact (Hc u Hu).
Qed.

(** What [removeLink] does, by whether some stored url hashes to the
    id. *)
Lemma removeLink_miss i d :
  (forall u, In u (storedUrls d) -> generateId u <> i) ->
  removeLink i d = (d, false).
Proof.
  intros Hmiss. unfold Files.removeLink.
  destruct (find _ (readLinks d)) as [l|] eqn:E; [|reflexivity].
  apply find_some in E. destruct E as [Hin Heq].
  unfold streq in Heq. apply bool_decide_eq_true in Heq.
  exfalso. apply (Hmiss (url l)).
  - unfold Files.storedUrls. apply in_map. exact Hin.
  - rewrite <- Heq. symmetry. exact (readLinks_id l d Hin).
Qed.

Lemma removeLink_hit i d u :
  In u (storedUrls d) -> generateId u = i ->
  removeLink i d
  = ({| links := Some (render (remaining i d)); tmp := None;
        fslog := fslog d ++ [WriteFile (render (remaining i d)); Rename] |},
     true).
Proof.
  intros Hin Hid. unfold Files.removeLink.
  destruct (find _ (readLinks d)) as [l|] eqn:E.
  - rewrite remaining_eq. unfold rename, writeFile, render. cbn.
    rewrite <- app_assoc. reflexivity.
  - exfalso. unfold Files.storedUrls in Hin. apply in_map_iff in Hin.
    destruct Hin as (l & Hl & Hin).
    pose proof (find_none _ _ E l Hin) as Hn. cbn beta in Hn.
    unfold streq in Hn. apply bool_decide_eq_false in Hn. apply Hn.
    rewrite (readLinks_id l d Hin), Hl. exact Hid.
Qed.

Lemma storedUrls_after_remove i d c log :
  storedUrls {| links := Some (render (remaining i d)); tmp := c; fslog := log |}
  = remaining i d.
Proof.
  rewrite storedUrls_urlsOf. cbn [links].
  apply urlsOf_render, remaining_clean.
Qed.


(** *** [addLink] *)

Lemma urlsOf_app a b : urlsOf (a ++ LF :: b) = urlsOf a ++ urlsOf b.
Proof.
  unfold urlsOf. rewrite split_app, map_app, List.filter_app. reflexivity.
Qed.

Lemma urlsOf_line u : clean u -> urlsOf (u ++ [LF]) = [u].
Proof.
  intros (Ht & Hne & Hlf). rewrite urlsOf_app. unfold urlsOf.
  rewrite (split_single LF u Hlf). cbn [split map List.filter].
  rewrite Ht. apply strlen_pos in Hne. rewrite Hne. reflexivity.
Qed.

Lemma urlsOf_appended cur x :
  urlsOf (appended cur x) = urlsOf cur ++ urlsOf (x ++ [LF]).
Proof.
  unfold appended. destruct cur as [|c cur].
  - reflexivity.
  - cbn [truthy andb]. destruct (endsWith (c :: cur) [LF]) eqn:E; cbn [negb].
    + apply endsWith_LF in E. destruct E as [s' ->].
      rewrite app_nil_l, <- app_assoc. cbn [app].
      rewrite (urlsOf_app s' (x ++ [LF])), (urlsOf_app s' []). cbn.
      rewrite app_nil_r. reflexivity.
    + change ((c :: cur) ++ [LF] ++ x ++ [LF])
        with ((c :: cur) ++ LF :: (x ++ [LF])).
      apply urlsOf_app.
Qed.

(** The id [addLink] returns is the hash of the url, whatever the
    store holds. *)
Lemma addLink_id u d : (addLink sha256hex u d).2.1 = generateId u.
Proof.
  unfold Files.addLink.
  destruct (find _ (readLinks d)) as [l|] eqn:E; [|reflexivity].
  apply find_some in E. destruct E as [Hin Heq]. cbn [fst snd].
  unfold streq in Heq. apply bool_decide_eq_true in Heq.
  rewrite (readLinks_id l d Hin), Heq. reflexivity.
Qed.

(** A url that is stored is answered without touching the disk. *)
Lemma addLink_present u d :
  In u (storedUrls d) -> addLink sha256hex u d = (d, (generateId u, false)).
Proof.
  intros Hin. pose proof (addLink_id u d) as Hid. unfold Files.addLink in *.
  destruct (find _ (readLinks d)) as [l|] eqn:E.
  - cbn [fst snd] in Hid. rewrite Hid. reflexivity.
  - exfalso. unfold Files.storedUrls in Hin. apply in_map_iff in Hin.
    destruct Hin as (l & Hl & Hin).
    pose proof (find_none _ _ E l Hin) as Hn. cbn beta in Hn.
    unfold streq in Hn. apply bool_decide_eq_false in Hn. exact (Hn Hl).
Qed.

(** A url that is not stored is appended on a line of its own; if it
    is clean, it is then the last stored url. *)
Lemma addLink_absent u d :
  ~ In u (storedUrls d) ->
  addLink sha256hex u d
  = (rename (writeFile (appended (currentContent d) u) d),
     (generateId u, true))
  /\ (clean u -> storedUrls (addLink sha256hex u d).1 = storedUrls d ++ [u]).
Proof.
  intros Hnin. unfold Files.addLink.
  destruct (find _ (readLinks d)) as [l|] eqn:E.
  - exfalso. apply find_some in E. destruct E as [Hin Heq].
    unfold streq in Heq. apply bool_decide_eq_true in Heq. apply Hnin.
    rewrite <- Heq. unfold Files.storedUrls. apply in_map. exact Hin.
  - split; [reflexivity|]. intros Hu. cbn [fst].
    rewrite !storedUrls_urlsOf. cbn [links rename writeFile tmp].
    rewrite urlsOf_appended, (urlsOf_line u Hu). unfold currentContent.
    destruct (links d); reflexivity.
Qed.

(** For a clean url [addLink] is idempotent: the second call in a row
    finds the url, answers the same id and writes nothing, and the two
    calls together add at most one stored line. *)
Lemma addLink_clean_twice u d :
  clean u ->
  let d1 := (addLink sha256hex u d).1 in
  addLink sha256hex u d1 = (d1, (generateId u, false))
  /\ (length (storedUrls d1) <= length (storedUrls d) + 1)%nat.
Proof.
  intros Hu d1.
  destruct (List.in_dec (List.list_eq_dec N.eq_dec) u (storedUrls d)) as [Hin|Hnin].
  - assert (E : d1 = d) by (unfold d1; rewrite (addLink_present u d Hin); reflexivity).
    rewrite E. split; [apply addLink_present, Hin|lia].
  - destruct (addLink_absent u d Hnin) as [_ Hst]. specialize (Hst Hu).
    fold d1 in Hst. split.
    + apply addLink_present. rewrite Hst. apply in_or_app. right. left.
      reflexivity.
    + rewrite Hst, length_app. cbn. lia.
Qed.

(** *** Where uniqueness is kept

        One line per url survives every removal, every [addLink] of a
        clean url, and every [addBulkLinks] of clean urls given once
        each. *)

Lemma removeLink_keeps_unique i d :
  List.NoDup (storedUrls d) -> List.NoDup (storedUrls (removeLink i d).1).
Proof.
  intros Hnd. unfold Files.removeLink.
  destruct (find _ (readLinks d)) as [l|] eqn:E; [|exact Hnd].
  rewrite remaining_eq. cbn [fst]. unfold rename, writeFile. cbn [tmp].
  change (if 0 <? Z.of_nat (length (remaining i d))
          then join [LF] (remaining i d) ++ [LF] else [])
    with (render (remaining i d)).
  rewrite storedUrls_after_remove. unfold remaining.
  apply List.NoDup_filter, Hnd.
Qed.

Lemma addLink_keeps_unique u d :
  clean u -> List.NoDup (storedUrls d) ->
  List.NoDup (storedUrls (addLink sha256hex u d).1).
Proof.
  intros Hu Hnd.
  destruct (List.in_dec (List.list_eq_dec N.eq_dec) u (storedUrls d))
    as [Hin|Hnin].
  - rewrite (addLink_present u d Hin). exact Hnd.
  - destruct (addLink_absent u d Hnin) as [_ Hst]. rewrite (Hst Hu).
    apply List.NoDup_app; [exact Hnd| |].
    + constructor; [intros []|constructor].
    + intros x Hx [<-|[]]. exact (Hnin Hx).
Qed.

Lemma addBulkLinks_keeps_unique us d :
  Forall clean us -> List.NoDup us -> List.NoDup (storedUrls d) ->
  List.NoDup (storedUrls (addBulkLinks sha256hex us d).1).
Proof.
  intros Hc Hus Hnd. unfold Files.addBulkLinks.
  set (fresh_ := List.filter _ us).
  destruct (Z.of_nat (length fresh_) =? 0) eqn:E; [exact Hnd|].
  cbn [fst]. rewrite storedUrls_urlsOf. cbn [links rename writeFile tmp].
  rewrite urlsOf_appended.
  assert (Hfc : Forall clean fresh_).
  { apply List.Forall_forall. intros x Hx. apply filter_In in Hx.
    rewrite List.Forall_forall in Hc. apply Hc, Hx. }
  assert (Hr : urlsOf (join [LF] fresh_ ++ [LF]) = fresh_).
  { pose proof (urlsOf_render fresh_ Hfc) as Hr. unfold render in Hr.
    destruct (0 <? Z.of_nat (length fresh_)) eqn:E'; [exact Hr|].
    apply Z.eqb_neq in E. apply Z.ltb_ge in E'. lia. }
  rewrite Hr.
  assert (Hcur : urlsOf (currentContent d) = storedUrls d).
  { rewrite storedUrls_urlsOf. unfold currentContent.
    destruct (links d); reflexivity. }
  rewrite Hcur. apply List.NoDup_app; [exact Hnd| |].
  - apply List.NoDup_filter, Hus.
  - intros x Hx Hf. apply filter_In in Hf. destruct Hf as [_ Hf].
    apply negb_true_iff, bool_decide_eq_false in Hf. apply Hf.
    apply elem_of_list_to_set, list_elem_of_In. exact Hx.
Qed.

End Facts.

(** An operation whose urls are clean and, for a bulk add, given once
    each. *)
Definition tame (op : Op) : Prop :=
  match op with
  | Add u => clean u
  | AddBulk us => Forall clean us /\ List.NoDup us
  | Remove _ => True
  end.

(** Runs of such operations keep one line per url. *)
Lemma run_keeps_unique (sha256hex : list N -> list N) ops d :
  Forall tame ops -> List.NoDup (storedUrls sha256hex d) ->
  List.NoDup (storedUrls sha256hex (run sha256hex ops d)).
Proof.
  intros Hops. revert d. induction Hops as [|op ops Hop _ IH]; intros d Hd.
  - exact Hd.
  - unfold run in *. cbn [fold_left]. apply IH.
    destruct op as [u|us|i]; cbn [step tame] in *.
    + apply addLink_keeps_unique; assumption.
    + destruct Hop. apply addBulkLinks_keeps_unique; assumption.
    + apply removeLink_keeps_unique; assumption.
Qed.

(** A stand-in for SHA-256 in the examples: the theorems hold for every
    hash function, and this one never maps two urls to one id. *)
Definition tagHash (u : list N) : list N := js "sha256:" ++ u.

(** A disk whose artifact holds the given lines. *)
Definition diskWith (lines : list string) : Disk :=
  {| links := Some (concat (map (fun l => js l ++ [LF]) lines));
     tmp := None; fslog := [] |}.

Example list_scenario :
  let u := js "https://mega.nz/folder/a" in
  let d1 := (addLink tagHash u fresh).1 in
  addLink tagHash u fresh
  = ({| links := Some (u ++ [LF]); tmp := None;
        fslog := [WriteFile (u ++ [LF]); Rename] |}, (tagHash u, true))
  /\ storedUrls tagHash d1 = [u]
  /\ (removeLink tagHash (tagHash u) d1).2 = true
  /\ storedUrls tagHash (removeLink tagHash (tagHash u) d1).1 = [].
Proof. vm_compute. repeat split; reflexivity. Qed.

Example bulk_dedup_against_store :
  let a := js "https://mega.nz/folder/a" in
  let b := js "https://mega.nz/folder/b" in
  let d := (addLink tagHash a fresh).1 in
  (addBulkLinks tagHash [a; b; a] d).2 = 1
  /\ storedUrls tagHash (addBulkLinks tagHash [a; b; a] d).1 = [a; b].
Proof. vm_compute. split; reflexivity. Qed.

(** C7. An id that no stored url hashes to: [removeLink] answers
    [false] and the disk is the same, with no call made to change it. An
    id that some stored url hashes to: the artifact is replaced by one
    whose urls are the stored ones, in order, without those that hash to
    the id. *)
Theorem removeLink_unknown_id_leaves_artifact
    (sha256hex : list N -> list N) (d : Disk) (i : list N) :
  ((forall u, In u (storedUrls sha256hex d) -> generateId sha256hex u <> i) ->
   removeLink sha256hex i d = (d, false))
  /\ (forall u, In u (storedUrls sha256hex d) -> generateId sha256hex u = i ->
      exists content,
        removeLink sha256hex i d
        = ({| links := Some content; tmp := None;
              fslog := fslog d ++ [WriteFile content; Rename] |}, true)
        /\ urlsOf content
           = List.filter (fun v => negb (streq (generateId sha256hex v) i))
               (storedUrls sha256hex d)).
Proof.
  split.
  - apply removeLink_miss.
  - intros u Hin Hid. exists (render (remaining sha256hex i d)). split.
    + exact (removeLink_hit sha256hex i d u Hin Hid).
    + apply urlsOf_render, remaining_clean.
Qed.

Lemma removeLink_unknown_id_leaves_artifact_witness :
  let d := diskWith ["https://mega.nz/folder/a"; "https://mega.nz/folder/b"] in
  let a := js "https://mega.nz/folder/a" in
  (forall u, In u (storedUrls tagHash d) -> generateId tagHash u <> js "feed")
  /\ removeLink tagHash (js "feed") d = (d, false)
  /\ In a (storedUrls tagHash d)
  /\ exists content,
       removeLink tagHash (tagHash a) d
       = ({| links := Some content; tmp := None;
             fslog := fslog d ++ [WriteFile content; Rename] |}, true)
       /\ urlsOf content
          = List.filter (fun v => negb (streq (generateId tagHash v) (tagHash a)))
              (storedUrls tagHash d).
Proof.
  intros d a.
  assert (Hmiss : forall u, In u (storedUrls tagHash d) ->
                            generateId tagHash u <> js "feed").
  { intros u Hu. unfold Files.generateId, tagHash. discriminate. }
  assert (Hin : In a (storedUrls tagHash d)) by (left; reflexivity).
  split; [exact Hmiss|]. split; [|split; [exact Hin|]].
  - exact (proj1 (removeLink_unknown_id_leaves_artifact tagHash d (js "feed")) Hmiss).
  - exact (proj2 (removeLink_unknown_id_leaves_artifact tagHash d (tagHash a))
             a Hin eq_refl).
Defined.

(** C10. A removal that succeeded left no stored url that hashes to the
    id, however many lines did before, so removing the same id again
    answers [false] and changes nothing. *)
Theorem removeLink_removes_every_match
    (sha256hex : list N -> list N) (d d' : Disk) (i : list N) :
  removeLink sha256hex i d = (d', true) ->
  (forall u, In u (storedUrls sha256hex d') -> generateId sha256hex u <> i)
  /\ removeLink sha256hex i d' = (d', false).
Proof.
  intros Hrm.
  assert (Hhit : exists u, In u (storedUrls sha256hex d)
                           /\ generateId sha256hex u = i).
  { unfold Files.removeLink in Hrm.
    destruct (find _ (Files.readLinks sha256hex d)) as [l|] eqn:E;
      [|discriminate Hrm].
    apply find_some in E. destruct E as [Hin Heq].
    unfold streq in Heq. apply bool_decide_eq_true in Heq.
    exists (url l). split.
    - unfold Files.storedUrls. apply in_map. exact Hin.
    - rewrite <- (readLinks_id sha256hex l d Hin). exact Heq. }
  destruct Hhit as (u & Hin & Hid).
  rewrite (removeLink_hit sha256hex i d u Hin Hid) in Hrm.
  injection Hrm as <-.
  assert (Hgone : forall v,
            In v (storedUrls sha256hex
                    {| links := Some (render (remaining sha256hex i d));
                       tmp := None;
                       fslog := fslog d ++
                         [WriteFile (render (remaining sha256hex i d)); Rename] |}) ->
            generateId sha256hex v <> i).
  { intros v Hv. rewrite storedUrls_after_remove in Hv.
    unfold remaining in Hv. apply filter_In in Hv. destruct Hv as [_ Hv].
    apply negb_true_iff in Hv. unfold streq in Hv.
    apply bool_decide_eq_false in Hv. exact Hv. }
  split; [exact Hgone|]. apply removeLink_miss. exact Hgone.
Qed.

Lemma removeLink_removes_every_match_witness :
  let d := diskWith ["https://mega.nz/folder/a"; "https://mega.nz/folder/b";
                     "https://mega.nz/folder/a"] in
  let a := js "https://mega.nz/folder/a" in
  let d' := (removeLink tagHash (tagHash a) d).1 in
  storedUrls tagHash d = [a; js "https://mega.nz/folder/b"; a]
  /\ storedUrls tagHash d' = [js "https://mega.nz/folder/b"]
  /\ removeLink tagHash (tagHash a) d = (d', true)
  /\ (forall u, In u (storedUrls tagHash d') -> generateId tagHash u <> tagHash a)
  /\ removeLink tagHash (tagHash a) d' = (d', false).
Proof.
  intros d a d'.
  assert (Hrm : removeLink tagHash (tagHash a) d = (d', true))
    by (vm_compute; reflexivity).
  split; [vm_compute; reflexivity|]. split; [vm_compute; reflexivity|].
  split; [exact Hrm|].
  exact (removeLink_removes_every_match tagHash d d' (tagHash a) Hrm).
Defined.

(** C3, at the input where the code breaks it: [addBulkLinks] takes out
    of its input the urls already stored, not the repetitions inside the
    input, and writes a url given twice on two lines. *)
Theorem addBulkLinks_repeated_input_stored_twice :
  let b := js "https://mega.nz/folder/b" in
  addBulkLinks tagHash [b; b] fresh
  = ({| links := Some (b ++ [LF] ++ b ++ [LF]); tmp := None;
        fslog := [WriteFile (b ++ [LF] ++ b ++ [LF]); Rename] |}, 2)
  /\ storedUrls tagHash (run tagHash [AddBulk [b; b]] fresh) = [b; b]
  /\ ~ List.NoDup (storedUrls tagHash (run tagHash [AddBulk [b; b]] fresh)).
Proof.
  intros b. split; [vm_compute; reflexivity|].
  assert (E : storedUrls tagHash (run tagHash [AddBulk [b; b]] fresh) = [b; b])
    by (vm_compute; reflexivity).
  split; [exact E|]. rewrite E. intros H. inversion H as [|x l Hnin _]; subst.
  apply Hnin. left. reflexivity.
Qed.

(** C5, at the input where the code breaks it: [addLink] compares the
    url as given with the stored lines as [readLinks] trims them, so a
    url that ends in a space is never found again; the second call
    writes a second line, and neither stored url is the url added. *)
Theorem addLink_padded_url_added_twice :
  let u := js "https://mega.nz/folder/a " in
  let d1 := (addLink tagHash u fresh).1 in
  let d2 := (addLink tagHash u d1).1 in
  addLink tagHash u fresh
  = ({| links := Some (u ++ [LF]); tmp := None;
        fslog := [WriteFile (u ++ [LF]); Rename] |}, (tagHash u, true))
  /\ addLink tagHash u d1
     = ({| links := Some (u ++ [LF] ++ u ++ [LF]); tmp := None;
           fslog := [WriteFile (u ++ [LF]); Rename;
                     WriteFile (u ++ [LF] ++ u ++ [LF]); Rename] |},
        (tagHash u, true))
  /\ storedUrls tagHash fresh = []
  /\ storedUrls tagHash d2
     = [js "https://mega.nz/folder/a"; js "https://mega.nz/folder/a"].
Proof. intros u d1 d2. vm_compute. repeat split; reflexivity. Qed.

End LinkStore.

(** * Starting and stopping a container *)

Module DockerFacts.

Import Docker.

Definition engineWith (n : string) (r : bool) : Engine :=
  {| containers :=
       {[ n := {| Running := r; HealthStatus := None;
                  StartedAt := Some (js "2025-01-01T00:00:00.000Z");
                  FinishedAt := None; Env := None |} ]};
     issued := [] |}.

Lemma inspect_engineStart n e i :
  inspect e n = Some i -> inspect (engineStart n e) n = Some (setRunning true i).
Proof.
  unfold inspect, engineStart. cbn [containers]. intros H.
  rewrite lookup_alter_eq, H. reflexivity.
Qed.

Lemma inspect_engineStop n t e i :
  inspect e n = Some i -> inspect (engineStop n t e) n = Some (setRunning false i).
Proof.
  unfold inspect, engineStop. cbn [containers]. intros H.
  rewrite lookup_alter_eq, H. reflexivity.
Qed.

(** C9. For a container the engine knows: [startContainer] resolves, and
    sends the engine a start command exactly when inspection says the
    container is not running; [stopContainer] resolves, and sends a stop
    command, with a grace period of 10, exactly when inspection says it is
    running. Neither sends anything else. On a container already in the
    target state the engine is left as it was, so a second call in a row
    sends nothing. *)
Theorem start_stop_only_when_needed (e : Engine) (n : string) (i : InspectInfo) :
  inspect e n = Some i ->
  (startContainer n e).2 = Resolved
  /\ issued (startContainer n e).1
     = issued e ++ (if Running i then [] else [CmdStart n])
  /\ (Running i = true -> startContainer n e = (e, Resolved))
  /\ startContainer n (startContainer n e).1 = ((startContainer n e).1, Resolved)
  /\ (stopContainer n e).2 = Resolved
  /\ issued (stopContainer n e).1
     = issued e ++ (if Running i then [CmdStop n 10] else [])
  /\ (Running i = false -> stopContainer n e = (e, Resolved))
  /\ stopContainer n (stopContainer n e).1 = ((stopContainer n e).1, Resolved).
Proof.
  intros Hi. unfold startContainer, stopContainer. rewrite Hi.
  destruct (Running i) eqn:Hr; cbn [negb fst snd].
  - rewrite Hi, Hr. cbn [negb]. rewrite (inspect_engineStop n 10 e i Hi).
    cbn [setRunning Running issued engineStop]. rewrite app_nil_r.
    repeat split; try reflexivity. discriminate.
  - rewrite Hi, Hr. rewrite (inspect_engineStart n e i Hi).
    cbn [setRunning Running issued engineStart negb]. rewrite app_nil_r.
    repeat split; try reflexivity. discriminate.
Qed.

Lemma start_stop_only_when_needed_witness :
  let e := engineWith "media-pipeline" false in
  let i := {| Running := false; HealthStatus := None;
              StartedAt := Some (js "2025-01-01T00:00:00.000Z");
              FinishedAt := None; Env := None |} in
  inspect e "media-pipeline" = Some i
  /\ issued (startContainer "media-pipeline" e).1 = [CmdStart "media-pipeline"]
  /\ issued (startContainer "media-pipeline"
               (startContainer "media-pipeline" e).1).1
     = [CmdStart "media-pipeline"]
  /\ issued (stopContainer "media-pipeline" e).1 = [].
Proof.
  intros e i.
  assert (Hi : inspect e "media-pipeline" = Some i) by reflexivity.
  pose proof (start_stop_only_when_needed e "media-pipeline" i Hi)
    as (_ & Hstart & _ & Hagain & _ & Hstop & _).
  split; [exact Hi|]. split; [exact Hstart|]. split; [|exact Hstop].
  rewrite Hagain. exact Hstart.
Defined.

(** A container the engine does not know: both calls are rejected and
    nothing is sent. *)
Lemma start_stop_unknown_container e n :
  inspect e n = None ->
  startContainer n e = (e, Rejected) /\ stopContainer n e = (e, Rejected).
Proof. intros H. unfold startContainer, stopContainer. rewrite H. tauto. Qed.

End DockerFacts.

(** * Closing a push connection *)

Module SseFacts.

Import Sse.

Lemma close_closed c : isClosed c = true -> close c = c.
Proof. intros H. unfold close. rewrite H. reflexivity. Qed.

Lemma isClosed_close c : isClosed (close c) = true.
Proof.
  unfold close. destruct (isClosed c) eqn:E; [exact E|].
  destruct (heartbeatInterval c); cbn;
    destruct (destroyed (res c)); reflexivity.
Qed.

Lemma close_close c : close (close c) = close c.
Proof. apply close_closed, isClosed_close. Qed.

(** Once closed, no step changes anything. *)
Lemma step_closed c s : isClosed c = true -> step c s = c.
Proof.
  intros H. destruct s; cbn [step];
    unfold sendError, fire, heartbeat, sendEvent, sendData, close;
    rewrite ?H; cbn [negb]; try reflexivity.
  destruct (_ && _); reflexivity.
Qed.

Lemma run_closed steps c : isClosed c = true -> run steps c = c.
Proof.
  revert c. induction steps as [|s steps IH]; intros c H; [reflexivity|].
  unfold run in *. cbn [fold_left]. rewrite (step_closed c s H). apply IH, H.
Qed.

(** What holds of a connection made by the constructor, whatever happened
    to it since: while it is open its interval is scheduled and nothing
    was cleared; once closed the interval is gone and was cleared once. *)
Definition tidy (h : nat) (c : Connection) : Prop :=
  heartbeatInterval c = Some h
  /\ if isClosed c then cleared c = [h] /\ h ∉ scheduled c
     else cleared c = [] /\ h ∈ scheduled c.

Lemma tidy_construct r h timers c :
  construct r h timers = Some c -> tidy h c.
Proof.
  unfold tidy, construct. destruct (write _ r); [|discriminate].
  intros [= <-]. cbn. split; [reflexivity|]. split; [reflexivity|].
  apply elem_of_union. right. apply elem_of_singleton. reflexivity.
Qed.

Lemma tidy_withRes h r c : tidy h c -> tidy h (withRes r c).
Proof. unfold tidy, withRes. cbn. tauto. Qed.

Lemma tidy_close h c : tidy h c -> tidy h (close c).
Proof.
  intros [Hh Hc]. unfold close. destruct (isClosed c) eqn:E.
  - unfold tidy. rewrite E. tauto.
  - cbn [heartbeatInterval]. rewrite Hh. destruct Hc as [Hcl Hs].
    assert (Ht : tidy h (clearInterval h
               {| res := res c; heartbeatInterval := Some h;
                  isClosed := true; scheduled := scheduled c;
                  cleared := cleared c |})).
    { unfold tidy, clearInterval. cbn. rewrite Hcl. split; [reflexivity|].
      split; [reflexivity|]. apply not_elem_of_difference. right.
      apply elem_of_singleton. reflexivity. }
    destruct (negb _); [apply tidy_withRes|]; exact Ht.
Qed.

Lemma tidy_sendEvent h ev j c : tidy h c -> tidy h (sendEvent ev j c).
Proof.
  intros H. unfold sendEvent. destruct (isClosed c); [exact H|].
  destruct (write _ (res c)) as [r|]; [|apply tidy_close, H].
  destruct (write _ r) as [r'|].
  - apply tidy_withRes, H.
  - apply tidy_close, tidy_withRes, H.
Qed.

Lemma tidy_step h c s : tidy h c -> tidy h (step c s).
Proof.
  intros H. destruct s; cbn [step].
  - apply tidy_close, H.
  - unfold sendData. destruct (isClosed c); [exact H|].
    destruct (write _ (res c)); [apply tidy_withRes|apply tidy_close]; exact H.
  - apply tidy_sendEvent, H.
  - apply tidy_sendEvent, H.
  - unfold heartbeat. destruct (negb _); [apply tidy_sendEvent|]; exact H.
  - unfold fire, heartbeat. destruct (_ && _); [|exact H].
    destruct (negb _); [apply tidy_sendEvent|]; exact H.
Qed.

Lemma tidy_run h steps c : tidy h c -> tidy h (run steps c).
Proof.
  revert c. induction steps as [|s steps IH]; intros c H; [exact H|].
  unfold run in *. cbn [fold_left]. apply IH, tidy_step, H.
Qed.

(** C8. Take any connection made by the constructor and let anything
    happen to it; then close it. Closing it again, any number of times,
    changes nothing; so does every later send, heartbeat or timer firing:
    nothing more is written to the response. The interval handle was
    passed to [clearInterval] once in all, and is no longer scheduled. *)
Theorem close_is_idempotent_and_final
    (r : Response) (h : nat) (timers : gset nat) (c0 : Connection)
    (before after : list Step) (n : nat) :
  construct r h timers = Some c0 ->
  let c := close (run before c0) in
  Nat.iter n close c = c
  /\ run after c = c
  /\ written (res (run after c)) = written (res c)
  /\ cleared (run after c) = [h]
  /\ (h ∉ scheduled (run after c))
  /\ isClosed (run after c) = true.
Proof.
  intros Hc0 c.
  assert (Hclosed : isClosed c = true) by apply isClosed_close.
  assert (Htidy : tidy h c)
    by (apply tidy_close, tidy_run, (tidy_construct r h timers c0 Hc0)).
  rewrite (run_closed after c Hclosed).
  destruct Htidy as [_ Ht]. rewrite Hclosed in Ht. destruct Ht as [Hcl Hs].
  split; [|repeat split; assumption || reflexivity].
  induction n as [|n IH]; [reflexivity|].
  change (Nat.iter (S n) close c) with (close (Nat.iter n close c)).
  rewrite IH. apply close_closed, Hclosed.
Qed.

Definition openResponse : Response :=
  {| destroyed := false; ended := false; writeThrows := false; written := [] |}.

Definition fresh7 : Connection :=
  {| res := {| destroyed := false; ended := false; writeThrows := false;
               written := [js "retry: 3000" ++ [LF; LF]] |};
     heartbeatInterval := Some 7%nat; isClosed := false;
     scheduled := {[7%nat]}; cleared := [] |}.

Lemma close_is_idempotent_and_final_witness :
  let before := [SendData (js "{}"); Heartbeat (js "{}")] in
  let after := [Close; Heartbeat (js "{}"); Fire 7 (js "{}"); SendData (js "{}")] in
  let c := close (run before fresh7) in
  construct openResponse 7 ∅ = Some fresh7
  /\ Nat.iter 3 close c = c
  /\ run after c = c
  /\ written (res (run after c)) = written (res c)
  /\ cleared (run after c) = [7%nat]
  /\ (7%nat ∉ scheduled (run after c))
  /\ isClosed (run after c) = true.
Proof.
  intros before after c.
  assert (H0 : construct openResponse 7 ∅ = Some fresh7).
  { unfold construct, fresh7, openResponse. cbn.
    rewrite (left_id_L ∅ (∪)). reflexivity. }
  split; [exact H0|].
  exact (close_is_idempotent_and_final openResponse 7 ∅ fresh7 before after 3 H0).
Defined.

(** The first close of an open connection is where the timer goes. *)
Example close_twice_after_traffic :
  let c := run [SendData (js "{}"); Heartbeat (js "{}"); Close; Close;
                Heartbeat (js "{}"); Fire 7 (js "{}"); SendData (js "{}")]
               fresh7 in
  written (res c)
  = [js "retry: 3000" ++ [LF; LF]; js "data: {}" ++ [LF; LF];
     js "event: ping" ++ [LF]; js "data: {}" ++ [LF; LF]]
  /\ cleared c = [7%nat] /\ ended (res c) = true.
Proof. vm_compute. repeat split; reflexivity. Qed.

End SseFacts.

(** * The status projection *)

Module StatusFacts.

Import Docker StatusRoute.

(** *** [parseInt] on integer literals *)







(** From 2^53 on, [roundToDouble] gives a double (53 significant bits at
    the exponent of the number) at most half a unit in the last place
    away. *)
Lemma roundToDouble_nearest m :
  2 ^ 53 <= m ->
  let e := Z.log2 m - 52 in
  (exists k, 2 ^ 52 <= k <= 2 ^ 53 /\ roundToDouble m = k * 2 ^ e)
  /\ 2 * Z.abs (roundToDouble m - m) <= 2 ^ e.
Proof.
  intros Hm e. unfold roundToDouble.
  rewrite (proj2 (Z.ltb_ge _ _) Hm). fold e.
  assert (Hpos : 0 < m) by (assert (0 < 2 ^ 53) by (apply Z.pow_pos_nonneg; lia); lia).
  pose proof (Z.log2_spec m Hpos) as [Hlo Hhi].
  assert (HL : 53 <= Z.log2 m).
  { apply Z.log2_le_pow2; [exact Hpos|exact Hm]. }
  assert (He : 1 <= e) by (unfold e; lia).
  set (P := 2 ^ (e - 1)).
  assert (HP : 0 < P) by (apply Z.pow_pos_nonneg; lia).
  assert (H2e : 2 ^ e = 2 * P).
  { unfold P. replace e with (Z.succ (e - 1)) at 1 by lia.
    apply Z.pow_succ_r. lia. }
  assert (HloE : 2 ^ Z.log2 m = 2 ^ 52 * (2 * P)).
  { rewrite <- H2e, <- Z.pow_add_r by lia. f_equal. unfold e. lia. }
  assert (HhiE : 2 ^ Z.succ (Z.log2 m) = 2 ^ 53 * (2 * P)).
  { rewrite <- H2e, <- Z.pow_add_r by lia. f_equal. unfold e. lia. }
  rewrite HloE in Hlo. rewrite HhiE in Hhi. rewrite H2e.
  pose proof (Z.div_mod m (2 * P) ltac:(lia)) as Hdm.
  pose proof (Z.mod_pos_bound m (2 * P) ltac:(lia)) as Hr.
  set (q := m / (2 * P)) in *. set (r := m mod (2 * P)) in *.
  assert (Hq : 2 ^ 52 <= q < 2 ^ 53).
  { change (2 ^ 52) with 4503599627370496 in *.
    change (2 ^ 53) with 9007199254740992 in *. nia. }
  change (2 ^ 52) with 4503599627370496 in *.
  change (2 ^ 53) with 9007199254740992 in *.
  destruct (r <? P) eqn:E1; [apply Z.ltb_lt in E1|apply Z.ltb_ge in E1].
  - split; [exists q; split; [lia|reflexivity]|]. nia.
  - destruct (P <? r) eqn:E2; [apply Z.ltb_lt in E2|apply Z.ltb_ge in E2].
    + split; [exists (q + 1); split; [lia|reflexivity]|]. nia.
    + destruct (Z.even q).
      * split; [exists q; split; [lia|reflexivity]|]. nia.
      * split; [exists (q + 1); split; [lia|reflexivity]|]. nia.
Qed.


(** *** The environment scan *)


Lemma startsWith_app s p : startsWith (p ++ s) p = true.
Proof.
  induction p as [|c p IH]; [destruct s; reflexivity|].
  cbn. rewrite N.eqb_refl. exact IH.
Qed.




(** *** The table *)




(** The engine of the test suite: every name inspects alike. *)
Definition mockInfo : InspectInfo :=
  {| Running := true; HealthStatus := Some healthy;
     StartedAt := Some (js "2025-01-01T00:00:00.000Z"); FinishedAt := None;
     Env := Some [js "CLEAN_JOBS=4"] |}.

Definition defaults : Config :=
  {| pipelineContainer := "media-pipeline"; gluetunContainer := "gluetun";
     torContainer := "torproxy"; appVersion := "1.0.0" |}.

Definition mockEngine : Engine :=
  {| containers :=
       {[ "media-pipeline" := mockInfo; "gluetun" := mockInfo;
          "torproxy" := mockInfo ]};
     issued := [] |}.





Definition engineOf (i : InspectInfo) : Engine :=
  {| containers :=
       {[ "media-pipeline" := i; "gluetun" := mockInfo; "torproxy" := mockInfo ]};
     issued := [] |}.


(** *** The status stream *)

(** Recomputing the same status twice in a row, with nothing in between,
    pushes it at most once. *)
Lemma recompute_twice c st r :
  recompute c st (recompute c st r) = recompute c st r.
Proof.
  unfold recompute. destruct (lastStatus r) as [last|] eqn:E.
  - destruct (differs st last) eqn:D.
    + cbn [lastStatus setLast]. unfold differs.
      rewrite bool_decide_eq_true_2 by reflexivity. reflexivity.
    + rewrite E, D. reflexivity.
  - cbn [lastStatus setLast]. unfold differs.
    rewrite bool_decide_eq_true_2 by reflexivity. reflexivity.
Qed.

Definition statusUp : Status := getCurrentStatus defaults mockEngine.

Definition statusStopped : Status :=
  getCurrentStatus defaults
    (engineOf {| Running := false; HealthStatus := None;
                 StartedAt := Some (js "2025-01-01T00:00:00.000Z");
                 FinishedAt := Some (js "2025-01-01T06:00:00.000Z");
                 Env := Some [js "CLEAN_JOBS=4"] |}).

(** C4, at the inputs where the code breaks it: [lastStatus] belongs to
    the router, not to a connection. Connection 2 was last sent
    [statusUp] and its recomputation gives [statusStopped]: it is sent the
    change in the first run, and not in the second, where connection 1
    recomputed first. In the third run connection 1 is sent [statusUp]
    twice in a row, because connection 2 opened in between with another
    status. *)
Theorem status_streams_share_last_pushed :
  received 2 (streamRun [Open 1 statusUp; Open 2 statusUp;
                         Recompute 2 statusStopped] newRouter)
  = [statusUp; statusStopped]
  /\ received 2 (streamRun [Open 1 statusUp; Open 2 statusUp;
                            Recompute 1 statusStopped;
                            Recompute 2 statusStopped] newRouter)
     = [statusUp]
  /\ received 1 (streamRun [Open 1 statusUp; Open 2 statusStopped;
                            Recompute 1 statusUp; Recompute 1 statusUp] newRouter)
     = [statusUp; statusUp]
  /\ statusUp <> statusStopped.
Proof.
  split; [vm_compute; reflexivity|]. split; [vm_compute; reflexivity|].
  split; [vm_compute; reflexivity|]. vm_compute. discriminate.
Qed.

End StatusFacts.

(** * Further properties of the log framers *)

Section FramerMore.

Variable utf8 : list byte -> jsstring.

(** The retained bytes and the lines read do not depend on how entries are
    built. *)
Lemma processG_lines {X} (mk : Level -> jsstring -> X) b c :
  processG utf8 mk b c
  = ((processG utf8 (fun lv l => (lv, l)) b c).1,
     map (fun p => mk p.1 p.2) (processG utf8 (fun lv l => (lv, l)) b c).2).
Proof.
  exact (processG_map utf8 (fun p : Level * jsstring => mk p.1 p.2)
           (fun lv l => (lv, l)) b c).
Qed.

Lemma take_drop_bytes (b : list byte) q :
  b = take (Z.to_nat q) b ++ subarrayFrom b q.
Proof. unfold subarrayFrom. symmetry. apply take_drop. Qed.

Lemma blen_take (b : list byte) q :
  0 <= q <= blen b -> blen (take (Z.to_nat q) b) = q.
Proof. unfold blen. intros H. rewrite length_take. lia. Qed.

(** The loop does the same on the bytes it went through as on the whole
    buffer. *)
Lemma whileG_take {X} (mk : Level -> jsstring -> X) fuel b p q out :
  0 <= p <= blen b ->
  whileG utf8 mk fuel b p = (q, out) ->
  whileG utf8 mk fuel (take (Z.to_nat q) b) p = (q, out).
Proof.
  revert p q out. induction fuel as [|fuel IH]; intros p q out Hp Hrun.
  - exact Hrun.
  - pose proof (whileG_range utf8 mk (S fuel) b p Hp) as Hr.
    rewrite Hrun in Hr. cbn [fst] in Hr.
    cbn [whileG] in Hrun |- *. rewrite (blen_take b q) by lia.
    destruct (p <? blen b) eqn:E1; cycle 1.
    { inversion Hrun; subst. replace (q <? q) with false by lia. reflexivity. }
    destruct (blen b - p <? 8) eqn:E2.
    { inversion Hrun; subst. replace (q <? q) with false by lia. reflexivity. }
    pose proof (readUInt32BE_nonneg b (p + 4)) as Hsz.
    set (size := readUInt32BE b (p + 4)) in *.
    destruct (blen b - p <? 8 + size) eqn:E3.
    { inversion Hrun; subst. replace (q <? q) with false by lia. reflexivity. }
    pose proof (whileG_range utf8 mk fuel b (p + (8 + size)) ltac:(lia)) as Hr'.
    destruct (whileG utf8 mk fuel b (p + (8 + size))) as [q0 out0] eqn:Erec.
    inversion Hrun; subst q out. cbn [fst] in Hr'.
    pose proof (take_drop_bytes b q0) as Hb.
    pose proof (blen_take b q0 ltac:(lia)) as Hlen.
    set (b0 := take (Z.to_nat q0) b) in *.
    assert (Hread : readUInt32BE b0 (p + 4) = size).
    { unfold size. rewrite Hb at 1. symmetry.
      apply readUInt32BE_app_l; lia. }
    replace (p <? q0) with true by lia.
    replace (q0 - p <? 8) with false by lia.
    rewrite Hread. replace (q0 - p <? 8 + size) with false by lia.
    pose proof (IH (p + (8 + size)) q0 out0 ltac:(lia) Erec) as Hrec.
    fold b0 in Hrec. rewrite Hrec.
    f_equal. f_equal. rewrite Hb at 1. symmetry.
    apply frameG_app_l; lia.
Qed.

(** One call cuts its input in two: the bytes consumed, which are whole
    frames and alone give the same output, and the bytes retained. *)
Lemma processG_split {X} (mk : Level -> jsstring -> X) b :
  exists consumed,
    b = consumed ++ (processG utf8 mk [] b).1
    /\ processG utf8 mk [] consumed = ([], (processG utf8 mk [] b).2).
Proof.
  destruct (whileG utf8 mk (length b) b 0) as [q out] eqn:E.
  pose proof (whileG_range utf8 mk (length b) b 0) as Hr. rewrite E in Hr.
  pose proof (blen_nonneg b) as Hb. cbn [fst] in Hr. specialize (Hr ltac:(lia)).
  rewrite (processG_eq utf8 mk b q out E). cbn [fst snd].
  exists (take (Z.to_nat q) b). split; [apply take_drop_bytes|].
  pose proof (whileG_take mk (length b) b 0 q out ltac:(lia) E) as Ht.
  rewrite (processG_eq utf8 mk (take (Z.to_nat q) b) q out).
  - f_equal. rewrite <- (blen_take b q) at 2 by lia. apply subarrayFrom_all.
  - rewrite <- Ht. apply whileG_fuel; [lia| |];
      rewrite (blen_take b q) by lia; unfold blen in *;
      rewrite ?length_take; lia.
Qed.

(** What a call retains holds no complete frame: a call with nothing new
    sends nothing and retains the same. *)
Lemma processG_retained_idle {X Y} (mk : Level -> jsstring -> X)
    (mk' : Level -> jsstring -> Y) b :
  processG utf8 mk' (processG utf8 mk [] b).1 []
  = ((processG utf8 mk [] b).1, []).
Proof.
  rewrite (processG_lines mk [] b). cbn [fst].
  rewrite (processG_lines mk' _ []).
  pose proof (processG_app utf8 (fun lv l => (lv, l)) b []) as H.
  rewrite app_nil_r in H.
  destruct (processG utf8 (fun lv l => (lv, l)) [] b) as [r o].
  cbn [fst snd] in *.
  destruct (processG utf8 (fun lv l => (lv, l)) r []) as [r' o'].
  injection H as Hr Ho. cbn [fst snd].
  assert (o' = []) as ->.
  { apply (f_equal (@length _)) in Ho. rewrite length_app in Ho.
    destruct o'; [reflexivity|]. cbn in Ho. lia. }
  subst r'. reflexivity.
Qed.

End FramerMore.

(** *** Reading frames off arbitrary bytes *)

Lemma byteOfZ_byte z x : z mod 256 = Z.of_N (Byte.to_N x) -> byteOfZ z = x.
Proof.
  intros H. unfold byteOfZ. rewrite H, N2Z.id, Byte.of_to_N. reflexivity.
Qed.

(** The four bytes of a length field are the big-endian encoding of the
    number read from them. *)
Lemma be32_bytes (a b c d : byte) :
  be32 (Z.of_N (Byte.to_N a) * 2 ^ 24 + Z.of_N (Byte.to_N b) * 2 ^ 16
        + Z.of_N (Byte.to_N c) * 2 ^ 8 + Z.of_N (Byte.to_N d))
  = [a; b; c; d].
Proof.
  pose proof (Byte.to_N_bounded a). pose proof (Byte.to_N_bounded b).
  pose proof (Byte.to_N_bounded c). pose proof (Byte.to_N_bounded d).
  set (A := Z.of_N (Byte.to_N a)). set (B := Z.of_N (Byte.to_N b)).
  set (C := Z.of_N (Byte.to_N c)). set (D := Z.of_N (Byte.to_N d)).
  assert (HA : 0 <= A < 256) by (unfold A; lia).
  assert (HB : 0 <= B < 256) by (unfold B; lia).
  assert (HC : 0 <= C < 256) by (unfold C; lia).
  assert (HD : 0 <= D < 256) by (unfold D; lia).
  unfold be32. change (2 ^ 24) with 16777216. change (2 ^ 16) with 65536.
  change (2 ^ 8) with 256.
  repeat (apply f_equal2; [|try reflexivity]);
    apply byteOfZ_byte; fold A B C D; Z.div_mod_to_equations; lia.
Qed.

Section Decode.

Variable utf8 : list byte -> jsstring.
Context {X : Type}.
Variable mk : Level -> jsstring -> X.

(** Where the loop stops at once: fewer than 8 bytes, or fewer than the
    header announces. *)
Definition noFrameAtHead (b : list byte) : Prop :=
  blen b < 8 \/ blen b < 8 + readUInt32BE b 4.

Lemma processG_stuck b :
  noFrameAtHead b -> processG utf8 mk [] b = (b, []).
Proof.
  intros Hstuck. rewrite (processG_eq utf8 mk b 0 []); [reflexivity|].
  destruct (length b) as [|n] eqn:En; [reflexivity|].
  cbn [whileG].
  destruct (0 <? blen b); [|reflexivity].
  destruct (blen b - 0 <? 8) eqn:E8; [reflexivity|].
  change (0 + 4) with 4.
  destruct (blen b - 0 <? 8 + readUInt32BE b 4) eqn:Es; [reflexivity|].
  exfalso. apply Z.ltb_ge in E8, Es. destruct Hstuck; lia.
Qed.

(** Bytes that start with a whole frame are the encoding of that frame,
    followed by the rest. *)
Lemma frame_at_head b :
  ~ noFrameAtHead b ->
  exists f rest, frameFits f /\ b = encode f ++ rest.
Proof.
  intros Hn.
  assert (H8 : 8 <= blen b) by (unfold noFrameAtHead in Hn; lia).
  assert (Hs : 8 + readUInt32BE b 4 <= blen b)
    by (unfold noFrameAtHead in Hn; lia).
  destruct b as [|t [|p1 [|p2 [|p3 [|l0 [|l1 [|l2 [|l3 rest]]]]]]]];
    try (unfold blen in H8; cbn [length] in H8; lia).
  set (size := Z.of_N (Byte.to_N l0) * 2 ^ 24 + Z.of_N (Byte.to_N l1) * 2 ^ 16
               + Z.of_N (Byte.to_N l2) * 2 ^ 8 + Z.of_N (Byte.to_N l3)).
  assert (Hread : readUInt32BE (t :: p1 :: p2 :: p3 :: l0 :: l1 :: l2 :: l3 :: rest) 4
                  = size) by reflexivity.
  rewrite Hread in Hs.
  assert (Hsize : 0 <= size < 2 ^ 32).
  { pose proof (Byte.to_N_bounded l0). pose proof (Byte.to_N_bounded l1).
    pose proof (Byte.to_N_bounded l2). pose proof (Byte.to_N_bounded l3).
    unfold size. change (2 ^ 24) with 16777216. change (2 ^ 16) with 65536.
    change (2 ^ 8) with 256. change (2 ^ 32) with 4294967296. lia. }
  assert (Hrest : size <= blen rest)
    by (unfold blen in *; cbn [length] in Hs; lia).
  exists {| tag := t; pad1 := p1; pad2 := p2; pad3 := p3;
            payload := take (Z.to_nat size) rest |},
         (drop (Z.to_nat size) rest).
  assert (Hlen : blen (take (Z.to_nat size) rest) = size)
    by (unfold blen in *; rewrite length_take; lia).
  split; [unfold frameFits; cbn [payload]; lia|].
  unfold encode, header. cbn [tag pad1 pad2 pad3 payload]. rewrite Hlen.
  unfold size. rewrite be32_bytes. cbn [app]. fold size.
  rewrite take_drop. reflexivity.
Qed.

(** One call on any bytes: the bytes are whole frames followed by what is
    retained, the entries are those of these frames, and what is retained
    does not start with a whole frame. *)
Lemma processG_decode b :
  exists fs,
    Forall frameFits fs
    /\ b = encodeFrames fs ++ (processG utf8 mk [] b).1
    /\ (processG utf8 mk [] b).2 = concat (map (ofFrameG utf8 mk) fs)
    /\ noFrameAtHead (processG utf8 mk [] b).1.
Proof.
  remember (length b) as n eqn:Hn. revert b Hn.
  induction n as [n IH] using lt_wf_ind. intros b Hn.
  assert (Hdec : noFrameAtHead b \/ ~ noFrameAtHead b)
    by (unfold noFrameAtHead; lia).
  destruct Hdec as [Hstuck|Hframe].
  - exists []. rewrite (processG_stuck b Hstuck). cbn [fst snd].
    split; [constructor|]. split; [reflexivity|]. split; [reflexivity|].
    exact Hstuck.
  - destruct (frame_at_head b Hframe) as (f & rest & Hf & ->).
    assert (Hlt : (length rest < n)%nat).
    { subst n. rewrite length_app.
      assert (length (encode f) = (8 + length (payload f))%nat)
        by (unfold encode; rewrite length_app; reflexivity).
      lia. }
    destruct (IH (length rest) Hlt rest eq_refl) as (fs & Hfs & Hb & Ho & Hr).
    exists (f :: fs). rewrite processG_app, (processG_encode utf8 mk f Hf).
    destruct (processG utf8 mk [] rest) as [r o]. cbn [fst snd] in *.
    split; [constructor; assumption|]. split.
    + change (encodeFrames (f :: fs)) with (encode f ++ encodeFrames fs).
      rewrite <- app_assoc, <- Hb. reflexivity.
    + split; [|exact Hr]. cbn [map concat]. rewrite Ho. reflexivity.
Qed.

End Decode.

(** X1. For any chunk, on any buffer: the bytes of buffer and chunk are
    whole frames, each of 8 header bytes and the payload its length field
    announces, followed by the bytes retained; the call sends the records
    of these frames, frame by frame, and nothing else; the bytes retained
    do not start with a whole frame (they are fewer than 8, or fewer than
    their header announces). So the frames alone, fed to a fresh framer,
    send what the call sent and leave nothing, and a further call with an
    empty chunk sends nothing and retains the same. *)
Theorem logs_call_splits_its_input
    (utf8 : list byte -> jsstring) (now now' : jsstring)
    (buffer chunk : list byte) :
  let r := processLogData utf8 now buffer chunk in
  exists fs,
    Forall frameFits fs
    /\ buffer ++ chunk = encodeFrames fs ++ r.1
    /\ r.2 = concat (map (entriesOfFrame utf8 now) fs)
    /\ (blen r.1 < 8 \/ blen r.1 < 8 + readUInt32BE r.1 4)
    /\ processLogData utf8 now [] (encodeFrames fs) = ([], r.2)
    /\ processLogData utf8 now' r.1 [] = (r.1, []).
Proof.
  intros r. unfold r. rewrite !processLogData_G.
  rewrite (processG_whole utf8 (entryOf now) buffer chunk).
  destruct (processG_decode utf8 (entryOf now) (buffer ++ chunk))
    as (fs & Hfs & Hb & Ho & Hr).
  exists fs. rewrite !processLogData_G.
  split; [exact Hfs|]. split; [exact Hb|]. split; [exact Ho|].
  split; [exact Hr|]. split.
  - rewrite (processG_encodeFrames utf8 (entryOf now) fs Hfs), Ho. reflexivity.
  - apply processG_retained_idle.
Qed.

(** X2. Boundary independence for arbitrary bytes, well-formed or not,
    complete or cut short: however a byte sequence is cut into chunks, the
    framer retains the same bytes as after one call on the whole
    sequence, and has sent the same lines with the same streams in the same
    order; if all calls read the same clock, it has sent the same
    records. *)
Theorem logs_boundary_independence_any_bytes
    (utf8 : list byte -> jsstring) (now : jsstring)
    (calls : list (jsstring * list byte)) (chunks : list (list byte)) :
  let whole bytes := feed utf8 [(now, bytes)] [] in
  (feed utf8 calls []).1 = (whole (concat (map snd calls))).1
  /\ map textAndStream (feed utf8 calls []).2
     = map textAndStream (whole (concat (map snd calls))).2
  /\ feed utf8 (map (fun c => (now, c)) chunks) [] = whole (concat chunks).
Proof.
  intros whole.
  assert (Hwhole : forall cs,
            whole (concat (map snd cs))
            = ((trace utf8 cs []).1,
               map (fun t => entryOf now t.2.1 t.2.2) (trace utf8 cs []).2)).
  { intros cs. unfold whole. cbn [feed]. rewrite processLogData_G.
    rewrite (whole_trace utf8 (entryOf now) cs). rewrite app_nil_r.
    reflexivity. }
  split; [|split].
  - rewrite Hwhole, feed_trace. reflexivity.
  - rewrite Hwhole, feed_trace. cbn [snd]. rewrite !map_map.
    apply map_ext. intros t. apply textAndStream_clock.
  - replace (concat chunks)
      with (concat (map snd (map (fun c : list byte => (now, c)) chunks)))
      by (rewrite map_map; cbn [snd]; rewrite map_id; reflexivity).
    rewrite Hwhole, feed_trace. f_equal.
    apply map_ext_in. intros t Ht.
    pose proof (trace_clocks utf8 (map (fun c : list byte => (now, c)) chunks) [])
      as Hclk.
    rewrite List.Forall_forall in Hclk. specialize (Hclk t Ht).
    rewrite map_map in Hclk. cbn [fst] in Hclk. apply in_map_iff in Hclk.
    destruct Hclk as (c & Hc & _). rewrite <- Hc. reflexivity.
Qed.

(** *** The one-shot framer on frames *)

Section DemuxMore.

Variable utf8 : list byte -> jsstring.

Definition sourceOfLevel (lv : Level) : Source :=
  match lv with info => stdout | error => stderr end.

Lemma sourceOfLevel_levelOf s : sourceOfLevel (levelOf s) = s.
Proof. destruct s; reflexivity. Qed.

(** [demuxLogs] as an instance of the abstract loop. *)
Definition demuxMk (now : jsstring) (lv : Level) (l : jsstring) : DemuxRecord :=
  demuxLine now (sourceOfLevel lv) l.

Lemma demuxLoop_G fuel now b p :
  demuxLoop utf8 fuel now b p = (whileG utf8 (demuxMk now) fuel b p).2.
Proof.
  revert p. induction fuel as [|fuel IH]; intros p; [reflexivity|].
  cbn [demuxLoop whileG].
  destruct (p <? blen b); [|reflexivity].
  rewrite ltb_shift. destruct (blen b - p <? 8); [reflexivity|].
  rewrite <- Z.add_assoc, ltb_shift.
  destruct (blen b - p <? 8 + readUInt32BE b (p + 4)); [reflexivity|].
  rewrite IH.
  destruct (whileG utf8 (demuxMk now) fuel b (p + (8 + readUInt32BE b (p + 4))))
    as [q out]. cbn [snd]. f_equal. unfold frameG, demuxMk.
  rewrite <- Z.add_assoc. apply map_ext. intros l.
  rewrite sourceOfLevel_levelOf. reflexivity.
Qed.

Lemma demuxLogs_G now b :
  demuxLogs utf8 now b = (processG utf8 (demuxMk now) [] b).2.
Proof.
  unfold demuxLogs, processG. rewrite app_nil_l, demuxLoop_G.
  destruct (whileG utf8 (demuxMk now) (length b) b 0). reflexivity.
Qed.

(** The records [demuxLogs] returns for one frame. *)
Definition recordsOfFrame (now : jsstring) (f : Frame) : list DemuxRecord :=
  map (demuxLine now (sourceOf (Z.of_N (Byte.to_N (tag f)))))
      (linesOf (utf8 (payload f))).

Lemma ofFrameG_demux now f :
  ofFrameG utf8 (demuxMk now) f = recordsOfFrame now f.
Proof.
  unfold ofFrameG, recordsOfFrame, demuxMk. apply map_ext. intros l.
  rewrite sourceOfLevel_levelOf. reflexivity.
Qed.

End DemuxMore.

(** X4. [demuxLogs] on whole frames followed by a frame cut short, at any
    point of its header or payload: the records of the whole frames, frame
    by frame; the bytes of the last frame are dropped without a record and
    without an error. *)
Theorem demuxLogs_drops_a_truncated_tail
    (utf8 : list byte -> jsstring) (now : jsstring)
    (fs : list Frame) (f : Frame) (k : nat) :
  Forall frameFits fs -> frameFits f -> (k < length (encode f))%nat ->
  demuxLogs utf8 now (encodeFrames fs ++ take k (encode f))
  = concat (map (recordsOfFrame utf8 now) fs).
Proof.
  intros Hfs Hf Hk. rewrite demuxLogs_G, processG_app.
  rewrite (processG_encodeFrames utf8 (demuxMk now) fs Hfs).
  rewrite (processG_prefix utf8 (demuxMk now) f k Hf Hk).
  cbn [snd]. rewrite app_nil_r. f_equal. apply map_ext. intros f'.
  apply ofFrameG_demux.
Qed.

Lemma demuxLogs_drops_a_truncated_tail_witness :
  let fs := [frameOut "2025-01-01T00:00:00.5Z up"; frameErr "down"] in
  let f := frameOut "never shown" in
  Forall frameFits fs /\ frameFits f /\ (13 < length (encode f))%nat
  /\ demuxLogs latin1 clockA (encodeFrames fs ++ take 13 (encode f))
     = [ {| timestamp := js "2025-01-01T00:00:00.5Z"; dline := js "up";
            source := stdout |};
         {| timestamp := clockA; dline := js "down"; source := stderr |} ].
Proof.
  intros fs f.
  assert (Hfs : Forall frameFits fs) by (repeat constructor).
  assert (Hf : frameFits f) by reflexivity.
  assert (Hk : (13 < length (encode f))%nat) by (vm_compute; lia).
  split; [exact Hfs|]. split; [exact Hf|]. split; [exact Hk|].
  rewrite (demuxLogs_drops_a_truncated_tail latin1 clockA fs f 13 Hfs Hf Hk).
  vm_compute. reflexivity.
Defined.

(** *** The timestamp pattern and the text of a record *)

Lemma digits_app n s ds r :
  digits n s = Some (ds, r) -> s = ds ++ r /\ length ds = n.
Proof.
  revert s ds r. induction n as [|n IH]; intros s ds r H.
  - injection H as <- <-. split; reflexivity.
  - cbn [digits] in H. destruct s as [|c s]; [discriminate H|].
    destruct (isDigit c); [|discriminate H].
    destruct (digits n s) as [[ds' r']|] eqn:E; [|discriminate H].
    injection H as <- <-. destruct (IH s ds' r' E) as [-> <-].
    split; reflexivity.
Qed.

Lemma lit_app c s r : lit c s = Some r -> s = c :: r.
Proof.
  unfold lit. destruct s as [|c' s]; [discriminate|].
  destruct (c' =? c)%N eqn:E; [|discriminate].
  apply N.eqb_eq in E. intros [= <-]. congruence.
Qed.

Lemma span_app p s a b :
  span p s = (a, b) ->
  s = a ++ b /\ forallb p a = true
  /\ match b with [] => True | c :: _ => p c = false end.
Proof.
  revert a b. induction s as [|c s IH]; intros a b H; cbn [span] in H.
  - injection H as <- <-. repeat split.
  - destruct (p c) eqn:E.
    + destruct (span p s) as [a' b'] eqn:Es. injection H as <- <-.
      destruct (IH a' b' eq_refl) as (-> & Ha & Hb).
      cbn [forallb]. rewrite E, Ha. repeat split. exact Hb.
    + injection H as <- <-. repeat split. exact E.
Qed.

Ltac peel_digits H :=
  cbn [mbind option_bind fst snd] in H;
  lazymatch type of H with
  | (digits ?n ?s ≫= _) = _ =>
      let a := fresh "a" in let r := fresh "r" in let E := fresh "E" in
      destruct (digits n s) as [[a r]|] eqn:E; [|discriminate H];
      apply digits_app in E; destruct E as [-> E]
  end.

Ltac peel_lit H :=
  cbn [mbind option_bind fst snd] in H;
  lazymatch type of H with
  | (lit ?c ?s ≫= _) = _ =>
      let r := fresh "r" in let E := fresh "E" in
      destruct (lit c s) as [r|] eqn:E; [|discriminate H];
      apply lit_app in E; subst s
  end.

(** X5. When the timestamp pattern matches a line, the line is the
    timestamp taken out (at least 22 code units), then a non-empty run of
    white space, then the text kept: nothing but that white space is lost.
    The text holds no line terminator and does not start with white
    space. *)
Theorem matchTimestamp_decomposes (l t rest : jsstring) :
  matchTimestamp l = Some (t, rest) ->
  exists ws,
    l = t ++ ws ++ rest
    /\ ws <> [] /\ forallb isWhiteSpace ws = true
    /\ existsb isLineTerminator rest = false
    /\ match rest with [] => True | c :: _ => isWhiteSpace c = false end
    /\ (22 <= length t)%nat.
Proof.
  intros H. unfold matchTimestamp in H.
  peel_digits H. peel_lit H. peel_digits H. peel_lit H.
  peel_digits H. peel_lit H. peel_digits H. peel_lit H.
  peel_digits H. peel_lit H. peel_digits H. peel_lit H.
  cbn [mbind option_bind fst snd] in H.
  lazymatch type of H with
  | context [span isDigit ?s] =>
      destruct (span isDigit s) as [frac afterFrac] eqn:Ef;
      apply span_app in Ef; destruct Ef as (-> & _ & _)
  end.
  destruct frac as [|d frac]; [discriminate H|]. cbn [truthy negb] in H.
  peel_lit H.
  cbn [mbind option_bind fst snd] in H.
  lazymatch type of H with
  | context [span isWhiteSpace ?s] =>
      destruct (span isWhiteSpace s) as [ws rest'] eqn:Ew;
      apply span_app in Ew; destruct Ew as (-> & Hws & Hhead)
  end.
  destruct ws as [|w ws]; [discriminate H|]. cbn [truthy negb] in H.
  destruct (existsb isLineTerminator rest') eqn:Et; [discriminate H|].
  injection H as <- <-.
  exists (w :: ws). repeat split; try assumption; try discriminate.
  - cbn [app]. repeat first [rewrite <- app_assoc | rewrite <- app_comm_cons].
    reflexivity.
  - repeat (rewrite ?length_app, ?length_cons). cbn [length]. lia.
Qed.

Lemma matchTimestamp_decomposes_witness :
  let l := js "2025-01-01T00:00:00.000000000Z   GET /healthz 200" in
  matchTimestamp l
  = Some (js "2025-01-01T00:00:00.000000000Z", js "GET /healthz 200")
  /\ exists ws,
       l = js "2025-01-01T00:00:00.000000000Z" ++ ws ++ js "GET /healthz 200"
       /\ ws <> [] /\ forallb isWhiteSpace ws = true
       /\ existsb isLineTerminator (js "GET /healthz 200") = false
       /\ match js "GET /healthz 200" with
          | [] => True
          | c :: _ => isWhiteSpace c = false
          end
       /\ (22 <= length (js "2025-01-01T00:00:00.000000000Z"))%nat.
Proof.
  intros l.
  assert (H : matchTimestamp l
              = Some (js "2025-01-01T00:00:00.000000000Z", js "GET /healthz 200"))
    by (vm_compute; reflexivity).
  split; [exact H|].
  exact (matchTimestamp_decomposes l _ _ H).
Defined.

Lemma linesOf_line data l :
  In l (linesOf data) -> ~ In LF l /\ forallb isWhiteSpace l = false.
Proof.
  unfold linesOf. intros H. apply filter_In in H. destruct H as [Hin Ht].
  split; [exact (split_no_sep LF data l Hin)|].
  rewrite truthy_trim in Ht. apply negb_true_iff in Ht. exact Ht.
Qed.

Lemma whileG_reads_lines utf8 fuel b p :
  Forall (fun q : Level * jsstring =>
            ~ In LF q.2 /\ forallb isWhiteSpace q.2 = false)
         (whileG utf8 (fun lv l => (lv, l)) fuel b p).2.
Proof.
  revert p. induction fuel as [|fuel IH]; intros p; [constructor|].
  cbn [whileG].
  destruct (p <? blen b); [|constructor].
  destruct (blen b - p <? 8); [constructor|].
  destruct (blen b - p <? 8 + readUInt32BE b (p + 4)); [constructor|].
  specialize (IH (p + (8 + readUInt32BE b (p + 4)))).
  destruct (whileG utf8 _ fuel b (p + (8 + readUInt32BE b (p + 4)))) as [q out].
  cbn [snd] in *. apply Forall_app. split; [|exact IH].
  unfold frameG. apply List.Forall_forall. intros x Hx.
  apply in_map_iff in Hx. destruct Hx as (l & <- & Hl). cbn [snd].
  exact (linesOf_line _ l Hl).
Qed.

Lemma entryOf_line now lv l : ~ In LF l -> ~ In LF (line (entryOf now lv l)).
Proof.
  intros Hl. unfold entryOf. destruct (matchTimestamp l) as [[t rest]|] eqn:E.
  - cbn [line]. destruct (matchTimestamp_decomposes l t rest E) as (ws & -> & _).
    intros H. apply Hl. apply in_or_app. right. apply in_or_app. right. exact H.
  - exact Hl.
Qed.

(** X6. Whatever the bytes and however they arrive, every record a call
    sends is one line: its text holds no line feed, whether the text is a
    whole payload line or what follows the timestamp taken out of it. *)
Theorem logs_records_are_single_lines
    (utf8 : list byte -> jsstring) (now : jsstring) (buffer chunk : list byte) :
  Forall (fun e => ~ In LF (line e))
         (processLogData utf8 now buffer chunk).2.
Proof.
  rewrite processLogData_G, (processG_lines utf8 (entryOf now)). cbn [snd].
  unfold processG.
  pose proof (whileG_reads_lines utf8 (length (buffer ++ chunk))
                (buffer ++ chunk) 0) as H.
  destruct (whileG utf8 _ (length (buffer ++ chunk)) (buffer ++ chunk) 0)
    as [q out]. cbn [snd] in *.
  apply List.Forall_forall. intros e He. apply in_map_iff in He.
  destruct He as (x & <- & Hx). rewrite List.Forall_forall in H.
  apply entryOf_line. exact (proj1 (H x Hx)).
Qed.

(** * Further properties of the link store *)

Module LinkStoreMore.

Import Files LinkStore.

(** *** Well-formed strings *)

(** A string that holds no lone surrogate. *)
Definition wellFormed (s : list N) : Prop := isWellFormed s = true.

(** A disk as the runtime reads it: the artifact is a well-formed
    string. *)
Definition readable (d : Disk) : Prop :=
  match links d with Some c => wellFormed c | None => True end.

(** A code unit that is no surrogate. *)
Definition plain (c : N) : Prop :=
  isHighSurrogate c = false /\ isLowSurrogate c = false.

Lemma plain_LF : plain LF.
Proof. split; reflexivity. Qed.

Lemma plain_whiteSpace c : isWhiteSpace c = true -> plain c.
Proof.
  intros H. unfold isWhiteSpace, isLineTerminator in H.
  repeat rewrite ?orb_true_iff, ?andb_true_iff, ?N.eqb_eq, ?N.leb_le in H.
  unfold plain, isHighSurrogate, isLowSurrogate.
  split; apply andb_false_iff; rewrite !N.leb_gt; lia.
Qed.

Lemma isWellFormed_cons_plain c s :
  plain c -> isWellFormed (c :: s) = isWellFormed s.
Proof. intros [Hh Hl]. cbn [isWellFormed]. rewrite Hh, Hl. reflexivity. Qed.

(** Cutting a string at a code unit that is no surrogate cuts no pair. *)
Lemma isWellFormed_cut a x b :
  plain x ->
  isWellFormed (a ++ x :: b) = isWellFormed a && isWellFormed b.
Proof.
  intros Hx. remember (length a) as n eqn:Hn. revert a Hn.
  induction n as [n IH] using lt_wf_ind. intros a Hn.
  destruct a as [|c a].
  - cbn [app]. rewrite (isWellFormed_cons_plain x b Hx). reflexivity.
  - cbn [app isWellFormed]. destruct (isHighSurrogate c).
    + destruct a as [|e a].
      * cbn [app]. destruct Hx as [_ Hl]. rewrite Hl. reflexivity.
      * cbn [app]. rewrite (IH (length a)); [apply andb_assoc| |reflexivity].
        subst n. cbn [length]. lia.
    + rewrite (IH (length a)); [apply andb_assoc| |reflexivity].
      subst n. cbn [length]. lia.
Qed.

Lemma wellFormed_app a b :
  wellFormed a -> wellFormed b -> wellFormed (a ++ b).
Proof.
  unfold wellFormed. intros Ha Hb.
  remember (length a) as n eqn:Hn. revert a Hn Ha.
  induction n as [n IH] using lt_wf_ind. intros a Hn Ha.
  destruct a as [|c a]; [exact Hb|].
  cbn [app isWellFormed] in *. destruct (isHighSurrogate c).
  - destruct a as [|e a]; [discriminate Ha|].
    apply andb_true_iff in Ha. destruct Ha as [He Ha].
    cbn [app]. rewrite He. cbn [andb].
    apply (IH (length a)); [subst n; cbn [length]; lia|reflexivity|exact Ha].
  - apply andb_true_iff in Ha. destruct Ha as [Hc Ha]. rewrite Hc.
    cbn [andb].
    apply (IH (length a)); [subst n; cbn [length]; lia|reflexivity|exact Ha].
Qed.

Lemma wellFormed_LF : wellFormed [LF].
Proof. reflexivity. Qed.

Lemma wellFormed_trimStart s : wellFormed s -> wellFormed (trimStart s).
Proof.
  unfold wellFormed. induction s as [|c s IH]; intros H; [exact H|].
  cbn [trimStart]. destruct (isWhiteSpace c) eqn:W; [|exact H].
  apply IH. rewrite <- H. symmetry.
  apply isWellFormed_cons_plain, plain_whiteSpace, W.
Qed.

Lemma trimEnd_rest s :
  exists ws, s = trimEnd s ++ ws /\ forallb isWhiteSpace ws = true.
Proof.
  induction s as [|c s (ws & Hs & Hws)]; [exists []; split; reflexivity|].
  cbn [trimEnd]. destruct (trimEnd s) as [|e t] eqn:E.
  - destruct (isWhiteSpace c) eqn:W.
    + exists (c :: ws). cbn [app forallb]. rewrite W, Hws.
      split; [rewrite Hs at 1; reflexivity|reflexivity].
    + exists ws. split; [rewrite Hs at 1; reflexivity|exact Hws].
  - exists ws. split; [rewrite Hs at 1; reflexivity|exact Hws].
Qed.

Lemma wellFormed_trimEnd s : wellFormed s -> wellFormed (trimEnd s).
Proof.
  unfold wellFormed. intros H.
  destruct (trimEnd_rest s) as (ws & Hs & Hws).
  destruct ws as [|w ws]; [rewrite app_nil_r in Hs; rewrite <- Hs; exact H|].
  cbn [forallb] in Hws. apply andb_true_iff in Hws. destruct Hws as [Hw _].
  rewrite Hs, (isWellFormed_cut _ w ws (plain_whiteSpace w Hw)) in H.
  apply andb_true_iff in H. apply H.
Qed.

Lemma wellFormed_trim s : wellFormed s -> wellFormed (trim s).
Proof. intros H. apply wellFormed_trimEnd, wellFormed_trimStart, H. Qed.

Lemma first_occurrence (x : N) s :
  In x s -> exists a r, s = a ++ x :: r /\ ~ In x a.
Proof.
  induction s as [|c s IH]; intros H; [destruct H|].
  destruct (N.eq_dec c x) as [->|Hne].
  - exists [], s. split; [reflexivity|intros []].
  - destruct H as [H|H]; [congruence|].
    destruct (IH H) as (a & r & -> & Ha).
    exists (c :: a), r. split; [reflexivity|].
    intros [Hc|Hc]; [congruence|exact (Ha Hc)].
Qed.

Lemma wellFormed_split s :
  wellFormed s -> Forall wellFormed (split LF s).
Proof.
  remember (length s) as n eqn:Hn. revert s Hn.
  induction n as [n IH] using lt_wf_ind. intros s Hn H.
  destruct (List.in_dec N.eq_dec LF s) as [Hin|Hnin].
  - destruct (first_occurrence LF s Hin) as (a & r & -> & Ha).
    rewrite (split_app_sep LF a r Ha).
    unfold wellFormed in H. rewrite (isWellFormed_cut a LF r plain_LF) in H.
    apply andb_true_iff in H. destruct H as [H1 H2].
    apply List.Forall_cons; [exact H1|].
    apply (IH (length r)); [|reflexivity|exact H2].
    subst n. rewrite length_app. cbn [length]. lia.
  - rewrite (split_single LF s Hnin).
    apply List.Forall_cons; [exact H|apply List.Forall_nil].
Qed.

(** What a read finds in a well-formed artifact is well formed. *)
Lemma wellFormed_urlsOf c : wellFormed c -> Forall wellFormed (urlsOf c).
Proof.
  intros H. unfold urlsOf. apply List.Forall_forall. intros u Hu.
  apply filter_In in Hu. destruct Hu as [Hu _]. apply in_map_iff in Hu.
  destruct Hu as (l & <- & Hl). apply wellFormed_trim.
  pose proof (wellFormed_split c H) as Hs.
  rewrite List.Forall_forall in Hs. exact (Hs l Hl).
Qed.

Lemma wellFormed_join us :
  Forall wellFormed us -> wellFormed (join [LF] us).
Proof.
  induction 1 as [|u us Hu Hus IH]; [reflexivity|].
  cbn [join]. destruct us as [|v us]; [exact Hu|].
  apply wellFormed_app; [exact Hu|].
  apply wellFormed_app; [exact wellFormed_LF|exact IH].
Qed.

(** What the store writes is well formed when what it read and what it
    was given are. *)
Lemma wellFormed_render us : Forall wellFormed us -> wellFormed (render us).
Proof.
  intros H. unfold render. destruct (0 <? Z.of_nat (length us)); [|reflexivity].
  apply wellFormed_app; [apply wellFormed_join, H|exact wellFormed_LF].
Qed.

Lemma wellFormed_appended cur x :
  wellFormed cur -> wellFormed x -> wellFormed (appended cur x).
Proof.
  intros Hc Hx. unfold appended. apply wellFormed_app; [exact Hc|].
  apply wellFormed_app.
  - destruct (truthy cur && negb (endsWith cur [LF])); reflexivity.
  - apply wellFormed_app; [exact Hx|exact wellFormed_LF].
Qed.

Lemma wellFormed_currentContent d : readable d -> wellFormed (currentContent d).
Proof.
  unfold readable, currentContent. destruct (links d); [tauto|reflexivity].
Qed.

Section More.

Variable sha256hex : list N -> list N.

Local Abbreviation readLinks := (readLinks sha256hex).
Local Abbreviation addLink := (addLink sha256hex).
Local Abbreviation addBulkLinks := (addBulkLinks sha256hex).
Local Abbreviation removeLink := (removeLink sha256hex).
Local Abbreviation storedUrls := (storedUrls sha256hex).
Local Abbreviation generateId := (generateId sha256hex).
Local Abbreviation run := (run sha256hex).

Lemma readable_stored d : readable d -> Forall wellFormed (storedUrls d).
Proof.
  intros H. rewrite (storedUrls_urlsOf sha256hex). unfold readable in H.
  destruct (links d) as [c|]; [apply wellFormed_urlsOf, H|constructor].
Qed.

Lemma readable_written c d :
  wellFormed c -> readable (rename (writeFile c d)).
Proof. intros H. exact H. Qed.

(** X7. [addLink] of a url that is clean (trimmed, not empty, on one line)
    and well formed (no lone surrogate), on a disk as the runtime reads
    it: the id returned is the hash of the url; the url is new exactly
    when no stored line equals it, and then it becomes the last stored
    url, otherwise the stored urls are the same; either way it is stored
    afterwards, what is on the disk is again well formed, so that it is
    read back as written, and a second [addLink] of it answers the same
    id, reports it as not new and leaves the disk as it is. *)
Theorem addLink_clean_url_is_idempotent (u : list N) (d : Disk) :
  clean u -> wellFormed u -> readable d ->
  let r1 := addLink u d in
  r1.2.1 = generateId u
  /\ (r1.2.2 = true <-> ~ In u (storedUrls d))
  /\ storedUrls r1.1
     = (if r1.2.2 then storedUrls d ++ [u] else storedUrls d)
  /\ In u (storedUrls r1.1)
  /\ readable r1.1
  /\ addLink u r1.1 = (r1.1, (generateId u, false)).
Proof.
  intros Hu Hwf Hd r1. unfold r1.
  destruct (List.in_dec (List.list_eq_dec N.eq_dec) u (storedUrls d))
    as [Hin|Hnin].
  - rewrite (addLink_present sha256hex u d Hin). cbn [fst snd].
    split; [reflexivity|]. split.
    { split; [intros H; discriminate H | intros H; destruct (H Hin)]. }
    split; [reflexivity|]. split; [exact Hin|]. split; [exact Hd|].
    apply addLink_present, Hin.
  - destruct (addLink_absent sha256hex u d Hnin) as [Ha Hst].
    specialize (Hst Hu). rewrite Ha in *. cbn [fst snd] in *.
    assert (Hin' : In u (storedUrls (rename (writeFile
                     (appended (currentContent d) u) d))))
      by (rewrite Hst; apply in_or_app; right; left; reflexivity).
    split; [reflexivity|]. split.
    { split; [intros _; exact Hnin | reflexivity]. }
    split; [exact Hst|]. split; [exact Hin'|]. split.
    { apply readable_written, wellFormed_appended;
        [apply wellFormed_currentContent, Hd|exact Hwf]. }
    apply addLink_present, Hin'.
Qed.

(** X9. [addBulkLinks] of urls that are clean and well formed, on a disk
    as the runtime reads it: the urls added are those of the input that no
    stored line equals, in input order; the count returned is their
    number; they are appended after the stored urls; when there is none
    the disk is left as it is, with no call to change it; and what is on
    the disk afterwards is again well formed, so that it is read back as
    written. *)
Theorem addBulkLinks_appends_what_is_new (us : list (list N)) (d : Disk) :
  Forall clean us -> Forall wellFormed us -> readable d ->
  let new :=
    List.filter (fun u => negb (bool_decide (u ∈ storedUrls d))) us in
  (addBulkLinks us d).2 = Z.of_nat (length new)
  /\ storedUrls (addBulkLinks us d).1 = storedUrls d ++ new
  /\ (new = [] -> (addBulkLinks us d).1 = d)
  /\ readable (addBulkLinks us d).1.
Proof.
  intros Hc Hwf Hd new. unfold Files.addBulkLinks.
  assert (Hnew : List.filter
            (fun u => negb (bool_decide
               (u ∈ (list_to_set (map url (readLinks d)) : gset (list N))))) us
            = new).
  { unfold new. apply filter_ext. intros u. f_equal. apply bool_decide_ext.
    rewrite elem_of_list_to_set. reflexivity. }
  rewrite Hnew.
  assert (Hwfnew : Forall wellFormed new).
  { apply List.Forall_forall. intros x Hx. apply filter_In in Hx.
    rewrite List.Forall_forall in Hwf. apply Hwf, Hx. }
  destruct (Z.of_nat (length new) =? 0) eqn:E.
  - apply Z.eqb_eq in E. destruct new as [|x new']; [|cbn in E; lia].
    cbn [fst snd length]. rewrite app_nil_r.
    split; [reflexivity|]. split; [reflexivity|]. split; [reflexivity|].
    exact Hd.
  - cbn [fst snd]. split; [reflexivity|]. split; [|split].
    + rewrite storedUrls_urlsOf. cbn [links rename writeFile tmp].
      rewrite urlsOf_appended.
      assert (Hfc : Forall clean new).
      { apply List.Forall_forall. intros x Hx. apply filter_In in Hx.
        rewrite List.Forall_forall in Hc. apply Hc, Hx. }
      pose proof (urlsOf_render new Hfc) as Hr. unfold render in Hr.
      destruct (0 <? Z.of_nat (length new)) eqn:E';
        [|apply Z.eqb_neq in E; apply Z.ltb_ge in E'; lia].
      rewrite Hr. f_equal. rewrite storedUrls_urlsOf. unfold currentContent.
      destruct (links d); reflexivity.
    + intros Hn. rewrite Hn in E. discriminate E.
    + apply readable_written, wellFormed_appended;
        [apply wellFormed_currentContent, Hd|apply wellFormed_join, Hwfnew].
Qed.

(** X11. Adding a clean url that is not stored and removing it by the id
    returned gives back the stored urls there were, provided no stored url
    has the same id. *)
Theorem add_then_remove_restores_the_list (u : list N) (d : Disk) :
  clean u -> ~ In u (storedUrls d) ->
  (forall v, In v (storedUrls d) -> generateId v <> generateId u) ->
  let added := addLink u d in
  let removed := removeLink added.2.1 added.1 in
  added.2 = (generateId u, true)
  /\ removed.2 = true
  /\ storedUrls removed.1 = storedUrls d.
Proof.
  intros Hu Hnin Hfree added removed. unfold removed, added.
  destruct (addLink_absent sha256hex u d Hnin) as [Ha Hst].
  specialize (Hst Hu). rewrite Ha in *. cbn [fst snd] in *.
  set (d1 := rename (writeFile (appended (currentContent d) u) d)) in *.
  assert (Hin : In u (storedUrls d1))
    by (rewrite Hst; apply in_or_app; right; left; reflexivity).
  rewrite (removeLink_hit sha256hex (generateId u) d1 u Hin eq_refl).
  cbn [fst snd]. split; [reflexivity|]. split; [reflexivity|].
  rewrite storedUrls_after_remove. unfold remaining. rewrite Hst.
  rewrite List.filter_app. cbn [List.filter]. unfold streq at 2.
  rewrite bool_decide_eq_true_2 by reflexivity. cbn [negb].
  rewrite app_nil_r. apply forallb_filter_id. apply forallb_forall.
  intros v Hv. apply negb_true_iff, bool_decide_eq_false. exact (Hfree v Hv).
Qed.

(** What a call writes: [appended] ends with a line feed, [render] is
    empty or ends with one. *)
Definition wholeLines (c : list N) : Prop :=
  c = [] \/ endsWith c [LF] = true.

Lemma endsWith_snoc (s : list N) : endsWith (s ++ [LF]) [LF] = true.
Proof.
  unfold endsWith. rewrite rev_app_distr. cbn [rev app startsWith].
  rewrite N.eqb_refl. destruct (rev s); reflexivity.
Qed.

Lemma appended_wholeLines cur x : wholeLines (appended cur x).
Proof.
  right. unfold appended.
  replace (cur ++ (if truthy cur && negb (endsWith cur [LF]) then [LF] else [])
             ++ x ++ [LF])
    with ((cur ++ (if truthy cur && negb (endsWith cur [LF]) then [LF] else [])
             ++ x) ++ [LF])
    by (repeat rewrite <- app_assoc; reflexivity).
  apply endsWith_snoc.
Qed.

Lemma render_wholeLines us : wholeLines (render us).
Proof.
  unfold render. destruct (0 <? Z.of_nat (length us)).
  - right. apply endsWith_snoc.
  - left. reflexivity.
Qed.

Lemma last_cons_default {A} (x : A) (l : list A) (a : A) :
  List.last (x :: l) a = List.last l x.
Proof.
  revert x a. induction l as [|y l IH]; intros x a; [reflexivity|].
  change (List.last (x :: y :: l) a) with (List.last (y :: l) a).
  rewrite (IH y a), (IH y x). reflexivity.
Qed.

(** One operation either leaves the disk as it is or writes one whole
    content to the temporary file and renames it over the artifact. *)
Lemma step_writes_whole_file op d :
  step sha256hex d op = d
  \/ exists c, wholeLines c
       /\ step sha256hex d op
          = {| links := Some c; tmp := None;
               fslog := fslog d ++ [WriteFile c; Rename] |}.
Proof.
  assert (Hw : forall c, rename (writeFile c d)
            = {| links := Some c; tmp := None;
                 fslog := fslog d ++ [WriteFile c; Rename] |}).
  { intros c. unfold rename, writeFile. cbn. rewrite <- app_assoc.
    reflexivity. }
  destruct op as [u|us|i]; cbn [step].
  - unfold Files.addLink. destruct (find _ _); cbn [fst]; [left; reflexivity|].
    right. eexists. split; [|apply Hw]. apply appended_wholeLines.
  - unfold Files.addBulkLinks.
    match goal with |- context [if ?b then _ else _] => destruct b end;
      cbn [fst]; [left; reflexivity|].
    right. eexists. split; [|apply Hw]. apply appended_wholeLines.
  - unfold Files.removeLink. destruct (find _ _); cbn [fst]; [|left; reflexivity].
    right. eexists. split; [|apply Hw].
    match goal with |- wholeLines (if _ then join _ ?l ++ _ else _) =>
      apply (render_wholeLines l) end.
Qed.

(** X10. Every change of the artifact goes through the temporary file:
    after any run of [addLink], [addBulkLinks] and [removeLink] the calls
    made on the file system are those made before followed by pairs, a
    write of a new content to the temporary file then its rename over the
    artifact; each content written is empty or ends with a line feed; the
    artifact holds the last content written, and no temporary file is
    left. When no pair was issued the disk is the one the run started
    from. *)
Theorem run_writes_then_renames (ops : list Op) (d : Disk) :
  exists cs : list (list N),
    fslog (run ops d)
    = fslog d ++ concat (map (fun c => [WriteFile c; Rename]) cs)
    /\ Forall wholeLines cs
    /\ links (run ops d) = List.last (map Some cs) (links d)
    /\ match cs with
       | [] => run ops d = d
       | _ :: _ => tmp (run ops d) = None
       end.
Proof.
  revert d. induction ops as [|op ops IH]; intros d.
  - exists []. cbn. rewrite app_nil_r. repeat split; constructor.
  - unfold Files.run in *. cbn [fold_left].
    destruct (IH (step sha256hex d op)) as (cs & Hlog & Hall & Hlinks & Htmp).
    destruct (step_writes_whole_file op d) as [Hsame|(c & Hc & Hstep)].
    + rewrite Hsame in *. exists cs. repeat split; assumption.
    + exists (c :: cs).
      split; [rewrite Hlog, Hstep; cbn [fslog map concat];
              rewrite <- app_assoc; reflexivity|].
      split; [constructor; assumption|].
      split.
      * rewrite Hlinks, Hstep. cbn [links map]. symmetry.
        apply last_cons_default.
      * destruct cs as [|c' cs']; [|exact Htmp].
        rewrite Htmp, Hstep. reflexivity.
Qed.

(** X12. The artifact format round-trips. Urls that are clean (trimmed,
    not empty, on one line) and well formed, written in the form
    [removeLink] writes, make a well-formed content and are read back as
    they are, each with the hash of the url as id. Reading any content
    gives clean urls, well formed when the content is; writing the urls
    read in that form and reading again gives the same urls. A missing
    artifact reads as no link. *)
Theorem readLinks_round_trip
    (us : list (list N)) (content : list N) (d : Disk) :
  Forall clean us -> Forall wellFormed us ->
  let written :=
    {| links := Some (render us); tmp := tmp d; fslog := fslog d |} in
  readLinks written = map (fun u => {| id := generateId u; url := u |}) us
  /\ storedUrls written = us
  /\ readable written
  /\ Forall clean (urlsOf content)
  /\ (wellFormed content -> Forall wellFormed (urlsOf content))
  /\ urlsOf (render (urlsOf content)) = urlsOf content
  /\ (links d = None -> readLinks d = []).
Proof.
  intros Hc Hwf written.
  assert (Hread : readLinks written
            = map (fun u => {| id := generateId u; url := u |}) us).
  { unfold written, Files.readLinks. cbn [links].
    rewrite (urlsOf_render us Hc). reflexivity. }
  split; [exact Hread|]. split.
  { unfold Files.storedUrls. rewrite Hread, map_map. apply map_id. }
  split; [exact (wellFormed_render us Hwf)|].
  split; [apply urlsOf_clean|].
  split; [apply wellFormed_urlsOf|].
  split; [apply urlsOf_render, urlsOf_clean|].
  intros Hn. unfold Files.readLinks. rewrite Hn. reflexivity.
Qed.

(** One operation on well-formed input leaves the disk readable. *)
Definition wellFormedOp (op : Op) : Prop :=
  match op with
  | Add u => wellFormed u
  | AddBulk us => Forall wellFormed us
  | Remove _ => True
  end.

Lemma step_readable op d :
  wellFormedOp op -> readable d -> readable (step sha256hex d op).
Proof.
  intros Hop Hd. destruct op as [u|us|i]; cbn [step wellFormedOp] in *.
  - unfold Files.addLink. destruct (find _ _); cbn [fst]; [exact Hd|].
    apply wellFormed_appended; [apply wellFormed_currentContent, Hd|exact Hop].
  - unfold Files.addBulkLinks.
    match goal with |- context [if ?b then _ else _] => destruct b end;
      cbn [fst]; [exact Hd|].
    apply wellFormed_appended; [apply wellFormed_currentContent, Hd|].
    apply wellFormed_join. apply List.Forall_forall. intros x Hx.
    apply filter_In in Hx. rewrite List.Forall_forall in Hop. apply Hop, Hx.
  - unfold Files.removeLink. destruct (find _ _); cbn [fst]; [|exact Hd].
    rewrite remaining_eq.
    apply (wellFormed_render (remaining sha256hex i d)).
    apply List.Forall_forall. intros x Hx. unfold remaining in Hx.
    apply filter_In in Hx. destruct Hx as [Hx _].
    pose proof (readable_stored d Hd) as Hs.
    rewrite List.Forall_forall in Hs. exact (Hs x Hx).
Qed.

(** X8. Uniqueness is kept under the inputs that respect it. When every
    url added is clean and well formed and no bulk input repeats a url, a
    store as the runtime reads it whose urls are pairwise different stays
    so after any sequence of [addLink], [addBulkLinks] and [removeLink],
    and what is on the disk stays well formed, so that every write is read
    back as written. *)
Theorem run_keeps_urls_unique (ops : list Op) (d : Disk) :
  Forall tame ops -> Forall wellFormedOp ops -> readable d ->
  List.NoDup (storedUrls d) ->
  List.NoDup (storedUrls (run ops d)) /\ readable (run ops d).
Proof.
  intros Htame Hwf Hd Hnd.
  split; [exact (run_keeps_unique sha256hex ops d Htame Hnd)|].
  clear Htame Hnd. revert d Hd.
  induction Hwf as [|op ops Hop _ IH]; intros d Hd; [exact Hd|].
  unfold Files.run in *. cbn [fold_left]. apply IH, step_readable; assumption.
Qed.

End More.

Ltac solve_clean :=
  split; [vm_compute; reflexivity|];
  split; [discriminate|];
  let H := fresh "H" in intros H; vm_compute in H; intuition discriminate.

Lemma clean_folder_a : clean (js "https://mega.nz/folder/a").
Proof. solve_clean. Qed.

Lemma clean_folder_b : clean (js "https://mega.nz/folder/b").
Proof. solve_clean. Qed.

Lemma addLink_clean_url_is_idempotent_witness :
  let a := js "https://mega.nz/folder/a" in
  let d := diskWith ["https://mega.nz/folder/b"] in
  let r1 := Files.addLink tagHash a d in
  clean a /\ wellFormed a /\ readable d
  /\ r1.2 = (tagHash a, true)
  /\ Files.storedUrls tagHash r1.1 = [js "https://mega.nz/folder/b"; a]
  /\ readable r1.1
  /\ Files.addLink tagHash a r1.1 = (r1.1, (tagHash a, false)).
Proof.
  intros a d r1.
  assert (Hwf : wellFormed a) by reflexivity.
  assert (Hd : readable d) by reflexivity.
  pose proof (addLink_clean_url_is_idempotent tagHash a d clean_folder_a
                Hwf Hd) as (_ & _ & _ & _ & Hr & H).
  split; [exact clean_folder_a|]. split; [exact Hwf|]. split; [exact Hd|].
  split; [vm_compute; reflexivity|].
  split; [vm_compute; reflexivity|].
  split; [exact Hr|exact H].
Defined.

Lemma run_keeps_urls_unique_witness :
  let a := js "https://mega.nz/folder/a" in
  let b := js "https://mega.nz/folder/b" in
  let ops := [Add a; AddBulk [b; a]; Add b; Remove (tagHash a); Add a] in
  Forall tame ops
  /\ Forall wellFormedOp ops
  /\ readable fresh
  /\ List.NoDup (Files.storedUrls tagHash fresh)
  /\ Files.storedUrls tagHash (Files.run tagHash ops fresh) = [b; a]
  /\ List.NoDup (Files.storedUrls tagHash (Files.run tagHash ops fresh))
  /\ readable (Files.run tagHash ops fresh).
Proof.
  intros a b ops.
  assert (Hab : List.NoDup [b; a]).
  { apply List.NoDup_cons; [intros [H|[]]; discriminate H|].
    apply List.NoDup_cons; [intros []|apply List.NoDup_nil]. }
  assert (Hops : Forall tame ops).
  { pose proof clean_folder_a as Ha. pose proof clean_folder_b as Hb.
    unfold ops.
    apply List.Forall_cons; [exact Ha|].
    apply List.Forall_cons.
    { split; [|exact Hab].
      apply List.Forall_cons; [exact Hb|]. apply List.Forall_cons; [exact Ha|].
      apply List.Forall_nil. }
    apply List.Forall_cons; [exact Hb|].
    apply List.Forall_cons; [exact I|].
    apply List.Forall_cons; [exact Ha|].
    apply List.Forall_nil. }
  assert (Hwf : Forall wellFormedOp ops).
  { unfold ops.
    apply List.Forall_cons; [reflexivity|].
    apply List.Forall_cons.
    { apply List.Forall_cons; [reflexivity|].
      apply List.Forall_cons; [reflexivity|apply List.Forall_nil]. }
    apply List.Forall_cons; [reflexivity|].
    apply List.Forall_cons; [exact I|].
    apply List.Forall_cons; [reflexivity|apply List.Forall_nil]. }
  assert (Hr : readable fresh) by exact I.
  assert (Hd : List.NoDup (Files.storedUrls tagHash fresh)) by constructor.
  destruct (run_keeps_urls_unique tagHash ops fresh Hops Hwf Hr Hd)
    as [Hnd Hrd].
  split; [exact Hops|]. split; [exact Hwf|]. split; [exact Hr|].
  split; [exact Hd|]. split; [vm_compute; reflexivity|].
  split; [exact Hnd|exact Hrd].
Defined.

Lemma addBulkLinks_appends_what_is_new_witness :
  let a := js "https://mega.nz/folder/a" in
  let b := js "https://mega.nz/folder/b" in
  let d := diskWith ["https://mega.nz/folder/b"] in
  Forall clean [a; b] /\ Forall wellFormed [a; b] /\ readable d
  /\ (Files.addBulkLinks tagHash [a; b] d).2 = 1
  /\ Files.storedUrls tagHash (Files.addBulkLinks tagHash [a; b] d).1 = [b; a]
  /\ readable (Files.addBulkLinks tagHash [a; b] d).1
  /\ Files.addBulkLinks tagHash [b] d = (d, 0).
Proof.
  intros a b d.
  assert (Hc : Forall clean [a; b]).
  { apply List.Forall_cons; [exact clean_folder_a|].
    apply List.Forall_cons; [exact clean_folder_b|]. apply List.Forall_nil. }
  assert (Hwf : Forall wellFormed [a; b]).
  { apply List.Forall_cons; [reflexivity|].
    apply List.Forall_cons; [reflexivity|apply List.Forall_nil]. }
  assert (Hd : readable d) by reflexivity.
  pose proof (addBulkLinks_appends_what_is_new tagHash [a; b] d Hc Hwf Hd)
    as (Hn & Hs & _ & Hr).
  split; [exact Hc|]. split; [exact Hwf|]. split; [exact Hd|].
  split; [rewrite Hn; vm_compute; reflexivity|].
  split; [rewrite Hs; vm_compute; reflexivity|].
  split; [exact Hr|].
  vm_compute; reflexivity.
Defined.

Lemma readLinks_round_trip_witness :
  let a := js "https://mega.nz/folder/a" in
  let b := js "https://mega.nz/folder/b" in
  let written :=
    {| links := Some (render [a; b]); tmp := None; fslog := [] |} in
  Forall clean [a; b] /\ Forall wellFormed [a; b]
  /\ render [a; b] = a ++ [LF] ++ b ++ [LF]
  /\ Files.storedUrls tagHash written = [a; b]
  /\ map id (Files.readLinks tagHash written) = [tagHash a; tagHash b].
Proof.
  intros a b written.
  assert (Hc : Forall clean [a; b]).
  { apply List.Forall_cons; [exact clean_folder_a|].
    apply List.Forall_cons; [exact clean_folder_b|]. apply List.Forall_nil. }
  assert (Hwf : Forall wellFormed [a; b]).
  { apply List.Forall_cons; [reflexivity|].
    apply List.Forall_cons; [reflexivity|apply List.Forall_nil]. }
  pose proof (readLinks_round_trip tagHash [a; b] [] fresh Hc Hwf)
    as (Hread & Hst & _).
  split; [exact Hc|]. split; [exact Hwf|]. split; [reflexivity|].
  split; [exact Hst|].
  unfold written. change (@None (list N)) with (tmp fresh).
  change (@nil FsCall) with (fslog fresh). rewrite Hread. reflexivity.
Defined.

Lemma add_then_remove_restores_the_list_witness :
  let a := js "https://mega.nz/folder/a" in
  let d := diskWith ["https://mega.nz/folder/b"] in
  let added := Files.addLink tagHash a d in
  clean a
  /\ Files.storedUrls tagHash d = [js "https://mega.nz/folder/b"]
  /\ Files.storedUrls tagHash added.1 = [js "https://mega.nz/folder/b"; a]
  /\ Files.storedUrls tagHash
       (Files.removeLink tagHash added.2.1 added.1).1
     = Files.storedUrls tagHash d.
Proof.
  intros a d added.
  assert (Hnin : ~ In a (Files.storedUrls tagHash d)).
  { intros H. vm_compute in H. intuition discriminate. }
  assert (Hfree : forall v, In v (Files.storedUrls tagHash d) ->
                            Files.generateId tagHash v
                            <> Files.generateId tagHash a).
  { intros v [<-|[]]. vm_compute. discriminate. }
  pose proof (add_then_remove_restores_the_list tagHash a d clean_folder_a
                Hnin Hfree) as (_ & _ & H).
  split; [exact clean_folder_a|].
  split; [vm_compute; reflexivity|].
  split; [vm_compute; reflexivity|].
  exact H.
Defined.

End LinkStoreMore.

(** * Further properties of push connections *)

Module SseMore.

Import Sse SseFacts.

(** A chunk the connection writes after the retry instruction: a field
    line of the event stream format. *)
Definition fieldLine (chunk : jsstring) : Prop :=
  (startsWith chunk (js "event: ") = true
   \/ startsWith chunk (js "data: ") = true)
  /\ endsWith chunk [LF] = true.

(** [c'] is [c] later on: what was written is still there, with field
    lines after it; the response was ended only by closing; a closed
    connection is still closed. *)
Definition extends (c c' : Connection) : Prop :=
  (exists more, written (res c') = written (res c) ++ more
                /\ Forall fieldLine more)
  /\ destroyed (res c') = destroyed (res c)
  /\ (ended (res c') = true -> ended (res c) = true \/ isClosed c' = true)
  /\ (isClosed c = true -> isClosed c' = true).

Lemma extends_refl c : extends c c.
Proof.
  split; [exists []; rewrite app_nil_r; split; [reflexivity|constructor]|].
  split; [reflexivity|]. split; [intros H; left; exact H|intros H; exact H].
Qed.

Lemma extends_trans a b c : extends a b -> extends b c -> extends a c.
Proof.
  intros ((m1 & Hw1 & Hf1) & Hd1 & He1 & Hc1) ((m2 & Hw2 & Hf2) & Hd2 & He2 & Hc2).
  split.
  { exists (m1 ++ m2). rewrite Hw2, Hw1, <- app_assoc. split; [reflexivity|].
    apply Forall_app. split; assumption. }
  split; [congruence|]. split.
  - intros H. destruct (He2 H) as [H'|H']; [|right; exact H'].
    destruct (He1 H') as [H''|H'']; [left; exact H''|right; apply Hc2, H''].
  - intros H. apply Hc2, Hc1, H.
Qed.

Lemma extends_close c : extends c (close c).
Proof.
  unfold close. destruct (isClosed c) eqn:E; [apply extends_refl|].
  destruct (heartbeatInterval c) as [h|]; cbn;
    destruct (destroyed (res c)) eqn:D; cbn;
    (split; [exists []; rewrite app_nil_r; split; [reflexivity|constructor]|]);
    (split; [first [reflexivity | symmetry; exact D | exact D]|]);
    (split; [intros H; right; reflexivity|intros H; reflexivity]).
Qed.

Lemma fieldLine_data json : fieldLine (js "data: " ++ json ++ [LF; LF]).
Proof.
  split; [right; apply StatusFacts.startsWith_app|].
  replace (js "data: " ++ json ++ [LF; LF])
    with ((js "data: " ++ json ++ [LF]) ++ [LF])
    by (repeat rewrite <- app_assoc; reflexivity).
  unfold endsWith. rewrite rev_app_distr. cbn [rev app startsWith].
  rewrite N.eqb_refl. destruct (rev _); reflexivity.
Qed.

Lemma fieldLine_event event : fieldLine (js "event: " ++ event ++ [LF]).
Proof.
  split; [left; apply StatusFacts.startsWith_app|].
  replace (js "event: " ++ event ++ [LF])
    with ((js "event: " ++ event) ++ [LF])
    by (repeat rewrite <- app_assoc; reflexivity).
  unfold endsWith. rewrite rev_app_distr. cbn [rev app startsWith].
  rewrite N.eqb_refl. destruct (rev _); reflexivity.
Qed.

Lemma extends_write chunk r c :
  fieldLine chunk -> write chunk (res c) = Some r -> extends c (withRes r c).
Proof.
  intros Hf. unfold write. destruct (writeThrows (res c)); [discriminate|].
  intros [= <-]. cbn. split.
  { exists [chunk]. split; [reflexivity|]. constructor; [exact Hf|constructor]. }
  split; [reflexivity|]. split; [intros H; left; exact H|intros H; exact H].
Qed.

Lemma extends_sendData json c : extends c (sendData json c).
Proof.
  unfold sendData. destruct (isClosed c); [apply extends_refl|].
  destruct (write _ (res c)) as [r|] eqn:E.
  - exact (extends_write _ r c (fieldLine_data json) E).
  - apply extends_close.
Qed.

Lemma extends_sendEvent event json c : extends c (sendEvent event json c).
Proof.
  unfold sendEvent. destruct (isClosed c); [apply extends_refl|].
  destruct (write _ (res c)) as [r|] eqn:E; [|apply extends_close].
  pose proof (extends_write _ r c (fieldLine_event event) E) as H1.
  destruct (write _ r) as [r'|] eqn:E'.
  - eapply extends_trans; [exact H1|].
    pose proof (extends_write _ r' (withRes r c) (fieldLine_data json) E') as H2.
    exact H2.
  - eapply extends_trans; [exact H1|apply extends_close].
Qed.

Lemma extends_step c s : extends c (step c s).
Proof.
  destruct s as [|j|e j|j|j|h j]; cbn [step].
  - apply extends_close.
  - apply extends_sendData.
  - apply extends_sendEvent.
  - apply extends_sendEvent.
  - unfold heartbeat. destruct (negb (isClosed c));
      [apply extends_sendEvent|apply extends_refl].
  - unfold fire, heartbeat.
    destruct (_ && _); [|apply extends_refl].
    destruct (negb (isClosed c)); [apply extends_sendEvent|apply extends_refl].
Qed.

(** X13. Whatever happens to a connection (sends, heartbeats, timer
    firings, closes, in any order), what it has written stays and is only
    added to, by chunks that are field lines of the event stream format
    ([event: ...] or [data: ...], ended by a line feed); it never destroys
    the response; the response is ended only when the connection is marked
    closed; and a closed connection is never open again. *)
Theorem connection_output_is_append_only (steps : list Step) (c : Connection) :
  (exists more, written (res (run steps c)) = written (res c) ++ more
                /\ Forall fieldLine more)
  /\ destroyed (res (run steps c)) = destroyed (res c)
  /\ (ended (res (run steps c)) = true ->
      ended (res c) = true \/ isClosed (run steps c) = true)
  /\ (isClosed c = true -> isClosed (run steps c) = true).
Proof.
  change (extends c (run steps c)). revert c.
  induction steps as [|s steps IH]; intros c; [apply extends_refl|].
  unfold run in *. cbn [fold_left].
  eapply extends_trans; [apply extends_step|apply IH].
Qed.

(** X14. A send on an open connection whose response throws on [write]
    closes the connection: nothing is written, the heartbeat interval is
    cleared and no longer scheduled, the response is ended unless it was
    destroyed, and from then on nothing changes the connection. *)
Theorem failed_write_closes_the_connection
    (c : Connection) (h : nat) (event json : jsstring) (later : list Step) :
  isClosed c = false -> writeThrows (res c) = true ->
  heartbeatInterval c = Some h ->
  sendData json c = close c
  /\ sendEvent event json c = close c
  /\ isClosed (close c) = true
  /\ written (res (close c)) = written (res c)
  /\ cleared (close c) = cleared c ++ [h]
  /\ (h ∉ scheduled (close c))
  /\ ended (res (close c)) = (negb (destroyed (res c)) || ended (res c))
  /\ run later (close c) = close c.
Proof.
  intros Ho Ht Hh.
  assert (Hw : forall chunk, write chunk (res c) = None)
    by (intros chunk; unfold write; rewrite Ht; reflexivity).
  split; [unfold sendData; rewrite Ho, Hw; reflexivity|].
  split; [unfold sendEvent; rewrite Ho, Hw; reflexivity|].
  split; [apply isClosed_close|].
  assert (Hrun : run later (close c) = close c)
    by apply run_closed, isClosed_close.
  unfold close in *. rewrite Ho, Hh in *. cbn in *.
  destruct (destroyed (res c)); cbn;
    (split; [reflexivity|]); (split; [reflexivity|]);
    (split; [apply not_elem_of_difference; right;
             apply elem_of_singleton; reflexivity|]);
    (split; [reflexivity|exact Hrun]).
Qed.

Definition brokenPipe : Connection :=
  {| res := {| destroyed := false; ended := false; writeThrows := true;
               written := [js "retry: 3000" ++ [LF; LF]] |};
     heartbeatInterval := Some 7%nat; isClosed := false;
     scheduled := {[7%nat]}; cleared := [] |}.

Lemma failed_write_closes_the_connection_witness :
  isClosed brokenPipe = false
  /\ writeThrows (res brokenPipe) = true
  /\ isClosed (sendData (js "{}") brokenPipe) = true
  /\ written (res (sendData (js "{}") brokenPipe))
     = [js "retry: 3000" ++ [LF; LF]]
  /\ cleared (sendData (js "{}") brokenPipe) = [7%nat]
  /\ ended (res (sendData (js "{}") brokenPipe)) = true.
Proof.
  pose proof (failed_write_closes_the_connection brokenPipe 7 (js "ping")
                (js "{}") [] eq_refl eq_refl eq_refl)
    as (Hd & _ & Hc & Hw & Hcl & _ & He & _).
  rewrite Hd.
  split; [reflexivity|]. split; [reflexivity|]. split; [exact Hc|].
  split; [exact Hw|]. split; [exact Hcl|]. exact He.
Defined.

End SseMore.

(** * The connection registry: [SSEManager] (lib/sse.ts) *)

Module SseManager.

Import Sse.

(** The connection objects live in a store, by address; the manager's
    [connections] is a [Map] from connection id to connection object, kept
    as the list of its entries in insertion order. A route handler keeps
    the address [createConnection] returned, and the object is the same
    one the map refers to. *)
Record Manager :=
  { heap : gmap nat Connection; connections : list (jsstring * nat) }.

Definition emptyManager : Manager := {| heap := ∅; connections := [] |}.

(** [Map.prototype.has], [set] and [delete]: [set] on a key the map has
    replaces the value where the entry is, and appends otherwise. *)
Definition mapHas (k : jsstring) (l : list (jsstring * nat)) : bool :=
  existsb (fun e => streq e.1 k) l.

Definition mapSet (k : jsstring) (v : nat) (l : list (jsstring * nat))
    : list (jsstring * nat) :=
  if mapHas k l then map (fun e => if streq e.1 k then (k, v) else e) l
  else l ++ [(k, v)].

Definition mapDelete (k : jsstring) (l : list (jsstring * nat))
    : list (jsstring * nat) :=
  List.filter (fun e => negb (streq e.1 k)) l.

(** [createConnection(res)]; [connectionId] is the id made of the clock
    and [Math.random()], [h] the handle the runtime gives the heartbeat
    interval. [None]: the constructor threw, before [set]. The address of
    the new object is returned. *)
Definition createConnection (r : Response) (connectionId : jsstring)
    (h : nat) (timers : gset nat) (m : Manager) : option (Manager * nat) :=
  match construct r h timers with
  | Some connection =>
      let a := fresh (dom (heap m) : gset nat) in
      Some ({| heap := <[a := connection]> (heap m);
               connections := mapSet connectionId a (connections m) |}, a)
  | None => None
  end.

(** [res] emits [close]: the listener of the connection at [a] closes it,
    then the listener [createConnection] registered deletes the id. *)
Definition resClosed (connectionId : jsstring) (a : nat) (m : Manager)
    : Manager :=
  {| heap := alter close a (heap m);
     connections := mapDelete connectionId (connections m) |}.

(** One turn of the loops of [broadcast], [broadcastData] and
    [getActiveConnections] over the entries: a connection that is closed
    is deleted from the map, another one is given to [f]. *)
Definition visit (f : Connection -> Connection) (m : Manager)
    (e : jsstring * nat) : Manager :=
  match heap m !! e.2 with
  | Some connection =>
      if isClosed_ connection
      then {| heap := heap m; connections := mapDelete e.1 (connections m) |}
      else {| heap := <[e.2 := f connection]> (heap m);
              connections := connections m |}
  | None => m
  end.

(** [broadcast(event, data)]; [json] is [JSON.stringify(data)]. *)
Definition broadcast (event json : jsstring) (m : Manager) : Manager :=
  fold_left (visit (sendEvent event json)) (connections m) m.

(** [broadcastData(data)] *)
Definition broadcastData (json : jsstring) (m : Manager) : Manager :=
  fold_left (visit (sendData json)) (connections m) m.

(** [getActiveConnections()] *)
Definition getActiveConnections (m : Manager) : Manager * Z :=
  let m' := fold_left (visit (fun c => c)) (connections m) m in
  (m', Z.of_nat (length (connections m'))).

(** [closeAll()] *)
Definition closeAll (m : Manager) : Manager :=
  {| heap := fold_left (fun hp e => alter close e.2 hp) (connections m) (heap m);
     connections := [] |}.

(** What a server does with a manager and its connections. *)
Inductive Call :=
| Create (r : Response) (connectionId : jsstring) (h : nat) (timers : gset nat)
| ResClosed (connectionId : jsstring) (a : nat)
| OnConnection (a : nat) (s : Step)
| Broadcast (event json : jsstring)
| BroadcastData (json : jsstring)
| CountActive
| CloseAll.

Definition call (m : Manager) (c : Call) : Manager :=
  match c with
  | Create r connectionId h timers =>
      match createConnection r connectionId h timers m with
      | Some (m', _) => m'
      | None => m
      end
  | ResClosed connectionId a => resClosed connectionId a m
  | OnConnection a s =>
      {| heap := alter (fun c => step c s) a (heap m);
         connections := connections m |}
  | Broadcast event json => broadcast event json m
  | BroadcastData json => broadcastData json m
  | CountActive => (getActiveConnections m).1
  | CloseAll => closeAll m
  end.

Definition serve (calls : list Call) (m : Manager) : Manager :=
  fold_left call calls m.

(** Whether the connection at [a] is registered as open. *)
Definition closedAt (m : Manager) (a : nat) : bool :=
  match heap m !! a with Some c => isClosed_ c | None => false end.

(** The map has one entry per id, no two entries share a connection
    object, and every entry refers to an object of the store. *)
Definition consistent (m : Manager) : Prop :=
  List.NoDup (map fst (connections m))
  /\ List.NoDup (map snd (connections m))
  /\ (forall e, In e (connections m) -> is_Some (heap m !! e.2)).

End SseManager.

Module SseManagerFacts.

Import Sse SseFacts SseManager.

Lemma mapDelete_keys k l :
  map fst (mapDelete k l) = List.filter (fun x => negb (streq x k)) (map fst l).
Proof.
  unfold mapDelete. induction l as [|e l IH]; [reflexivity|].
  cbn [List.filter map]. destruct (negb (streq e.1 k)); cbn [map];
    rewrite IH; reflexivity.
Qed.

Lemma mapDelete_In k l e : In e (mapDelete k l) -> In e l.
Proof.
  unfold mapDelete. intros H. apply filter_In in H. apply H.
Qed.

Lemma NoDup_filter_list {A} (p : A -> bool) (l : list A) :
  List.NoDup l -> List.NoDup (List.filter p l).
Proof.
  induction 1 as [|x l Hx Hl IH]; cbn [List.filter]; [constructor|].
  destruct (p x); [|exact IH]. constructor; [|exact IH].
  intros H. apply filter_In in H. apply Hx, H.
Qed.

Lemma mapDelete_values k l :
  List.NoDup (map snd l) -> List.NoDup (map snd (mapDelete k l)).
Proof.
  unfold mapDelete. induction l as [|e l IH]; cbn [map List.filter];
    [constructor|].
  intros H. inversion H as [|x xs Hx Hl]; subst.
  destruct (negb (streq e.1 k)); cbn [map]; [|apply IH, Hl].
  constructor; [|apply IH, Hl].
  intros Hin. apply Hx. apply in_map_iff in Hin.
  destruct Hin as (e' & He' & Hin). apply in_map_iff. exists e'.
  split; [exact He'|]. apply filter_In in Hin. apply Hin.
Qed.

Lemma consistent_delete k hp hp' l :
  consistent {| heap := hp; connections := l |} ->
  (forall a, is_Some (hp !! a) -> is_Some (hp' !! a)) ->
  consistent {| heap := hp'; connections := mapDelete k l |}.
Proof.
  intros (Hk & Hv & Hh) Hdom. unfold consistent. cbn [heap connections] in *.
  split; [rewrite mapDelete_keys; apply NoDup_filter_list, Hk|].
  split; [apply mapDelete_values, Hv|].
  intros e He. apply Hdom, Hh, (mapDelete_In k), He.
Qed.

Lemma consistent_heap hp hp' l :
  consistent {| heap := hp; connections := l |} ->
  (forall a, is_Some (hp !! a) -> is_Some (hp' !! a)) ->
  consistent {| heap := hp'; connections := l |}.
Proof.
  intros (Hk & Hv & Hh) Hdom. unfold consistent. cbn [heap connections] in *.
  split; [exact Hk|]. split; [exact Hv|].
  intros e He. apply Hdom, Hh, He.
Qed.

Lemma is_Some_alter (f : Connection -> Connection) a (hp : gmap nat Connection) b :
  is_Some (hp !! b) -> is_Some (alter f a hp !! b).
Proof.
  intros [c Hc]. rewrite lookup_alter. destruct (decide (a = b)) as [->|];
    [rewrite Hc; eexists; reflexivity|rewrite Hc; eexists; reflexivity].
Qed.

Lemma is_Some_insert (c : Connection) a (hp : gmap nat Connection) b :
  is_Some (hp !! b) -> is_Some (<[a := c]> hp !! b).
Proof.
  intros [c' Hc]. rewrite lookup_insert. destruct (decide (a = b));
    [eexists; reflexivity|rewrite Hc; eexists; reflexivity].
Qed.

Lemma consistent_visit f m e : consistent m -> consistent (visit f m e).
Proof.
  intros Hm. unfold visit. destruct (heap m !! e.2) as [c|]; [|exact Hm].
  destruct m as [hp l]. cbn [heap connections] in *.
  destruct (isClosed_ c).
  - apply (consistent_delete _ hp hp l Hm). intros a H; exact H.
  - apply (consistent_heap hp _ l Hm). intros a. apply is_Some_insert.
Qed.

Lemma consistent_fold_visit f l m :
  consistent m -> consistent (fold_left (visit f) l m).
Proof.
  revert m. induction l as [|e l IH]; intros m Hm; [exact Hm|].
  cbn [fold_left]. apply IH, consistent_visit, Hm.
Qed.

Lemma is_Some_fold_alter (f : Connection -> Connection) l
    (hp : gmap nat Connection) b :
  is_Some (hp !! b) ->
  is_Some (fold_left (fun hp (e : jsstring * nat) => alter f e.2 hp) l hp !! b).
Proof.
  revert hp. induction l as [|e l IH]; intros hp H; [exact H|].
  cbn [fold_left]. apply IH, is_Some_alter, H.
Qed.

Lemma mapHas_false k l : mapHas k l = false -> ~ In k (map fst l).
Proof.
  unfold mapHas. intros H Hin. apply in_map_iff in Hin.
  destruct Hin as (e & He & Hin).
  assert (Ht : existsb (fun e => streq e.1 k) l = true).
  { apply existsb_exists. exists e. split; [exact Hin|].
    unfold streq. apply bool_decide_eq_true. exact He. }
  congruence.
Qed.

Lemma mapSet_keys k v l :
  map fst (mapSet k v l) = if mapHas k l then map fst l else map fst l ++ [k].
Proof.
  unfold mapSet. destruct (mapHas k l).
  - rewrite map_map. apply map_ext. intros e. unfold streq.
    case_bool_decide as E; [cbn; symmetry; exact E|reflexivity].
  - rewrite map_app. reflexivity.
Qed.

Lemma mapSet_In k v l e :
  In e (mapSet k v l) -> e = (k, v) \/ In e l.
Proof.
  unfold mapSet. destruct (mapHas k l).
  - intros H. apply in_map_iff in H. destruct H as (e' & He' & Hin).
    destruct (streq e'.1 k); [left; symmetry; exact He'|right; subst; exact Hin].
  - intros H. apply in_app_or in H. destruct H as [H|[H|[]]];
      [right; exact H|left; symmetry; exact H].
Qed.

Lemma mapSet_values k v l :
  List.NoDup (map fst l) -> List.NoDup (map snd l) -> ~ In v (map snd l) ->
  List.NoDup (map snd (mapSet k v l)).
Proof.
  intros Hk Hv Hfresh. unfold mapSet. destruct (mapHas k l) eqn:Hhas.
  - clear Hhas. induction l as [|e l IH]; [constructor|].
    cbn [map] in *. inversion Hk as [|x xs Hkx Hkl]; subst.
    inversion Hv as [|x xs Hvx Hvl]; subst.
    assert (Hin : forall y, In y (map snd (map (fun e0 => if streq e0.1 k
                                then (k, v) else e0) l)) ->
                            y = v \/ In y (map snd l)).
    { intros y Hy. apply in_map_iff in Hy. destruct Hy as (e1 & <- & He1).
      apply in_map_iff in He1. destruct He1 as (e2 & <- & He2).
      destruct (streq e2.1 k); [left; reflexivity|].
      right. apply in_map. exact He2. }
    unfold streq at 1. case_bool_decide as E.
    + cbn [snd]. constructor.
      * intros Hy. destruct (Hin _ Hy) as [_|Hy'].
        -- assert (Hsame : map (fun e0 => if streq e0.1 k then (k, v) else e0) l
                          = l).
           { rewrite <- (map_id l) at 2. apply map_ext_in. intros e0 He0.
             unfold streq. case_bool_decide as E0; [|reflexivity].
             exfalso. apply Hkx. rewrite E, <- E0. apply in_map. exact He0. }
           rewrite Hsame in Hy. apply Hfresh. right. exact Hy.
        -- apply Hfresh. right. exact Hy'.
      * apply IH; [exact Hkl|exact Hvl|].
        intros Hy. apply Hfresh. right. exact Hy.
    + constructor.
      * intros Hy. destruct (Hin _ Hy) as [Hy'|Hy'].
        -- apply Hfresh. left. exact Hy'.
        -- apply Hvx, Hy'.
      * apply IH; [exact Hkl|exact Hvl|].
        intros Hy. apply Hfresh. right. exact Hy.
  - rewrite map_app. cbn [map snd]. apply List.NoDup_app.
    + exact Hv.
    + constructor; [intros []|constructor].
    + intros y Hy [<-|[]]. exact (Hfresh Hy).
Qed.

Lemma consistent_create r k h timers m m' a :
  consistent m -> createConnection r k h timers m = Some (m', a) ->
  consistent m' /\ heap m !! a = None
  /\ (exists c, construct r h timers = Some c /\ heap m' !! a = Some c)
  /\ (forall b, b <> a -> heap m' !! b = heap m !! b).
Proof.
  intros (Hk & Hv & Hh). unfold createConnection.
  destruct (construct r h timers) as [c|]; [|discriminate].
  intros [= <- <-]. set (a := fresh (dom (heap m))).
  assert (Hnone : heap m !! a = None).
  { apply not_elem_of_dom. apply is_fresh. }
  assert (Hfresh : ~ In a (map snd (connections m))).
  { intros Hin. apply in_map_iff in Hin. destruct Hin as (e & He & Hin).
    destruct (Hh e Hin) as [c' Hc']. rewrite He, Hnone in Hc'. discriminate. }
  split.
  { unfold consistent. cbn [heap connections]. split.
    - rewrite mapSet_keys. destruct (mapHas k (connections m)) eqn:Hhas;
        [exact Hk|].
      apply List.NoDup_app; [exact Hk|constructor; [intros []|constructor]|].
      intros y Hy [<-|[]]. exact (mapHas_false _ _ Hhas Hy).
    - split; [apply mapSet_values; assumption|].
      intros e He. apply mapSet_In in He. destruct He as [->|He].
      + cbn [snd]. rewrite lookup_insert_eq. eexists; reflexivity.
      + apply is_Some_insert, Hh, He. }
  split; [exact Hnone|]. split.
  - exists c. split; [reflexivity|]. cbn [heap]. apply lookup_insert_eq.
  - intros b Hb. cbn [heap]. apply lookup_insert_ne. congruence.
Qed.

Lemma consistent_call m c : consistent m -> consistent (call m c).
Proof.
  intros Hm. destruct c as [r k h timers|k a|a s|ev j|j| |]; cbn [call].
  - destruct (createConnection r k h timers m) as [[m' a]|] eqn:E; [|exact Hm].
    apply (consistent_create r k h timers m m' a Hm E).
  - destruct m as [hp l]. unfold resClosed. cbn [heap connections].
    apply (consistent_delete _ hp _ l Hm). intros b. apply is_Some_alter.
  - destruct m as [hp l]. cbn [heap connections].
    apply (consistent_heap hp _ l Hm). intros b. apply is_Some_alter.
  - apply consistent_fold_visit, Hm.
  - apply consistent_fold_visit, Hm.
  - apply consistent_fold_visit, Hm.
  - unfold closeAll. split; [constructor|]. split; [constructor|].
    intros e [].
Qed.

Lemma consistent_empty : consistent emptyManager.
Proof.
  split; [constructor|]. split; [constructor|]. intros e [].
Qed.

Lemma consistent_serve calls m : consistent m -> consistent (serve calls m).
Proof.
  revert m. induction calls as [|c calls IH]; intros m Hm; [exact Hm|].
  unfold serve in *. cbn [fold_left]. apply IH, consistent_call, Hm.
Qed.

(** *** The loops over the entries *)

(** What a loop leaves of a connection it visits. *)
Definition visited (f : Connection -> Connection) (c : Connection)
    : Connection :=
  if isClosed_ c then c else f c.

(** The ids a loop over [l] deletes: those of the entries whose connection
    is closed. *)
Definition deadIds (m : Manager) (l : list (jsstring * nat)) : list jsstring :=
  map fst (List.filter (fun e => closedAt m e.2) l).

Lemma heap_visit f m e a :
  heap (visit f m e) !! a
  = if decide (e.2 = a) then visited f <$> heap m !! a else heap m !! a.
Proof.
  unfold visit, visited. destruct (heap m !! e.2) as [c|] eqn:E.
  - destruct (isClosed_ c) eqn:Hc; cbn [heap].
    + destruct (decide (e.2 = a)) as [<-|]; [|reflexivity].
      rewrite E. cbn. rewrite Hc. reflexivity.
    + rewrite lookup_insert. destruct (decide (e.2 = a)) as [<-|]; [|reflexivity].
      rewrite E. cbn. rewrite Hc. reflexivity.
  - destruct (decide (e.2 = a)) as [<-|]; [|reflexivity].
    rewrite E. reflexivity.
Qed.

Lemma connections_visit f m e :
  connections (visit f m e)
  = if closedAt m e.2 then mapDelete e.1 (connections m) else connections m.
Proof.
  unfold visit, closedAt. destruct (heap m !! e.2) as [c|]; [|reflexivity].
  destruct (isClosed_ c); reflexivity.
Qed.

Lemma heap_fold_visit_other f l m a :
  ~ In a (map snd l) -> heap (fold_left (visit f) l m) !! a = heap m !! a.
Proof.
  revert m. induction l as [|e l IH]; intros m Hn; [reflexivity|].
  cbn [fold_left]. rewrite IH by (intros H; apply Hn; right; exact H).
  rewrite heap_visit. destruct (decide (e.2 = a)) as [E|]; [|reflexivity].
  exfalso. apply Hn. left. exact E.
Qed.

Lemma heap_fold_visit f l m a :
  List.NoDup (map snd l) -> In a (map snd l) ->
  heap (fold_left (visit f) l m) !! a = visited f <$> heap m !! a.
Proof.
  revert m. induction l as [|e l IH]; intros m Hnd Hin; [destruct Hin|].
  cbn [map] in *. inversion Hnd as [|x xs Hx Hl]; subst. cbn [fold_left].
  destruct Hin as [<-|Hin].
  - rewrite heap_fold_visit_other by exact Hx. rewrite heap_visit.
    destruct (decide (e.2 = e.2)); [reflexivity|congruence].
  - rewrite (IH _ Hl Hin). rewrite heap_visit.
    destruct (decide (e.2 = a)) as [<-|]; [|reflexivity].
    destruct (Hx Hin).
Qed.

Lemma filter_filter_list {A} (p q : A -> bool) (l : list A) :
  List.filter p (List.filter q l) = List.filter (fun x => q x && p x) l.
Proof.
  induction l as [|x l IH]; [reflexivity|]. cbn [List.filter].
  destruct (q x); cbn [List.filter andb]; [destruct (p x)|]; rewrite IH;
    reflexivity.
Qed.

Lemma connections_fold_visit f l m :
  List.NoDup (map snd l) ->
  connections (fold_left (visit f) l m)
  = List.filter (fun e => negb (existsb (streq e.1) (deadIds m l)))
      (connections m).
Proof.
  revert m. induction l as [|e l IH]; intros m Hnd.
  - cbn. symmetry. apply forallb_filter_id. apply forallb_forall.
    intros x _. reflexivity.
  - cbn [map] in Hnd. inversion Hnd as [|x xs Hx Hl]; subst.
    cbn [fold_left]. rewrite (IH _ Hl), connections_visit.
    assert (Hdead : deadIds (visit f m e) l = deadIds m l).
    { unfold deadIds. f_equal. apply filter_ext_in. intros x Hxin.
      unfold closedAt. rewrite heap_visit.
      destruct (decide (e.2 = x.2)) as [E|]; [|reflexivity].
      exfalso. apply Hx. rewrite E. apply in_map. exact Hxin. }
    rewrite Hdead. unfold deadIds at 2. cbn [List.filter].
    destruct (closedAt m e.2); cbn [map]; [|reflexivity].
    unfold mapDelete. rewrite filter_filter_list. apply filter_ext.
    intros x. cbn [existsb]. rewrite negb_orb. reflexivity.
Qed.

Lemma keys_determine (l : list (jsstring * nat)) e e' :
  List.NoDup (map fst l) -> In e l -> In e' l -> e.1 = e'.1 -> e = e'.
Proof.
  induction l as [|x l IH]; intros Hnd He He' Heq; [destruct He|].
  cbn [map] in Hnd. inversion Hnd as [|y ys Hx Hl]; subst.
  destruct He as [<-|He], He' as [<-|He'].
  - reflexivity.
  - exfalso. apply Hx. rewrite Heq. apply in_map. exact He'.
  - exfalso. apply Hx. rewrite <- Heq. apply in_map. exact He.
  - apply IH; assumption.
Qed.

Lemma filter_dead_open m :
  List.NoDup (map fst (connections m)) ->
  List.filter (fun e => negb (existsb (streq e.1) (deadIds m (connections m))))
    (connections m)
  = List.filter (fun e => negb (closedAt m e.2)) (connections m).
Proof.
  intros Hnd. apply filter_ext_in. intros e He. f_equal.
  apply Bool.eq_iff_eq_true. split.
  - intros H. apply existsb_exists in H. destruct H as (k & Hk & Hs).
    unfold streq in Hs. apply bool_decide_eq_true in Hs.
    unfold deadIds in Hk. apply in_map_iff in Hk.
    destruct Hk as (e' & He' & Hin). apply filter_In in Hin.
    destruct Hin as [Hin Hc].
    assert (e = e') by (apply (keys_determine _ e e' Hnd He Hin); congruence).
    subst e'. exact Hc.
  - intros H. apply existsb_exists. exists e.1. split.
    + unfold deadIds. apply in_map. apply filter_In. split; assumption.
    + unfold streq. apply bool_decide_eq_true. reflexivity.
Qed.

(** What a loop does, for a consistent manager. *)
Definition swept (f : Connection -> Connection) (m m' : Manager) : Prop :=
  connections m'
  = List.filter (fun e => negb (closedAt m e.2)) (connections m)
  /\ (forall e c, In e (connections m) -> heap m !! e.2 = Some c ->
       heap m' !! e.2 = Some (if isClosed_ c then c else f c))
  /\ (forall a, ~ In a (map snd (connections m)) -> heap m' !! a = heap m !! a)
  /\ consistent m'.

Lemma fold_visit_swept f m :
  consistent m -> swept f m (fold_left (visit f) (connections m) m).
Proof.
  intros Hm. pose proof Hm as (Hk & Hv & Hh). split.
  { rewrite (connections_fold_visit f _ m Hv). apply filter_dead_open, Hk. }
  split.
  { intros e c He Hc.
    rewrite (heap_fold_visit f _ m e.2 Hv) by (apply in_map; exact He).
    rewrite Hc. reflexivity. }
  split; [intros a Ha; apply heap_fold_visit_other, Ha|].
  apply consistent_fold_visit, Hm.
Qed.

(** X15. [broadcast] and [broadcastData] on a consistent manager: every
    registered connection that is open is sent the event (the data), each
    as [sendEvent] ([sendData]) does on its own, so that a connection
    whose write throws is closed without keeping the others from being
    served; a registered connection that is closed is left as it is and
    its entry deleted; the entries kept are those of the open connections,
    in the order they had; connections that are not registered are not
    touched. *)
Theorem broadcast_serves_the_open_connections
    (event json : jsstring) (m : Manager) :
  consistent m ->
  swept (sendEvent event json) m (broadcast event json m)
  /\ swept (sendData json) m (broadcastData json m).
Proof.
  intros Hm. split; apply fold_visit_swept, Hm.
Qed.

(** X16. [getActiveConnections] on a consistent manager changes no
    connection; it deletes the entries of the closed connections and
    answers the number of entries left, the number of registered
    connections that are open; asked again at once, it answers the same
    and changes nothing. *)
Theorem getActiveConnections_counts_the_open_ones (m : Manager) :
  consistent m ->
  let r := getActiveConnections m in
  heap r.1 = heap m
  /\ connections r.1
     = List.filter (fun e => negb (closedAt m e.2)) (connections m)
  /\ r.2 = Z.of_nat (length (List.filter (fun e => negb (closedAt m e.2))
                                         (connections m)))
  /\ 0 <= r.2 <= Z.of_nat (length (connections m))
  /\ getActiveConnections r.1 = r.
Proof.
  intros Hm r.
  assert (Hgen : forall m0, consistent m0 ->
            heap (getActiveConnections m0).1 = heap m0
            /\ connections (getActiveConnections m0).1
               = List.filter (fun e => negb (closedAt m0 e.2)) (connections m0)
            /\ consistent (getActiveConnections m0).1).
  { intros m0 Hm0. unfold getActiveConnections. cbn [fst].
    destruct (fold_visit_swept (fun c => c) m0 Hm0) as (Hc & Hreg & Hother & Hcons).
    split; [|split; assumption].
    apply map_eq. intros a.
    destruct (List.in_dec Nat.eq_dec a (map snd (connections m0))) as [Hin|Hnin];
      [|apply Hother, Hnin].
    apply in_map_iff in Hin. destruct Hin as (e & <- & He).
    destruct Hm0 as (_ & _ & Hh). destruct (Hh e He) as [c Hc0].
    rewrite (Hreg e c He Hc0), Hc0. destruct (isClosed_ c); reflexivity. }
  destruct (Hgen m Hm) as (Hheap & Hconn & Hcons).
  assert (Hsnd : forall m0, (getActiveConnections m0).2
            = Z.of_nat (length (connections (getActiveConnections m0).1)))
    by reflexivity.
  unfold r. split; [exact Hheap|]. split; [exact Hconn|].
  split; [rewrite Hsnd, Hconn; reflexivity|].
  split.
  { rewrite Hsnd, Hconn. split; [lia|]. apply inj_le, filter_length_le. }
  destruct (Hgen _ Hcons) as (Hheap' & Hconn' & _).
  assert (Hidem : connections (getActiveConnections (getActiveConnections m).1).1
                  = connections (getActiveConnections m).1).
  { rewrite Hconn'. apply forallb_filter_id. apply forallb_forall.
    intros e He. rewrite Hconn in He. apply filter_In in He.
    destruct He as [_ He]. unfold closedAt in *. rewrite Hheap. exact He. }
  apply injective_projections.
  - destruct ((getActiveConnections (getActiveConnections m).1).1) as [hp l] eqn:E1.
    destruct ((getActiveConnections m).1) as [hp0 l0] eqn:E0.
    cbn [heap connections] in *. congruence.
  - rewrite (Hsnd (getActiveConnections m).1), Hidem, <- Hsnd. reflexivity.
Qed.

Lemma heap_closeAll l (hp : gmap nat Connection) a :
  fold_left (fun hp (e : jsstring * nat) => alter close e.2 hp) l hp !! a
  = if bool_decide (a ∈ map snd l) then close <$> hp !! a else hp !! a.
Proof.
  revert hp. induction l as [|e l IH]; intros hp.
  - cbn. rewrite bool_decide_eq_false_2 by apply not_elem_of_nil. reflexivity.
  - cbn [fold_left map]. rewrite IH, lookup_alter.
    destruct (decide (e.2 = a)) as [<-|Hne].
    + rewrite (bool_decide_eq_true_2 (e.2 ∈ e.2 :: map snd l))
        by apply list_elem_of_here.
      case_bool_decide; [|reflexivity].
      destruct (hp !! e.2) as [c|]; [|reflexivity].
      cbn. rewrite close_close. reflexivity.
    + apply (f_equal (fun b : bool => if b then close <$> hp !! a else hp !! a)).
      apply bool_decide_ext. rewrite elem_of_cons. split; [intros H; right; exact H|].
      intros [H|H]; [congruence|exact H].
Qed.

(** X17. [closeAll] closes every registered connection, as [close] does
    on its own, leaves no entry and touches no other connection;
    afterwards no connection is counted as active and a broadcast reaches
    nobody. *)
Theorem closeAll_closes_every_registered_connection
    (event json : jsstring) (m : Manager) :
  let m' := closeAll m in
  connections m' = []
  /\ (forall e c, In e (connections m) -> heap m !! e.2 = Some c ->
       heap m' !! e.2 = Some (close c) /\ isClosed_ (close c) = true)
  /\ (forall a, ~ In a (map snd (connections m)) -> heap m' !! a = heap m !! a)
  /\ getActiveConnections m' = (m', 0)
  /\ broadcast event json m' = m'
  /\ broadcastData json m' = m'.
Proof.
  intros m'. split; [reflexivity|]. split.
  { intros e c He Hc. unfold m', closeAll. cbn [heap].
    rewrite heap_closeAll, bool_decide_eq_true_2
      by (apply list_elem_of_In, in_map; exact He).
    rewrite Hc. split; [reflexivity|].
    unfold isClosed_. rewrite isClosed_close. reflexivity. }
  split.
  { intros a Ha. unfold m', closeAll. cbn [heap].
    rewrite heap_closeAll, bool_decide_eq_false_2
      by (rewrite list_elem_of_In; exact Ha).
    reflexivity. }
  repeat split.
Qed.

(** X18. Whatever a server does with a manager it created (connections
    made, responses closing, sends on a connection, broadcasts, counts,
    [closeAll], in any order), the map keeps one entry per id, no two
    entries refer to the same connection object, and every entry refers to
    a connection that exists. *)
Theorem registry_stays_consistent (calls : list Call) :
  consistent (serve calls emptyManager).
Proof.
  apply consistent_serve, consistent_empty.
Qed.

(** Two connections registered, the first one closed since. *)
Definition twoConnections : Manager :=
  serve [Create openResponse (js "sse_1") 1 ∅;
         Create openResponse (js "sse_2") 2 ∅;
         OnConnection 0 Close] emptyManager.

Lemma twoConnections_consistent : consistent twoConnections.
Proof.
  apply consistent_serve, consistent_empty.
Qed.

Lemma broadcast_serves_the_open_connections_witness :
  consistent twoConnections
  /\ connections twoConnections = [(js "sse_1", 0%nat); (js "sse_2", 1%nat)]
  /\ connections (broadcast (js "info") (js "{}") twoConnections)
     = [(js "sse_2", 1%nat)]
  /\ swept (sendData (js "{}")) twoConnections
       (broadcastData (js "{}") twoConnections).
Proof.
  pose proof (broadcast_serves_the_open_connections (js "info") (js "{}")
                twoConnections twoConnections_consistent) as [Hb Hd].
  split; [exact twoConnections_consistent|].
  split; [vm_compute; reflexivity|].
  split; [|exact Hd].
  destruct Hb as [Hc _]. rewrite Hc. vm_compute. reflexivity.
Defined.

Lemma getActiveConnections_counts_the_open_ones_witness :
  consistent twoConnections
  /\ (getActiveConnections twoConnections).2 = 1
  /\ getActiveConnections (getActiveConnections twoConnections).1
     = getActiveConnections twoConnections.
Proof.
  pose proof (getActiveConnections_counts_the_open_ones twoConnections
                twoConnections_consistent) as (_ & _ & Hn & _ & Hi).
  split; [exact twoConnections_consistent|].
  split; [rewrite Hn; vm_compute; reflexivity|exact Hi].
Defined.

End SseManagerFacts.

(** * Further properties of the status stream *)

Module StatusMore.

Import StatusRoute.

(** A list of statuses without the repetitions of the status just before:
    of each run of equal statuses one is kept. *)
Fixpoint changes (l : list Status) : list Status :=
  match l with
  | [] => []
  | x :: rest =>
      match rest with
      | [] => [x]
      | y :: _ => if bool_decide (x = y) then changes rest else x :: changes rest
      end
  end.

Lemma changes_cons x y l :
  changes (x :: y :: l)
  = if bool_decide (x = y) then changes (y :: l) else x :: changes (y :: l).
Proof. reflexivity. Qed.

Lemma changes_head x l : exists t, changes (x :: l) = x :: t.
Proof.
  revert x. induction l as [|y l IH]; intros x; [exists []; reflexivity|].
  rewrite changes_cons. case_bool_decide as E.
  - subst y. apply IH.
  - eexists. reflexivity.
Qed.

Lemma changes_adjacent l pre a b post :
  changes l = pre ++ a :: b :: post -> a <> b.
Proof.
  revert pre. induction l as [|x l IH]; intros pre H.
  - destruct pre; discriminate H.
  - destruct l as [|y l].
    + cbn in H. destruct pre as [|p [|q pre]]; discriminate H.
    + rewrite changes_cons in H. case_bool_decide as E.
      * apply (IH pre H).
      * destruct pre as [|p pre].
        -- cbn [app] in H. destruct (changes_head y l) as [t Hy].
           rewrite Hy in H. congruence.
        -- cbn [app] in H.
           assert (Ht : changes (y :: l) = pre ++ a :: b :: post)
             by congruence.
           apply (IH pre Ht).
Qed.

Lemma last_changes x l d :
  List.last (changes (x :: l)) d = List.last l x.
Proof.
  revert x d. induction l as [|y l IH]; intros x d; [reflexivity|].
  rewrite changes_cons. case_bool_decide as E.
  - subst y. rewrite IH, LinkStoreMore.last_cons_default. reflexivity.
  - rewrite !LinkStoreMore.last_cons_default. apply IH.
Qed.

Lemma received_sendTo c s r :
  received c (setLast s (sendTo c s r)) = received c r ++ [s].
Proof.
  unfold received, setLast, sendTo. cbn [pushed].
  rewrite lookup_insert_eq. reflexivity.
Qed.

Lemma received_sendTo_other c c' s r :
  c' <> c -> received c' (setLast s (sendTo c s r)) = received c' r.
Proof.
  intros Hne. unfold received, setLast, sendTo. cbn [pushed].
  rewrite lookup_insert_ne by congruence. reflexivity.
Qed.

Lemma recomputes_on_one_stream c ss r l pre :
  lastStatus r = Some l -> received c r = pre ++ [l] ->
  let r' := streamRun (map (Recompute c) ss) r in
  received c r' = pre ++ changes (l :: ss)
  /\ lastStatus r' = Some (List.last ss l)
  /\ (forall c', c' <> c -> received c' r' = received c' r).
Proof.
  revert r l pre. induction ss as [|s ss IH]; intros r l pre Hl Hr.
  - cbn. repeat split; assumption || reflexivity.
  - unfold streamRun in *. cbn [map fold_left streamStep]. cbn zeta.
    assert (Hstep : recompute c s r
              = if bool_decide (l = s) then r else setLast s (sendTo c s r)).
    { unfold recompute, differs. rewrite Hl.
      case_bool_decide as E1; case_bool_decide as E2; cbn [negb];
        congruence || reflexivity. }
    rewrite Hstep, changes_cons. clear Hstep. case_bool_decide as E.
    + subst s. destruct (IH r l pre Hl Hr) as (H1 & H2 & H3).
      split; [exact H1|]. split; [|exact H3].
      rewrite H2, LinkStoreMore.last_cons_default. reflexivity.
    + assert (Hr' : received c (setLast s (sendTo c s r)) = (pre ++ [l]) ++ [s])
        by (rewrite received_sendTo, Hr; reflexivity).
      destruct (IH (setLast s (sendTo c s r)) s (pre ++ [l]) eq_refl Hr')
        as (H1 & H2 & H3).
      split; [rewrite H1, <- app_assoc; reflexivity|].
      split; [rewrite H2, LinkStoreMore.last_cons_default; reflexivity|].
      intros c' Hc'. rewrite (H3 c' Hc'). apply received_sendTo_other, Hc'.
Qed.

(** X19. One status stream on a router: the connection is sent the
    initial status, then each recomputed status that differs from the one
    sent last, and nothing else. So what it received is the statuses
    computed, without the repetitions; no two in a row are equal; the last
    one received is the last one computed; and [lastStatus] holds it. *)
Theorem single_stream_is_sent_each_change_once
    (c : nat) (initialStatus : Status) (computed : list Status) :
  let r := streamRun (Open c initialStatus :: map (Recompute c) computed)
                     newRouter in
  received c r = changes (initialStatus :: computed)
  /\ (forall pre a b post, received c r = pre ++ a :: b :: post -> a <> b)
  /\ List.last (received c r) initialStatus = List.last computed initialStatus
  /\ lastStatus r = Some (List.last computed initialStatus)
  /\ (forall c', c' <> c -> received c' r = []).
Proof.
  intros r. unfold r, streamRun. cbn [fold_left streamStep].
  set (r0 := openStream c initialStatus newRouter).
  assert (Hl : lastStatus r0 = Some initialStatus) by reflexivity.
  assert (Hr : received c r0 = [] ++ [initialStatus]).
  { unfold r0, openStream. rewrite received_sendTo. reflexivity. }
  destruct (recomputes_on_one_stream c computed r0 initialStatus [] Hl Hr)
    as (H1 & H2 & H3).
  unfold streamRun in *. cbn [app] in H1.
  split; [exact H1|]. split.
  { intros pre a b post H. rewrite H1 in H.
    exact (changes_adjacent _ pre a b post H). }
  split.
  { rewrite H1. apply last_changes. }
  split; [exact H2|].
  intros c' Hc'. rewrite (H3 c' Hc'). unfold r0, openStream.
  rewrite received_sendTo_other by exact Hc'. reflexivity.
Qed.

End StatusMore.

(** * Errors and the pipeline routes *)

(** ** [errorHandler] (middleware/error.ts) *)

Module Http.

(** What reaches the handler: an [ApiError], a [ZodError], or another
    value with its [code] and [message] properties ([None]: not there). *)
Inductive Thrown :=
| ApiError (code : string) (message : jsstring) (statusCode : Z)
           (details : bool)
| ZodError
| OtherError (code : option string) (message : option jsstring).

(** [s.includes(p)] *)
Definition includes (s p : jsstring) : bool :=
  existsb (fun k => startsWith (drop k s) p) (seq 0 (S (length s))).

(** What the handler answers: the status, and [error.code],
    [error.message] and whether [error.details] is there. *)
Record ErrorReply :=
  { statusCode : Z; code : string; message : jsstring; details : bool }.

Definition messageIncludes (m : option jsstring) (p : jsstring) : bool :=
  match m with Some s => includes s p | None => false end.

(** [errorHandler(error, req, res, next)] *)
Definition errorHandler (thrown : Thrown) : ErrorReply :=
  match thrown with
  | ApiError c m s d =>
      {| statusCode := s; code := c; message := m; details := d |}
  | ZodError =>
      {| statusCode := 400; code := "VALIDATION_ERROR";
         message := js "Invalid request data"; details := true |}
  | OtherError c m =>
      if bool_decide (c = Some "ENOENT"%string) then
        {| statusCode := 404; code := "NOT_FOUND";
           message := js "Resource not found"; details := false |}
      else if bool_decide (c = Some "EACCES"%string)
              || bool_decide (c = Some "EPERM"%string) then
        {| statusCode := 403; code := "PERMISSION_DENIED";
           message := js "Permission denied"; details := false |}
      else if messageIncludes m (js "container") then
        {| statusCode := 404; code := "CONTAINER_NOT_FOUND";
           message := match m with
                      | Some s => if truthy s then s else js "Container not found"
                      | None => js "Container not found"
                      end;
           details := false |}
      else if messageIncludes m (js "Docker") then
        {| statusCode := 503; code := "DOCKER_ERROR";
           message := match m with
                      | Some s => if truthy s then s else js "Docker service error"
                      | None => js "Docker service error"
                      end;
           details := false |}
      else
        {| statusCode := 500; code := "INTERNAL_ERROR";
           message := js "An internal server error occurred";
           details := false |}
  end.

End Http.

(** ** The pipeline routes (routes/pipeline.ts) *)

Module PipelineRoute.

Import Docker StatusRoute Http.

(** What a route answers: [res.json({ ok: true })], or what
    [errorHandler] makes of the error thrown. *)
Inductive Reply :=
| Ok
| Failed (r : ErrorReply).

(** [validateContainer(containerName)]: [Some] the error thrown. *)
Definition validateContainer (config : Config) (containerName : string)
    : option Thrown :=
  if negb (bool_decide (containerName = pipelineContainer config)) then
    Some (ApiError "FORBIDDEN"
            (js "Container '" ++ js containerName
               ++ js "' is not allowed. Only '"
               ++ js (pipelineContainer config) ++ js "' is permitted.")
            403 false)
  else None.

(** [POST /start]; [reason] is the message of the error the engine
    rejected the inspection with. *)
Definition start (config : Config) (reason : jsstring) (e : Engine)
    : Engine * Reply :=
  match validateContainer config (pipelineContainer config) with
  | Some thrown => (e, Failed (errorHandler thrown))
  | None =>
      match startContainer (pipelineContainer config) e with
      | (e', Resolved) => (e', Ok)
      | (e', Rejected) =>
          (e', Failed (errorHandler
                 (ApiError "DOCKER_ERROR"
                    (js "Failed to start pipeline: "
                       ++ js "Failed to start container: " ++ reason)
                    503 false)))
      end
  end.

(** [POST /stop] *)
Definition stop (config : Config) (reason : jsstring) (e : Engine)
    : Engine * Reply :=
  match validateContainer config (pipelineContainer config) with
  | Some thrown => (e, Failed (errorHandler thrown))
  | None =>
      match stopContainer (pipelineContainer config) e with
      | (e', Resolved) => (e', Ok)
      | (e', Rejected) =>
          (e', Failed (errorHandler
                 (ApiError "DOCKER_ERROR"
                    (js "Failed to stop pipeline: "
                       ++ js "Failed to stop container: " ++ reason)
                    503 false)))
      end
  end.

End PipelineRoute.

Module PipelineFacts.

Import Docker StatusRoute Http PipelineRoute DockerFacts.

Lemma validateContainer_own config :
  validateContainer config (pipelineContainer config) = None.
Proof.
  unfold validateContainer. rewrite bool_decide_eq_true_2 by reflexivity.
  reflexivity.
Qed.

Lemma inspect_engineStart_other n n' e :
  n' <> n -> inspect (engineStart n e) n' = inspect e n'.
Proof.
  intros H. unfold inspect, engineStart. cbn [containers].
  apply lookup_alter_ne. congruence.
Qed.

Lemma inspect_engineStop_other n n' t e :
  n' <> n -> inspect (engineStop n t e) n' = inspect e n'.
Proof.
  intros H. unfold inspect, engineStop. cbn [containers].
  apply lookup_alter_ne. congruence.
Qed.

(** X20. The pipeline routes, whatever the engine's state. [POST /start]
    and [POST /stop] act on the configured pipeline container and on no
    other: the allow-list check never refuses, the only command the engine
    may be sent is a start (a stop with a grace period of 10) of that
    container, and it is sent exactly when inspection shows the container
    stopped (running); what inspection shows of every other container is
    as before. The answer is [ok] when the inspection succeeds, and then
    the container is running (stopped); when the inspection fails the
    engine is sent nothing and the answer is status 503 with code
    DOCKER_ERROR, the status and code of the error the route wraps the
    failure in, not a classification of its message. *)
Theorem pipeline_routes_act_on_the_pipeline_only
    (config : Config) (reason : jsstring) (e : Engine) :
  let n := pipelineContainer config in
  let wanted (r : bool) (cmd : EngineCmd) (out : Engine * Reply) (what : jsstring) :=
    (forall n', n' <> n -> inspect out.1 n' = inspect e n')
    /\ match inspect e n with
       | Some i =>
           out.2 = Ok
           /\ Running <$> inspect out.1 n = Some r
           /\ issued out.1
              = issued e ++ (if bool_decide (Running i = r) then [] else [cmd])
       | None =>
           out.1 = e
           /\ out.2 = Failed {| statusCode := 503; code := "DOCKER_ERROR";
                                message := what ++ reason; details := false |}
       end in
  wanted true (CmdStart n) (start config reason e)
    (js "Failed to start pipeline: Failed to start container: ")
  /\ wanted false (CmdStop n 10) (stop config reason e)
       (js "Failed to stop pipeline: Failed to stop container: ").
Proof.
  intros n wanted. unfold wanted, start, stop.
  rewrite validateContainer_own. fold n.
  unfold startContainer, stopContainer.
  destruct (inspect e n) as [i|] eqn:Hi.
  - destruct (Running i) eqn:Hr; cbn [negb fst snd].
    + split.
      * split; [reflexivity|]. rewrite Hi. cbn. rewrite Hr.
        rewrite bool_decide_eq_true_2 by reflexivity. rewrite app_nil_r.
        repeat split.
      * split; [intros n' Hn'; apply inspect_engineStop_other, Hn'|].
        rewrite (inspect_engineStop n 10 e i Hi). cbn.
        rewrite bool_decide_eq_false_2 by discriminate. repeat split.
    + split.
      * split; [intros n' Hn'; apply inspect_engineStart_other, Hn'|].
        rewrite (inspect_engineStart n e i Hi). cbn.
        rewrite bool_decide_eq_false_2 by discriminate. repeat split.
      * split; [reflexivity|]. rewrite Hi. cbn. rewrite Hr.
        rewrite bool_decide_eq_true_2 by reflexivity. rewrite app_nil_r.
        repeat split.
  - cbn [fst snd]. split; (split; [reflexivity|]); split; reflexivity.
Qed.

End PipelineFacts.

(** * The bearer-token check: [createAuthMiddleware] (lib/auth.ts) *)

Module Auth.

(** What the middleware does with a request: [next()], or status 401 with
    the given error code. *)
Inductive Verdict :=
| Next
| Unauthorized (code : string).

(** [s.substring(n)] for [n] within the string or at its end. *)
Definition substring (n : nat) (s : jsstring) : jsstring := drop n s.

(** The middleware [createAuthMiddleware(config)] returns; [apiToken] is
    [config.apiToken] and [authorization] is [req.headers.authorization]
    ([None]: [undefined]). *)
Definition authMiddleware (apiToken authorization : option jsstring)
    : Verdict :=
  if negb (truthy_opt apiToken) then Next
  else
    match authorization with
    | None => Unauthorized "UNAUTHORIZED"
    | Some authHeader =>
        if negb (truthy authHeader)
           || negb (startsWith authHeader (js "Bearer "))
        then Unauthorized "UNAUTHORIZED"
        else
          let token := substring 7 authHeader in
          if negb (bool_decide (Some token = apiToken))
          then Unauthorized "INVALID_TOKEN"
          else Next
    end.

End Auth.

Module AuthFacts.

Import Auth.

Lemma startsWith_drop s p :
  startsWith s p = true -> s = p ++ drop (length p) s.
Proof.
  revert s. induction p as [|c p IH]; intros s H.
  - destruct s; reflexivity.
  - destruct s as [|b s]; [discriminate H|].
    cbn [startsWith] in H. apply andb_true_iff in H. destruct H as [Hc Hs].
    apply N.eqb_eq in Hc. subst b. cbn [length drop app]. f_equal.
    apply IH, Hs.
Qed.

(** X21. With a token configured (a string that is not empty) the
    middleware lets a request through exactly when its [Authorization]
    header is [Bearer ], one space, and the token, code unit for code
    unit; it refuses with UNAUTHORIZED exactly when the header is missing
    or does not start with [Bearer ], and with INVALID_TOKEN otherwise.
    With no token configured, or an empty one, every request is let
    through. *)
Theorem authMiddleware_accepts_only_the_token
    (apiToken : option jsstring) (authorization : option jsstring) :
  (truthy_opt apiToken = false -> authMiddleware apiToken authorization = Next)
  /\ (forall token, apiToken = Some token -> token <> [] ->
      (authMiddleware apiToken authorization = Next
       <-> authorization = Some (js "Bearer " ++ token))
      /\ (authMiddleware apiToken authorization = Unauthorized "UNAUTHORIZED"
          <-> match authorization with
              | Some h => startsWith h (js "Bearer ") = false
              | None => True
              end)
      /\ (authMiddleware apiToken authorization = Unauthorized "INVALID_TOKEN"
          <-> exists other, authorization = Some (js "Bearer " ++ other)
                            /\ other <> token)).
Proof.
  split.
  { intros H. unfold authMiddleware. rewrite H. reflexivity. }
  intros token -> Hne. unfold authMiddleware.
  assert (Ht : truthy_opt (Some token) = true)
    by (destruct token; [congruence|reflexivity]).
  rewrite Ht. cbn [negb].
  destruct authorization as [h|].
  2:{ split; [split; discriminate|]. split; [tauto|].
      split; [discriminate|]. intros (o & Ho & _). discriminate Ho. }
  destruct (startsWith h (js "Bearer ")) eqn:Hs.
  - pose proof (startsWith_drop _ _ Hs) as Hh.
    change (length (js "Bearer ")) with 7%nat in Hh.
    assert (Htr : truthy h = true) by (rewrite Hh; reflexivity).
    rewrite Htr. cbn [negb orb]. unfold substring.
    case_bool_decide as E; cbn [negb].
    + assert (Hd : drop 7 h = token) by congruence.
      split; [split; [intros _; congruence|reflexivity]|].
      split; [split; discriminate|].
      split; [discriminate|]. intros (o & Ho & Hno). exfalso. apply Hno.
      assert (Hho : h = js "Bearer " ++ o) by congruence.
      rewrite Hho in Hd. exact Hd.
    + split.
      { split; [discriminate|]. intros Ho. exfalso. apply E.
        assert (Hho : h = js "Bearer " ++ token) by congruence.
        rewrite Hho. reflexivity. }
      split; [split; discriminate|].
      split; [|reflexivity]. intros _. exists (drop 7 h).
      split; [congruence|]. intros Hd. apply E. congruence.
  - rewrite orb_true_r.
    split.
    { split; [discriminate|]. intros Ho.
      assert (Hho : h = js "Bearer " ++ token) by congruence.
      rewrite Hho, StatusFacts.startsWith_app in Hs. discriminate Hs. }
    split; [tauto|].
    split; [discriminate|]. intros (o & Ho & _).
    assert (Hho : h = js "Bearer " ++ o) by congruence.
    rewrite Hho, StatusFacts.startsWith_app in Hs. discriminate Hs.
Qed.

End AuthFacts.

(** * The links routes: [DELETE /:id] (routes/links.ts) *)

Module LinksRoute.

Import Files Http PipelineRoute.

Section Routes.

Variable sha256hex : jsstring -> jsstring.

(** [!id || id.trim().length === 0] *)
Definition blank (id_ : jsstring) : bool :=
  negb (truthy id_) || (strlen (trim id_) =? 0).

(** [DELETE /:id], with what [errorHandler] makes of the error thrown. *)
Definition deleteLink (id_ : jsstring) (d : Disk) : Disk * Reply :=
  if blank id_ then
    (d, Failed (errorHandler
           (ApiError "VALIDATION_ERROR" (js "Link ID is required") 400 false)))
  else
    match removeLink sha256hex id_ d with
    | (d', removed) =>
        if negb removed then
          (d', Failed (errorHandler
                 (ApiError "NOT_FOUND" (js "Link not found") 404 false)))
        else (d', Ok)
    end.

(** [GET /]: the items of the answer. *)
Definition getLinks (d : Disk) : list Link := readLinks sha256hex d.

End Routes.

End LinksRoute.

Module LinksRouteFacts.

Import Files LinkStore Http PipelineRoute LinksRoute.

(** X22. [DELETE /:id]. An id that is empty or blank is refused with
    status 400 and VALIDATION_ERROR; an id that no stored url hashes to is
    answered 404 NOT_FOUND; in both cases the disk is left as it is.
    Otherwise the answer is [ok], and [GET /] then lists the links there
    were, in their order, without those with that id: none is left with
    it. *)
Theorem deleteLink_answers
    (sha256hex : jsstring -> jsstring) (id_ : jsstring) (d : Disk) :
  let out := deleteLink sha256hex id_ d in
  let refused status c m :=
    out = (d, Failed {| statusCode := status; code := c; message := js m;
                        details := false |}) in
  (blank id_ = true -> refused 400 "VALIDATION_ERROR"%string "Link ID is required"%string)
  /\ (blank id_ = false ->
      (forall l, In l (getLinks sha256hex d) -> id l <> id_) ->
      refused 404 "NOT_FOUND"%string "Link not found"%string)
  /\ (blank id_ = false ->
      (exists l, In l (getLinks sha256hex d) /\ id l = id_) ->
      out.2 = Ok
      /\ getLinks sha256hex out.1
         = List.filter (fun l => negb (streq (id l) id_)) (getLinks sha256hex d)
      /\ (forall l, In l (getLinks sha256hex out.1) -> id l <> id_)).
Proof.
  intros out refused. unfold refused, out, deleteLink, getLinks.
  split; [intros ->; reflexivity|]. split.
  - intros -> Hmiss. rewrite (removeLink_miss sha256hex id_ d); [reflexivity|].
    intros u Hu. unfold Files.storedUrls in Hu. apply in_map_iff in Hu.
    destruct Hu as (l & <- & Hl).
    rewrite <- (readLinks_id sha256hex l d Hl). apply Hmiss, Hl.
  - intros -> (l & Hl & Hid).
    assert (Hin : In (url l) (storedUrls sha256hex d))
      by (unfold Files.storedUrls; apply in_map; exact Hl).
    assert (Hg : generateId sha256hex (url l) = id_)
      by (rewrite <- (readLinks_id sha256hex l d Hl); exact Hid).
    rewrite (removeLink_hit sha256hex id_ d (url l) Hin Hg). cbn [negb fst snd].
    split; [reflexivity|].
    assert (Hget : readLinks sha256hex
                     {| links := Some (render (remaining sha256hex id_ d));
                        tmp := None;
                        fslog := fslog d
                                 ++ [WriteFile (render (remaining sha256hex id_ d));
                                     Rename] |}
                   = List.filter (fun l => negb (streq (id l) id_))
                       (readLinks sha256hex d)).
    { unfold Files.readLinks at 1. cbn [links].
      rewrite (urlsOf_render _ (remaining_clean sha256hex id_ d)).
      unfold remaining. rewrite (storedUrls_urlsOf sha256hex).
      unfold Files.readLinks. destruct (links d) as [c|]; [|reflexivity].
      induction (urlsOf c) as [|u us IH]; [reflexivity|].
      cbn [List.filter map id]. destruct (negb (streq _ id_)); cbn [map];
        rewrite IH; reflexivity. }
    rewrite Hget. split; [reflexivity|].
    intros l' Hl'. apply filter_In in Hl'. destruct Hl' as [_ Hn].
    apply negb_true_iff in Hn. unfold streq in Hn.
    apply bool_decide_eq_false in Hn. exact Hn.
Qed.

End LinksRouteFacts.

(** * The status after the pipeline routes *)

Module PipelineStatus.

Import Docker StatusRoute Http PipelineRoute DockerFacts PipelineFacts.

(** X23. What [GET /status] shows after [POST /start] and after
    [POST /stop], for a pipeline container the engine knows and a
    configuration that names three different containers: the pipeline is
    [running] after a start and [stopped] after a stop, whatever it was;
    [vpn], [tor], [cleanJobs], [containerName] and [version] are what they
    were; a start of a running pipeline and a stop of a stopped one change
    nothing of the status, any other start or stop changes it. *)
Theorem status_follows_the_pipeline_routes
    (config : Config) (reason : jsstring) (e : Engine) (i : InspectInfo) :
  inspect e (pipelineContainer config) = Some i ->
  gluetunContainer config <> pipelineContainer config ->
  torContainer config <> pipelineContainer config ->
  let before := getCurrentStatus config e in
  let started := getCurrentStatus config (start config reason e).1 in
  let halted := getCurrentStatus config (stop config reason e).1 in
  let others (s : Status) :=
    (vpn s, tor s, cleanJobs s, containerName s, version s) in
  pipeline started = running
  /\ pipeline halted = stopped
  /\ others started = others before
  /\ others halted = others before
  /\ (started = before <-> Running i = true)
  /\ (halted = before <-> Running i = false).
Proof.
  intros Hi Hvpn Htor before started halted others.
  unfold started, halted, before, others, start, stop.
  rewrite validateContainer_own. unfold startContainer, stopContainer.
  rewrite Hi. set (n := pipelineContainer config) in *.
  assert (Hstart : getCurrentStatus config (engineStart n e)
            = {| pipeline := running; containerName := n;
                 vpn := vpn (getCurrentStatus config e);
                 tor := tor (getCurrentStatus config e);
                 lastRunAt := lastRunAt (getCurrentStatus config (engineStart n e));
                 cleanJobs := cleanJobs (getCurrentStatus config e);
                 version := appVersion config |}).
  { unfold getCurrentStatus, getContainerInfo. fold n.
    rewrite (inspect_engineStart n e i Hi).
    rewrite !(inspect_engineStart_other n _ e) by assumption.
    rewrite Hi. reflexivity. }
  assert (Hstop : getCurrentStatus config (engineStop n 10 e)
            = {| pipeline := stopped; containerName := n;
                 vpn := vpn (getCurrentStatus config e);
                 tor := tor (getCurrentStatus config e);
                 lastRunAt := lastRunAt (getCurrentStatus config (engineStop n 10 e));
                 cleanJobs := cleanJobs (getCurrentStatus config e);
                 version := appVersion config |}).
  { unfold getCurrentStatus, getContainerInfo. fold n.
    rewrite (inspect_engineStop n 10 e i Hi).
    rewrite !(inspect_engineStop_other n _ 10 e) by assumption.
    rewrite Hi. reflexivity. }
  assert (Hnow : pipeline (getCurrentStatus config e)
                 = if Running i then running else stopped).
  { unfold getCurrentStatus, getContainerInfo. fold n. rewrite Hi. reflexivity. }
  assert (Hname : containerName (getCurrentStatus config e) = n
                  /\ version (getCurrentStatus config e) = appVersion config)
    by (split; reflexivity).
  destruct Hname as [Hname Hver].
  destruct (Running i) eqn:Hr; cbn [negb fst snd].
  - rewrite Hstop. cbn [pipeline vpn tor cleanJobs containerName version].
    rewrite Hnow, Hname, Hver.
    split; [reflexivity|]. split; [reflexivity|].
    split; [reflexivity|]. split; [reflexivity|].
    split; [split; reflexivity|].
    split; [|discriminate]. intros H.
    apply (f_equal pipeline) in H. rewrite Hnow in H. discriminate H.
  - rewrite Hstart. cbn [pipeline vpn tor cleanJobs containerName version].
    rewrite Hnow, Hname, Hver.
    split; [reflexivity|]. split; [reflexivity|].
    split; [reflexivity|]. split; [reflexivity|].
    split; [|split; reflexivity].
    split; [|discriminate]. intros H.
    apply (f_equal pipeline) in H. rewrite Hnow in H. discriminate H.
Qed.

Lemma status_follows_the_pipeline_routes_witness :
  let e := StatusFacts.mockEngine in
  let config := StatusFacts.defaults in
  inspect e (pipelineContainer config) = Some StatusFacts.mockInfo
  /\ pipeline (getCurrentStatus config e) = running
  /\ pipeline (getCurrentStatus config (stop config (js "gone") e).1) = stopped
  /\ vpn (getCurrentStatus config (stop config (js "gone") e).1) = up
  /\ getCurrentStatus config (start config (js "gone") e).1
     = getCurrentStatus config e.
Proof.
  intros e config.
  assert (Hi : inspect e (pipelineContainer config) = Some StatusFacts.mockInfo)
    by reflexivity.
  assert (H1 : gluetunContainer config <> pipelineContainer config)
    by discriminate.
  assert (H2 : torContainer config <> pipelineContainer config)
    by discriminate.
  pose proof (status_follows_the_pipeline_routes config (js "gone") e
                StatusFacts.mockInfo Hi H1 H2) as (_ & Hs & _ & Ho & Hsame & _).
  split; [exact Hi|]. split; [reflexivity|]. split; [exact Hs|].
  split; [|apply Hsame; reflexivity].
  assert (Hv : vpn (getCurrentStatus config (stop config (js "gone") e).1)
               = vpn (getCurrentStatus config e))
    by exact (f_equal (fun t => t.1.1.1.1) Ho).
  rewrite Hv. reflexivity.
Defined.

End PipelineStatus.

(** * The log stream and its connection (routes/logs.ts) *)

Module LogsRoute.

Import Sse.

Section Handler.

Variable utf8 : list byte -> jsstring.

(** [JSON.stringify(logEntry)] *)
Variable stringify : LogEntry -> jsstring.

(** The [data] listener of the log stream, on the handler's buffer and
    its connection: every entry of the call goes to [sendData], in
    order. *)
Definition onData (now : jsstring) (st : list byte * Connection)
    (chunk : list byte) : list byte * Connection :=
  let '(buffer, out) := processLogData utf8 now st.1 chunk in
  (buffer, fold_left (fun c entry => sendData (stringify entry) c) out st.2).

(** The chunks of a stream, each with the clock reading of its call. *)
Definition stream (calls : list (jsstring * list byte))
    (st : list byte * Connection) : list byte * Connection :=
  fold_left (fun st call => onData call.1 st call.2) calls st.

(** The chunk [sendData] writes for an entry. *)
Definition dataFrame (entry : LogEntry) : jsstring :=
  js "data: " ++ stringify entry ++ [LF; LF].

End Handler.

End LogsRoute.

Module LogsRouteFacts.

Import Sse SseFacts LogsRoute.

Section Facts.

Variable utf8 : list byte -> jsstring.
Variable stringify : LogEntry -> jsstring.

Lemma sendData_open json c :
  isClosed c = false -> writeThrows (res c) = false ->
  sendData json c
  = withRes {| destroyed := destroyed (res c); ended := ended (res c);
               writeThrows := false;
               written := written (res c) ++ [js "data: " ++ json ++ [LF; LF]] |}
      c.
Proof.
  intros Ho Hw. unfold sendData, write. rewrite Ho, Hw. reflexivity.
Qed.

(** A connection apart from what it has written. *)
Definition apartFromWritten (c : Connection) :=
  (heartbeatInterval c, isClosed c, scheduled c, cleared c,
   destroyed (res c), ended (res c), writeThrows (res c)).

Lemma send_all entries c :
  isClosed c = false -> writeThrows (res c) = false ->
  let c' := fold_left (fun c entry => sendData (stringify entry) c) entries c in
  written (res c') = written (res c) ++ map (dataFrame stringify) entries
  /\ apartFromWritten c' = apartFromWritten c.
Proof.
  revert c. induction entries as [|x entries IH]; intros c Ho Hw.
  - cbn. rewrite app_nil_r. split; reflexivity.
  - cbn [fold_left map]. rewrite (sendData_open _ c Ho Hw).
    set (c1 := withRes _ c).
    destruct (IH c1 Ho eq_refl) as (H3 & H4).
    split.
    + rewrite H3. unfold c1. cbn [withRes res written].
      rewrite <- app_assoc. reflexivity.
    + rewrite H4. unfold apartFromWritten, c1. cbn. rewrite Hw. reflexivity.
Qed.

Lemma send_all_closed entries c :
  isClosed c = true ->
  fold_left (fun c entry => sendData (stringify entry) c) entries c = c.
Proof.
  intros Hc. induction entries as [|x entries IH]; [reflexivity|].
  cbn [fold_left]. unfold sendData at 2. rewrite Hc. exact IH.
Qed.

Lemma stream_buffer calls st :
  (stream utf8 stringify calls st).1 = (feed utf8 calls st.1).1.
Proof.
  revert st. induction calls as [|[now chunk] calls IH]; intros st;
    [reflexivity|].
  unfold stream in *. cbn [fold_left feed fst snd]. rewrite IH.
  unfold onData.
  destruct (processLogData utf8 now st.1 chunk) as [b out]. cbn [fst].
  destruct (feed utf8 calls b). reflexivity.
Qed.

(** X24. The log stream handler and its connection. The buffer the
    handler keeps is the one the framer retains. On a connection that is
    open and whose writes succeed, what is written is one [data:] chunk per
    log entry, in the order of the entries, after what was written before,
    and the connection stays open and is otherwise unchanged; on a closed
    connection nothing is written and the chunks are still framed. *)
Theorem log_stream_writes_one_frame_per_entry
    (calls : list (jsstring * list byte)) (buffer : list byte)
    (c : Connection) :
  writeThrows (res c) = false ->
  let r := stream utf8 stringify calls (buffer, c) in
  r.1 = (feed utf8 calls buffer).1
  /\ (isClosed c = true -> r.2 = c)
  /\ (isClosed c = false ->
      written (res r.2)
      = written (res c)
        ++ map (dataFrame stringify) (feed utf8 calls buffer).2
      /\ apartFromWritten r.2 = apartFromWritten c).
Proof.
  intros Hw r. unfold r. split; [apply (stream_buffer calls (buffer, c))|].
  split.
  - intros Hc. clear r. revert buffer.
    induction calls as [|[now chunk] calls IH]; intros buffer; [reflexivity|].
    unfold stream in *. cbn [fold_left fst snd]. unfold onData at 2.
    cbn [fst snd].
    destruct (processLogData utf8 now buffer chunk) as [b out].
    rewrite (send_all_closed out c Hc). apply IH.
  - intros Ho. clear r. revert buffer c Hw Ho.
    induction calls as [|[now chunk] calls IH]; intros buffer c Hw Ho.
    + cbn. rewrite app_nil_r. split; reflexivity.
    + unfold stream in *. cbn [fold_left feed fst snd]. unfold onData at 2 4.
      cbn [fst snd].
      destruct (processLogData utf8 now buffer chunk) as [b out].
      destruct (send_all out c Ho Hw) as (H3 & H4).
      set (c1 := fold_left _ out c) in *.
      assert (Ho1 : isClosed c1 = false)
        by (rewrite <- Ho; exact (f_equal (fun t => t.1.1.1.1.1.2) H4)).
      assert (Hw1 : writeThrows (res c1) = false)
        by (rewrite <- Hw; exact (f_equal (fun t => t.2) H4)).
      destruct (IH b c1 Hw1 Ho1) as (I1 & I2).
      destruct (feed utf8 calls b) as [b' out'] eqn:Ef. cbn [snd] in *.
      split; [rewrite I1, H3, map_app, <- app_assoc; reflexivity|].
      rewrite I2. exact H4.
Qed.

End Facts.

Lemma log_stream_writes_one_frame_per_entry_witness :
  let stringify (e : LogEntry) := line e in
  let c := SseFacts.fresh7 in
  let bytes := encodeFrames [frameOut "first"; frameErr "second"] in
  let r := stream latin1 stringify
             [(clockA, take 9 bytes); (clockB, drop 9 bytes)] ([], c) in
  writeThrows (res c) = false
  /\ isClosed c = false
  /\ r.1 = []
  /\ written (res r.2)
     = written (res c) ++ [js "data: first" ++ [LF; LF];
                           js "data: second" ++ [LF; LF]].
Proof.
  intros stringify c bytes r.
  assert (Hw : writeThrows (res c) = false) by reflexivity.
  assert (Ho : isClosed c = false) by reflexivity.
  pose proof (log_stream_writes_one_frame_per_entry latin1 stringify
                [(clockA, take 9 bytes); (clockB, drop 9 bytes)] [] c Hw)
    as (Hb & _ & Hopen).
  destruct (Hopen Ho) as (Hwr & _).
  split; [exact Hw|]. split; [exact Ho|].
  split; [unfold r; rewrite Hb; vm_compute; reflexivity|].
  unfold r. rewrite Hwr. vm_compute. reflexivity.
Defined.

End LogsRouteFacts.
